(** * preset-analytics-app: snapshot fetcher and snapshot viewer

    A shallow embedding of the query, aggregation and flattening logic of the
    viewer ([src/utils/search.ts], [src/pages/*.tsx]) and of the pagination,
    fan-out and credential-exchange logic of the fetcher
    ([scripts/fetchPresetData.mjs]), with the properties the specification
    states about them. *)

From Stdlib Require Import ZArith List String Ascii Bool Lia Arith.
From Stdlib Require Import DecimalString Sorting.Sorted Sorting.Permutation.
Import ListNotations.

Local Open Scope string_scope.
Local Open Scope list_scope.

(* ================================================================== *)
(** * JavaScript values

    The data of the program is parsed JSON.  Numbers are the safe integers
    (identifiers, counts, epoch milliseconds: the integers of magnitude
    below [2^53], see [safe]) and are carried as [Z].  A string is carried
    as the bytes of its UTF-8 encoding.  The Unicode case mapping
    [String.prototype.toLowerCase] is a parameter of the definitions that
    call it; white space is the set that [trim] strips, also beyond the
    ASCII range.
    An object is the list of its own properties in the order in which
    [Object.entries] enumerates them.  [undefined] is the [None] of
    [value]. *)

Module JS.

#[local] Unset Elimination Schemes.
Inductive json : Type :=
| JNull
| JBool (b : bool)
| JNum (n : Z)
| JStr (s : string)
| JArr (xs : list json)
| JObj (fields : list (string * json)).
#[local] Set Elimination Schemes.

(** A JavaScript value that may be [undefined]. *)
Definition value := option json.
Definition undefined : value := None.

(** Structural induction that also descends through arrays and objects. *)
Definition json_nested_ind (P : json -> Prop)
  (Hnull : P JNull)
  (Hbool : forall b, P (JBool b))
  (Hnum : forall n, P (JNum n))
  (Hstr : forall s, P (JStr s))
  (Harr : forall xs, Forall P xs -> P (JArr xs))
  (Hobj : forall kv, Forall (fun p => P (snd p)) kv -> P (JObj kv))
  : forall j, P j :=
  fix go (j : json) : P j :=
    match j with
    | JNull => Hnull
    | JBool b => Hbool b
    | JNum n => Hnum n
    | JStr s => Hstr s
    | JArr xs =>
        Harr xs ((fix all (l : list json) : Forall P l :=
                    match l with
                    | [] => Forall_nil _
                    | x :: l' => Forall_cons x (go x) (all l')
                    end) xs)
    | JObj kv =>
        Hobj kv ((fix all (l : list (string * json))
                    : Forall (fun p => P (snd p)) l :=
                    match l with
                    | [] => Forall_nil _
                    | p :: l' =>
                        @Forall_cons _ (fun p => P (snd p)) p l'
                                     (go (snd p)) (all l')
                    end) kv)
    end.

(** ** Strings *)

(** The letters [A-Z] folded to [a-z] and every other byte kept: the
    byte-lowercase of header names, the match of an ASCII pattern under the
    [i] flag, and what [String.prototype.toLowerCase] does to text of the
    ASCII range. *)
Definition lower_ascii (c : ascii) : ascii :=
  let n := nat_of_ascii c in
  if (65 <=? n)%nat && (n <=? 90)%nat then ascii_of_nat (n + 32) else c.

Fixpoint ascii_lowercase (s : string) : string :=
  match s with
  | EmptyString => EmptyString
  | String c s' => String (lower_ascii c) (ascii_lowercase s')
  end.

(** The text holds characters of the ASCII range only. *)
Fixpoint ascii_text (s : string) : bool :=
  match s with
  | EmptyString => true
  | String c s' => (nat_of_ascii c <? 128)%nat && ascii_text s'
  end.

(** What the development knows of [String.prototype.toLowerCase], whose
    Unicode tables it does not hold: on text of the ASCII range the
    function folds the letters [A-Z] and keeps the rest. *)
Definition folds_ascii (toLowerCase : string -> string) : Prop :=
  forall s, ascii_text s = true -> toLowerCase s = ascii_lowercase s.

(** [needle] is a prefix of [hay]. *)
Fixpoint startsWith (hay needle : string) {struct needle} : bool :=
  match needle, hay with
  | EmptyString, _ => true
  | String _ _, EmptyString => false
  | String a n', String b h' => Ascii.eqb a b && startsWith h' n'
  end.

(** [String.prototype.includes]. *)
Fixpoint includes (hay needle : string) : bool :=
  startsWith hay needle
  || match hay with
     | EmptyString => false
     | String _ h' => includes h' needle
     end.

(** [String(n)] for a safe integer: its decimal numeral.  (Beyond the
    safe integers a number is printed with the digits that identify the
    double, from [1e21] on with an exponent.) *)
Definition String_of_number (n : Z) : string :=
  NilZero.string_of_int (Z.to_int n).

(** [Number.isSafeInteger(n)]. *)
Definition safe_integer (n : Z) : bool :=
  (Z.abs n <=? 9007199254740991)%Z.

(** Every number of the value is a safe integer. *)
Fixpoint safe (j : json) : bool :=
  match j with
  | JNum n => safe_integer n
  | JArr xs => forallb safe xs
  | JObj kv => forallb (fun p => safe (snd p)) kv
  | _ => true
  end.

Definition String_of_boolean (b : bool) : string :=
  if b then "true" else "false".

(** ** Truthiness, property access and the short-circuit operators *)

(** [ToBoolean]. *)
Definition truthy_json (j : json) : bool :=
  match j with
  | JNull => false
  | JBool b => b
  | JNum n => negb (n =? 0)%Z
  | JStr s => negb (s =? "")
  | JArr _ => true
  | JObj _ => true
  end.

Definition truthy (v : value) : bool :=
  match v with
  | None => false
  | Some j => truthy_json j
  end.

(** First property named [k] of a property list. *)
Fixpoint lookup {A : Type} (k : string) (kv : list (string * A)) : option A :=
  match kv with
  | [] => None
  | (k', v) :: rest => if k' =? k then Some v else lookup k rest
  end.

(** [o.k] on a value that is neither [null] nor [undefined]: an own property
    of an object, [undefined] on anything else (the keys the program reads
    are never array indices or [length]). *)
Definition prop (o : json) (k : string) : value :=
  match o with
  | JObj kv => lookup k kv
  | _ => None
  end.

(** [o?.k]: [undefined] when [o] is [null] or [undefined]. *)
Definition opt_prop (o : value) (k : string) : value :=
  match o with
  | None => None
  | Some JNull => None
  | Some j => prop j k
  end.

(** [a || b]. *)
Definition or_else (a b : value) : value := if truthy a then a else b.

(** [a && b]. *)
Definition and_then (a b : value) : value := if truthy a then b else a.

(** [a ?? b]. *)
Definition nullish (a b : value) : value :=
  match a with
  | None => b
  | Some JNull => b
  | Some _ => a
  end.

(** [Array.isArray(v) ? v : _]: the elements when [v] is an array. *)
Definition as_array (v : value) : option (list json) :=
  match v with
  | Some (JArr xs) => Some xs
  | _ => None
  end.

(** ** Conversion to string *)

Fixpoint join (sep : string) (parts : list string) : string :=
  match parts with
  | [] => ""
  | [p] => p
  | p :: rest => p ++ sep ++ join sep rest
  end.

(** [String(v)] / [ToString]: what a value becomes when it is used as a
    property key or handed to a function that expects a string. *)
Fixpoint ToString (j : json) : string :=
  match j with
  | JNull => "null"
  | JBool b => String_of_boolean b
  | JNum n => String_of_number n
  | JStr s => s
  | JArr xs =>
      join "," (map (fun x => match x with
                              | JNull => ""
                              | _ => ToString x
                              end) xs)
  | JObj _ => "[object Object]"
  end.

(** ** Own properties in enumeration order

    [OrdinaryOwnPropertyKeys] lists the keys that are array indices first, in
    ascending numeric order, and then the other string keys in the order in
    which they were created. *)

Definition is_digit (c : ascii) : bool :=
  let n := nat_of_ascii c in (48 <=? n)%nat && (n <=? 57)%nat.

Fixpoint digits_value (acc : N) (s : string) : option N :=
  match s with
  | EmptyString => Some acc
  | String c s' =>
      if is_digit c
      then digits_value (acc * 10 + (N_of_ascii c - 48))%N s'
      else None
  end.

(** The array index that a key denotes: a canonical decimal numeral below
    [2^32 - 1]. *)
Definition array_index (k : string) : option N :=
  match k with
  | EmptyString => None
  | String c rest =>
      if Ascii.eqb c "0" && negb (rest =? "") then None
      else match digits_value 0 k with
           | Some n => if (n <=? 4294967294)%N then Some n else None
           | None => None
           end
  end.

Definition has_prop {A : Type} (k : string) (o : list (string * A)) : bool :=
  match lookup k o with
  | Some _ => true
  | None => false
  end.

(** Overwrite the value of an existing property, keeping its place. *)
Fixpoint replace_prop {A : Type} (k : string) (v : A) (o : list (string * A))
  : list (string * A) :=
  match o with
  | [] => []
  | (k', v') :: o' =>
      if k' =? k then (k', v) :: o' else (k', v') :: replace_prop k v o'
  end.

(** Create the index property [i], after the smaller indices. *)
Fixpoint insert_index {A : Type} (i : N) (k : string) (v : A)
  (o : list (string * A)) : list (string * A) :=
  match o with
  | [] => [(k, v)]
  | (k', v') :: o' =>
      match array_index k' with
      | Some j =>
          if (j <? i)%N then (k', v') :: insert_index i k v o'
          else (k, v) :: o
      | None => (k, v) :: o
      end
  end.

(** [o[k] = v]. *)
Definition obj_set {A : Type} (k : string) (v : A) (o : list (string * A))
  : list (string * A) :=
  if has_prop k o then replace_prop k v o
  else match array_index k with
       | Some i => insert_index i k v o
       | None => o ++ [(k, v)]
       end.

Definition obj_remove {A : Type} (k : string) (o : list (string * A))
  : list (string * A) :=
  filter (fun p => negb (fst p =? k)) o.

(** An object literal as [interface R { [k: string]: any }] types it. *)
Definition record := list (string * json).

(** [r.k] on a record. *)
Definition field (r : record) (k : string) : value := lookup k r.

(** [a === s] for a string [s]. *)
Definition strict_eq_string (a : value) (s : string) : bool :=
  match a with
  | Some (JStr a') => a' =? s
  | _ => false
  end.

(** The key under which [o[v]] reads and writes ([ToPropertyKey]). *)
Definition ToPropertyKey (v : value) : string :=
  match v with
  | Some j => ToString j
  | None => "undefined"
  end.

(** ** Arrays and sets *)

(** [Array.prototype.sort(cmp)]: the sort is stable, so for a comparator
    that orders the elements the result is the one of a stable insertion;
    [cmp a b <= 0] keeps [a] before [b]. *)
Fixpoint sort_insert {A : Type} (cmp : A -> A -> Z) (x : A) (l : list A)
  : list A :=
  match l with
  | [] => [x]
  | y :: l' =>
      if (cmp x y <=? 0)%Z then x :: y :: l' else y :: sort_insert cmp x l'
  end.

Fixpoint sort_by {A : Type} (cmp : A -> A -> Z) (l : list A) : list A :=
  match l with
  | [] => []
  | x :: l' => sort_insert cmp x (sort_by cmp l')
  end.

(** A [Set<string>]: its members in insertion order. *)
Definition set_has (x : string) (s : list string) : bool :=
  existsb (String.eqb x) s.

Definition set_add (x : string) (s : list string) : list string :=
  if set_has x s then s else s ++ [x].

Definition set_delete (x : string) (s : list string) : list string :=
  filter (fun y => negb (y =? x)) s.

(** White space of the ASCII range: the space, the tab, the line feed,
    the vertical tab, the form feed and the carriage return. *)
Definition is_space (c : ascii) : bool :=
  let n := nat_of_ascii c in
  (n =? 32)%nat || ((9 <=? n)%nat && (n <=? 13)%nat).

(** The white space beyond the ASCII range ([WhiteSpace] and
    [LineTerminator] of the language), by its UTF-8 bytes: U+00A0 is
    [C2 A0]; U+1680 is [E1 9A 80]; U+2000 to U+200A, U+2028, U+2029 and
    U+202F are [E2 80] followed by [80..8A], [A8], [A9] and [AF]; U+205F
    is [E2 81 9F]; U+3000 is [E3 80 80]; U+FEFF is [EF BB BF]. *)
Definition is_space2 (a b : ascii) : bool :=
  (nat_of_ascii a =? 194)%nat && (nat_of_ascii b =? 160)%nat.

Definition is_space3 (a b c : ascii) : bool :=
  let x := nat_of_ascii a in
  let y := nat_of_ascii b in
  let z := nat_of_ascii c in
  ((x =? 225) && (y =? 154) && (z =? 128))%nat
  || ((x =? 226) && (y =? 128)
      && (((128 <=? z) && (z <=? 138))
          || (z =? 168) || (z =? 169) || (z =? 175)))%nat
  || ((x =? 226) && (y =? 129) && (z =? 159))%nat
  || ((x =? 227) && (y =? 128) && (z =? 128))%nat
  || ((x =? 239) && (y =? 187) && (z =? 191))%nat.

(** [String.prototype.trimStart]. *)
Fixpoint trimStart (s : string) : string :=
  match s with
  | EmptyString => EmptyString
  | String a s1 =>
      if is_space a then trimStart s1
      else
        match s1 with
        | EmptyString => s
        | String b s2 =>
            if is_space2 a b then trimStart s2
            else
              match s2 with
              | EmptyString => s
              | String c s3 => if is_space3 a b c then trimStart s3 else s
              end
        end
  end.

(** The bytes in reverse order. *)
Fixpoint reverse_onto (s acc : string) : string :=
  match s with
  | EmptyString => acc
  | String c s' => reverse_onto s' (String c acc)
  end.

Definition reverse (s : string) : string := reverse_onto s EmptyString.

(** [trimStart] on the reversed text, where the bytes of a character come
    last byte first. *)
Fixpoint trimStart_reversed (s : string) : string :=
  match s with
  | EmptyString => EmptyString
  | String a s1 =>
      if is_space a then trimStart_reversed s1
      else
        match s1 with
        | EmptyString => s
        | String b s2 =>
            if is_space2 b a then trimStart_reversed s2
            else
              match s2 with
              | EmptyString => s
              | String c s3 =>
                  if is_space3 c b a then trimStart_reversed s3 else s
              end
        end
  end.

(** [String.prototype.trimEnd]. *)
Definition trimEnd (s : string) : string :=
  reverse (trimStart_reversed (reverse s)).

(** [String.prototype.trim]. *)
Definition trim (s : string) : string := trimEnd (trimStart s).

End JS.
Import JS.

Declare Scope js_scope.
Delimit Scope js_scope with js.
Infix "|||" := or_else (at level 50, left associativity) : js_scope.
Infix "??" := nullish (at level 50, left associativity) : js_scope.

(* ================================================================== *)
(** * Free-text search ([src/utils/search.ts]) *)

Module Search.

Section Visit.

(** [String.prototype.toLowerCase]. *)
Variable toLowerCase : string -> string.

(** The inner [visit] closure; [needle] is the lowered query. *)
Fixpoint visit (needle : string) (val : json) : bool :=
  match val with
  | JNull => false
  | JStr s => includes (toLowerCase s) needle
  | JNum n => includes (toLowerCase (String_of_number n)) needle
  | JBool b => includes (toLowerCase (String_of_boolean b)) needle
  | JArr xs => existsb (visit needle) xs
  | JObj kv => existsb (fun p => visit needle (snd p)) kv
  end.

Definition search (obj : json) (q : string) : bool :=
  if q =? "" then true else visit (toLowerCase q) obj.

(** [q] occurs in [v] when case is ignored: the lowered [q] occurs in the
    lowered [v]. *)
Definition ci_substring (q v : string) : Prop :=
  exists pre post, toLowerCase v = (pre ++ toLowerCase q ++ post)%string.

End Visit.

(** [q] is a substring of [v] up to the case of the letters [A-Z]. *)
Definition ascii_ci_substring (q v : string) : Prop :=
  exists pre q' post,
    v = (pre ++ q' ++ post)%string
    /\ ascii_lowercase q' = ascii_lowercase q.

(** [r] holds the string [v] as a value, at any depth. *)
Inductive holds_string : json -> string -> Prop :=
| holds_here s : holds_string (JStr s) s
| holds_in_array xs x s :
    In x xs -> holds_string x s -> holds_string (JArr xs) s
| holds_in_object kv k x s :
    In (k, x) kv -> holds_string x s -> holds_string (JObj kv) s.

(** ** Texts and a case mapping for the examples *)

(** The Greek letters of the examples, by their UTF-8 bytes: the capitals
    alpha (U+0391) and sigma (U+03A3), the small alpha (U+03B1), the small
    sigma (U+03C3) and the final small sigma (U+03C2). *)
Definition capital_alpha : string := String "206" (String "145" "").
Definition capital_sigma : string := String "206" (String "163" "").
Definition small_alpha : string := String "206" (String "177" "").
Definition small_sigma : string := String "207" (String "131" "").
Definition final_sigma : string := String "207" (String "130" "").

(** [toLowerCase] on the texts of the examples.  A capital sigma at the
    end of a word becomes the final sigma: the word alpha-sigma in
    capitals is lowered to alpha and final sigma, the capital sigma alone
    to the small sigma.  Text of the ASCII range has its letters
    folded. *)
Definition example_toLowerCase (s : string) : string :=
  if s =? capital_alpha ++ capital_sigma then small_alpha ++ final_sigma
  else if s =? capital_sigma then small_sigma
  else ascii_lowercase s.

(** A member record for the examples. *)
Definition sample_member : json :=
  JObj [ ("id", JNum 7);
         ("user",
           JObj [ ("emails", JArr [JNull; JStr "Alice@Example.COM"]) ]) ].

(** The text of a scalar leaf of [r], at any depth: what [String(val)]
    gives for a string, a number or a boolean. *)
Inductive leaf_text : json -> string -> Prop :=
| leaf_string s : leaf_text (JStr s) s
| leaf_number n : leaf_text (JNum n) (String_of_number n)
| leaf_boolean b : leaf_text (JBool b) (String_of_boolean b)
| leaf_in_array xs x t :
    In x xs -> leaf_text x t -> leaf_text (JArr xs) t
| leaf_in_object kv k x t :
    In (k, x) kv -> leaf_text x t -> leaf_text (JObj kv) t.

End Search.

(* ================================================================== *)
(** * Audit-log inspection view ([AuditLogsPage], "All Fields") *)

Module AuditLogs.

(** One row of the form: the dotted path and the value handed to [pushRow];
    the text shown for it is a function of that value. *)
Abbreviation row := (string * json)%type (only parsing).

(** The keys that have a dedicated section of their own. *)
Definition hidden (k : string) : bool :=
  (k =? "params") || (k =? "query_context").

(** [pushRow]: the rows it adds to [rows]. *)
Definition pushRow (path : string) (v : json) : list row :=
  if hidden path then [] else [(path, v)].

(** [prefix.slice(0,-1)]. *)
Fixpoint slice_0_m1 (s : string) : string :=
  match s with
  | EmptyString => EmptyString
  | String c EmptyString => EmptyString
  | String c s' => String c (slice_0_m1 s')
  end.

(** [walk(obj, prefix)]: the rows pushed, in order. *)
Fixpoint walk (obj : json) (prefix : string) : list row :=
  match obj with
  | JObj kv =>
      (fix entries (l : list (string * json)) : list row :=
         match l with
         | [] => []
         | (k, v) :: l' =>
             let path := (prefix ++ k)%string in
             match v with
             | JObj _ =>
                 if negb ((k =? "params") || (k =? "query_context"))
                 then pushRow path v ++ walk v (path ++ ".")%string
                      ++ entries l'
                 else pushRow path v ++ entries l'
             | _ => pushRow path v ++ entries l'
             end
         end) kv
  | _ => pushRow (slice_0_m1 prefix) obj
  end.

(** The rows of one expanded log record. *)
Definition rows_of (log : record) : list row := walk (JObj log) "".

Definition paths_of (log : record) : list string := map fst (rows_of log).

(** The record of the specification's example. *)
Definition example_log : record :=
  [ ("a", JObj [("b", JNum 1)]);
    ("params", JObj [("x", JNum 1)]);
    ("details", JObj [("params", JObj [("y", JNum 2)])]) ].

(** The objects that [walk] descends into, with the prefix it uses there. *)
Inductive descends (log : record) : string -> record -> Prop :=
| descends_top : descends log "" log
| descends_into prefix kv k kv' :
    descends log prefix kv ->
    In (k, JObj kv') kv ->
    hidden k = false ->
    descends log ((prefix ++ k) ++ ".")%string kv'.

(** The rows that one property contributes. *)
Definition entry_rows (prefix k : string) (v : json) : list row :=
  match v with
  | JObj _ =>
      if hidden k then pushRow (prefix ++ k)%string v
      else pushRow (prefix ++ k)%string v
           ++ walk v ((prefix ++ k) ++ ".")%string
  | _ => pushRow (prefix ++ k)%string v
  end.

(** The path has a dot in it. *)
Fixpoint has_dot (s : string) : bool :=
  match s with
  | EmptyString => false
  | String c s' => Ascii.eqb c "." || has_dot s'
  end.

(** ** The dedicated sections and the [Show] button *)

(** [log.params !== undefined ? log.params : log.details?.params]. *)
Definition paramVal (log : record) : value :=
  match field log "params" with
  | Some v => Some v
  | None => opt_prop (field log "details") "params"
  end.

(** The same for [query_context]. *)
Definition qcVal (log : record) : value :=
  match field log "query_context" with
  | Some v => Some v
  | None => opt_prop (field log "details") "query_context"
  end.

(** [hiddenKeys.some(k => log[k] !== undefined && log[k] !== null)]. *)
Definition hasHidden (log : record) : bool :=
  existsb (fun k => match field log k with
                    | None => false
                    | Some JNull => false
                    | Some _ => true
                    end) ["params"; "query_context"].

(** The row offers the [Show] button: [hasHidden || log.details]. *)
Definition offers_show (log : record) : bool :=
  hasHidden log || truthy (field log "details").

End AuditLogs.

(* ================================================================== *)
(** * Analytics view ([AnalyticsPage]) *)

Module Analytics.

Inductive range := week | month | year.

Definition rangeMs (r : range) : Z :=
  match r with
  | week => 7 * 24 * 3600 * 1000
  | month => 30 * 24 * 3600 * 1000
  | year => 365 * 24 * 3600 * 1000
  end.

(** ** The workspace buttons ([workspaces]) *)

(** The title under which a record is listed; [None] when the value is
    not a string and [.trim] raises. *)
Definition title_of (l : record) : option string :=
  match (field l "workspace_title" ||| field l "workspace_name"
         ||| Some (JStr "unknown"))%js with
  | Some (JStr s) => Some (if trim s =? "" then "unknown" else trim s)
  | _ => None
  end.

Fixpoint found_of (logs : list record) (found : list string)
  : option (list string) :=
  match logs with
  | [] => Some found
  | l :: logs' =>
      match title_of l with
      | Some title => found_of logs' (set_add title found)
      | None => None
      end
  end.

Definition desiredOrder : list string :=
  ["Production"; "Pre-Production"; "Sandbox"; "unknown"].

Section Workspaces.

(** [a.localeCompare(b)], which depends on the host's locale. *)
Variable localeCompare : string -> string -> Z.
(** [String.prototype.toLowerCase]. *)
Variable toLowerCase : string -> string.

(** One round of [desiredOrder.forEach]: the first member of [found] that
    matches [name] when case is ignored moves to [ordered]. *)
Definition place (st : list string * list string) (name : string)
  : list string * list string :=
  let (ordered, found) := st in
  match find (fun f => toLowerCase f =? toLowerCase name) found with
  | Some f => (ordered ++ [f], set_delete f found)
  | None => (ordered, found)
  end.

Definition workspaces (logs : list record) : option (list string) :=
  match found_of logs [] with
  | None => None
  | Some found =>
      let (ordered, found') := fold_left place desiredOrder (["ALL"], found) in
      let remaining :=
        sort_by localeCompare
                (filter (fun f => negb (set_has f ordered)) found') in
      Some (ordered ++ remaining)
  end.

End Workspaces.

(** ** The visible records ([filtered]) *)

Section Filtered.

(** [Date.now()]. *)
Variable now : Z.
(** [Date.parse] on the text of its argument; [None] is [NaN]. *)
Variable Date_parse : string -> option Z.
(** [String.prototype.toLowerCase]. *)
Variable toLowerCase : string -> string.

(** The workspace under which the filter files a record. *)
Definition workspace_of (l : record) : value :=
  (field l "workspace_title" ||| field l "workspace_name"
   ||| Some (JStr "Unknown"))%js.

(** [l.timestamp ? Date.parse(l.timestamp) : NaN]. *)
Definition ts_of (l : record) : option Z :=
  match field l "timestamp" with
  | Some t => if truthy_json t then Date_parse (ToString t) else None
  | None => None
  end.

Definition cutoff (rng : range) : Z := now - rangeMs rng.

(** [workspace !== 'ALL' && (...) !== workspace]. *)
Definition workspace_mismatch (workspace : string) (l : record) : bool :=
  negb (workspace =? "ALL")
  && negb (strict_eq_string (workspace_of l) workspace).

(** [query && !search(l, query)]. *)
Definition query_mismatch (query : string) (l : record) : bool :=
  negb (query =? "") && negb (Search.search toLowerCase (JObj l) query).

(** The callback of [logs.filter]. *)
Definition keep (workspace query : string) (rng : range) (l : record)
  : bool :=
  if workspace_mismatch workspace l then false
  else if query_mismatch query l then false
  else match ts_of l with
       | Some ts => if (ts <? cutoff rng)%Z then false else true
       | None => true
       end.

Definition filtered (logs : list record) (workspace query : string)
  (rng : range) : list record :=
  filter (keep workspace query rng) logs.

End Filtered.

(** ** Records and a clock for the examples *)

(** A record that names no workspace. *)
Definition unfiled_log : record :=
  [ ("action", JStr "chart:view"); ("entity_name", JStr "A") ].

Definition eight_days : Z := 8 * 24 * 3600 * 1000.

(** A parser for the witness: the text is the epoch value in decimal. *)
Definition parse_epoch (s : string) : option Z :=
  match NilZero.int_of_string s with
  | Some d => Some (Z.of_int d)
  | None => None
  end.

Definition old_log : record :=
  [ ("timestamp", JStr "308800000"); ("workspace_title", JStr "Sandbox") ].

Definition undated_log : record :=
  [ ("timestamp", JStr "yesterday"); ("workspace_title", JStr "Sandbox") ].


(** ** The four series ([metrics]) *)

(** What a property of a counting object holds.  The object is declared
    [Record<string, number>] but is a plain [{}], which inherits from
    [Object.prototype]: under a label that names one of the functions
    there, [m[k]] reads that function, and [(m[k]||0)+1] is a string, the
    source text of the function followed by [1]; every further count of
    the label appends one more [1]. *)
Inductive count :=
| Num (n : Z)
| FunctionText (f : string) (ones : nat).

Record BarDatum := { label : string; value : count }.

(** The own properties of a counting object. *)
Definition counts := list (string * count).

(** The functions of [Object.prototype]. *)
Definition Object_prototype_functions : list string :=
  [ "constructor"; "__defineGetter__"; "__defineSetter__";
    "hasOwnProperty"; "__lookupGetter__"; "__lookupSetter__";
    "isPrototypeOf"; "propertyIsEnumerable"; "toString"; "valueOf";
    "toLocaleString" ].

(** The label names a property of [Object.prototype]: one of its
    functions, or the accessor [__proto__]. *)
Definition inherited (k : string) : bool :=
  (k =? "__proto__") || set_has k Object_prototype_functions.

(** [m[k] = (m[k]||0)+1].  An own property is a positive number or a text
    that is not empty, hence truthy.  Under [__proto__] the read gives
    [Object.prototype] and the write goes to the setter, which ignores a
    string: nothing is stored. *)
Definition bump (k : string) (m : counts) : counts :=
  match lookup k m with
  | Some (Num n) => obj_set k (Num ((if (n =? 0)%Z then 0 else n) + 1)) m
  | Some (FunctionText f ones) => obj_set k (FunctionText f (S ones)) m
  | None =>
      if k =? "__proto__" then m
      else if inherited k then obj_set k (FunctionText k 1) m
      else obj_set k (Num 1) m
  end.

Record maps := {
  chartMap : counts;
  dashMap : counts;
  userMap : counts;
  actionMap : counts
}.

Definition action_of (l : record) : JS.value :=
  (field l "action" ||| field l "event" ||| field l "type")%js.

Definition user_of (l : record) : JS.value :=
  match field l "user" with
  | Some (JStr s) => Some (JStr s)
  | u => (opt_prop u "email" ||| field l "user_email"
          ||| Some (JStr "Unknown"))%js
  end.

(** The body of [filtered.forEach]. *)
Definition tally (ms : maps) (l : record) : maps :=
  let action := action_of l in
  let actionMap' :=
    if truthy action then bump (ToPropertyKey action) (actionMap ms)
    else actionMap ms in
  let userMap' := bump (ToPropertyKey (user_of l)) (userMap ms) in
  let entity_name := field l "entity_name" in
  let chartMap' :=
    if strict_eq_string action "chart:view" && truthy entity_name
    then bump (ToPropertyKey entity_name) (chartMap ms)
    else chartMap ms in
  let dashMap' :=
    if strict_eq_string action "dashboard:view" && truthy entity_name
    then bump (ToPropertyKey entity_name) (dashMap ms)
    else dashMap ms in
  {| chartMap := chartMap'; dashMap := dashMap';
     userMap := userMap'; actionMap := actionMap' |}.

(** [b.value - a.value]; with a text the difference is [NaN], which the
    sort takes as [0]. *)
Definition by_value_desc (a b : BarDatum) : Z :=
  match value b, value a with
  | Num y, Num x => y - x
  | _, _ => 0
  end.

Definition datum (e : string * count) : BarDatum :=
  {| label := fst e; value := snd e |}.

(** [Object.entries(m).map(...).sort(...)].  When a count is a text the
    comparator does not order the entries, and the language then leaves
    the order to the implementation. *)
Definition toSorted (m : counts) : list BarDatum :=
  sort_by by_value_desc (map datum m).


Record series := {
  chartViews : list BarDatum;
  dashboardViews : list BarDatum;
  activeUsers : list BarDatum;
  actionCounts : list BarDatum
}.

Definition no_maps : maps :=
  {| chartMap := []; dashMap := []; userMap := []; actionMap := [] |}.

Definition metrics (filtered : list record) : series :=
  match filtered with
  | [] => {| chartViews := []; dashboardViews := [];
             activeUsers := []; actionCounts := [] |}
  | _ =>
      let ms := fold_left tally filtered no_maps in
      {| chartViews := toSorted (chartMap ms);
         dashboardViews := toSorted (dashMap ms);
         activeUsers := toSorted (userMap ms);
         actionCounts := toSorted (actionMap ms) |}
  end.

(** ** The series, as the specification describes them *)

(** The labels that each series counts, in the order of the records. *)
Definition chart_labels (logs : list record) : list string :=
  flat_map (fun l =>
              if strict_eq_string (action_of l) "chart:view"
                 && truthy (field l "entity_name")
              then [ToPropertyKey (field l "entity_name")] else []) logs.

Definition dash_labels (logs : list record) : list string :=
  flat_map (fun l =>
              if strict_eq_string (action_of l) "dashboard:view"
                 && truthy (field l "entity_name")
              then [ToPropertyKey (field l "entity_name")] else []) logs.

Definition user_labels (logs : list record) : list string :=
  map (fun l => ToPropertyKey (user_of l)) logs.

Definition action_labels (logs : list record) : list string :=
  flat_map (fun l =>
              if truthy (action_of l) then [ToPropertyKey (action_of l)]
              else []) logs.

(** Counting a sequence of labels, one [bump] each. *)
Definition count_all (ks : list string) : counts :=
  fold_left (fun m k => bump k m) ks [].

(** The distinct labels in the order of their first occurrence ([nodup]
    keeps the last occurrence, hence the reversals). *)
Definition first_occurrences (ks : list string) : list string :=
  rev (nodup string_dec (rev ks)).

Definition is_index (k : string) : bool :=
  match array_index k with
  | Some _ => true
  | None => false
  end.

(** The order of enumeration between two keys: the array indices first,
    in ascending order, then the other keys. *)
Definition key_order (a b : string) : Prop :=
  match array_index a, array_index b with
  | Some i, Some j => (i <= j)%N
  | Some _, None => True
  | None, Some _ => False
  | None, None => True
  end.

(** No label names a property of [Object.prototype]. *)
Definition plain (ks : list string) : Prop :=
  Forall (fun k => inherited k = false) ks.

(** [a] and [b] are numbers, and [a] is not larger than [b]. *)
Definition count_le (a b : count) : Prop :=
  match a, b with
  | Num x, Num y => (x <= y)%Z
  | _, _ => False
  end.

(** The count is the number [n]. *)
Definition is_num (n : Z) (c : count) : bool :=
  match c with
  | Num m => (m =? n)%Z
  | FunctionText _ _ => false
  end.

(** The number of occurrences of a label, when it occurs. *)
Definition count_of (ks : list string) (k : string) : option Z :=
  match count_occ string_dec ks k with
  | O => None
  | n => Some (Z.of_nat n)
  end.

(** The records of the specification's example. *)
Definition chart_example : list record :=
  [ [("action", JStr "chart:view"); ("entity_name", JStr "A")];
    [("action", JStr "chart:view"); ("entity_name", JStr "A")];
    [("action", JStr "chart:view"); ("entity_name", JStr "B")] ].

(** Two charts whose names are numerals, each viewed once. *)
Definition numeral_example : list record :=
  [ [("action", JStr "chart:view"); ("entity_name", JStr "2")];
    [("action", JStr "chart:view"); ("entity_name", JStr "1")] ].

(** ** The invariant of [desiredOrder.forEach]

    [ordered] starts with [ALL] and has no repetition; what it holds
    besides [ALL] was taken out of the titles [found0], and every title is
    either in [ordered] or still in the set. *)
Definition placing (found0 : list string) (st : list string * list string)
  : Prop :=
  let (ordered, fnd) := st in
  (exists rest, ordered = "ALL" :: rest)
  /\ NoDup ordered /\ NoDup fnd
  /\ (forall x, In x ordered -> x = "ALL" \/ (In x found0 /\ ~ In x fnd))
  /\ (forall x, In x found0 -> In x ordered \/ In x fnd)
  /\ (forall x, In x fnd -> In x found0).

(** ** The bar chart ([HBarChart]) *)

(** What [Math.max] returns. *)
Inductive maximum := NegInfinity | NaN | Max (n : Z).

(** [Math.max(...vs)]: [-Infinity] without arguments, [NaN] as soon as
    one argument is not a number. *)
Fixpoint Math_max (vs : list count) : maximum :=
  match vs with
  | [] => NegInfinity
  | v :: vs' =>
      match v, Math_max vs' with
      | FunctionText _ _, _ => NaN
      | Num _, NaN => NaN
      | Num n, NegInfinity => Max n
      | Num n, Max m => Max (Z.max n m)
      end
  end.

(** One row of the chart: the bar is drawn [bar_value / bar_max] of the
    full width. *)
Record bar := { bar_label : string; bar_value : count; bar_max : maximum }.

(** What [HBarChart] draws; [None] is the [null] of an empty series. *)
Definition HBarChart (data : list BarDatum) (maxBars : nat)
  : option (list bar) :=
  match data with
  | [] => None
  | _ =>
      let top := firstn maxBars data in
      let maxVal := Math_max (map value top) in
      Some (map (fun d => {| bar_label := label d;
                             bar_value := value d;
                             bar_max := maxVal |}) top)
  end.

(** The sum of the counts of a series whose counts are all numbers. *)
Fixpoint total (data : list BarDatum) : option Z :=
  match data with
  | [] => Some 0%Z
  | d :: data' =>
      match value d, total data' with
      | Num n, Some t => Some (n + t)%Z
      | _, _ => None
      end
  end.

End Analytics.

(* ================================================================== *)
(** * Users view ([UsersPage]) *)

Module Users.

(** The object literal built for a derived user; a property may hold
    [undefined]. *)
Record UserRecord := {
  id : json;
  first_name : value;
  last_name : value;
  email : value;
  username : value;
  roles : value;
  user_type : value;
  team_role : value
}.

(** [m.user_id || m.id || (m.user && m.user.id)]. *)
Definition id_of (m : record) : value :=
  (field m "user_id" ||| field m "id"
   ||| match field m "user" with
       | Some u => if truthy_json u then prop u "id" else Some u
       | None => None
       end)%js.

(** Key equality of a [Map] (SameValueZero).  The keys come from distinct
    parsed records, so two keys that are objects or arrays are never the
    same reference. *)
Definition same_key (a b : json) : bool :=
  match a, b with
  | JNull, JNull => true
  | JBool x, JBool y => Bool.eqb x y
  | JNum x, JNum y => (x =? y)%Z
  | JStr x, JStr y => x =? y
  | _, _ => false
  end.

Definition map_has {V : Type} (k : json) (m : list (json * V)) : bool :=
  existsb (fun e => same_key (fst e) k) m.

Definition user_of (i : json) (m : record) : UserRecord :=
  {| id := i;
     first_name := (field m "first_name"
                    ||| opt_prop (field m "user") "first_name")%js;
     last_name := (field m "last_name"
                   ||| opt_prop (field m "user") "last_name")%js;
     email := (field m "email" ||| opt_prop (field m "user") "email")%js;
     username := (field m "username"
                  ||| opt_prop (field m "user") "username")%js;
     roles := (field m "roles" ||| Some (JArr []))%js;
     user_type := field m "user_type";
     team_role := (field m "team_role_name"
                   ||| opt_prop (field m "team_role") "name")%js |}.

(** The body of [for (const m of membersRaw)]. *)
Definition add_member (map : list (json * UserRecord)) (m : record)
  : list (json * UserRecord) :=
  match id_of m with
  | Some i =>
      if negb (truthy_json i) then map
      else if negb (map_has i map) then map ++ [(i, user_of i m)]
      else map
  | None => map
  end.

(** The users shown when [users.json] is empty:
    [Array.from(map.values())]. *)
Definition derive (membersRaw : list record) : list UserRecord :=
  map snd (fold_left add_member membersRaw []).

(** What [then] hands to [setUsers]. *)
Definition users_shown (usersRaw : list json) (membersRaw : list record)
  : list json + list UserRecord :=
  match usersRaw with
  | _ :: _ => inl usersRaw
  | [] => inr (derive membersRaw)
  end.

(** ** Members for the examples *)

Definition alice_member : record :=
  [ ("user_id", JNum 7); ("email", JStr "alice@example.com");
    ("team_role_name", JStr "Admin") ].

(** A member whose identifiers are all falsy. *)
Definition anonymous_member : record :=
  [ ("user_id", JNum 0); ("id", JStr ""); ("email", JStr "ghost@example.com") ].

(** The same user in another team, with other field values. *)
Definition alice_again : record :=
  [ ("id", JNum 7); ("email", JStr "a.liddell@example.com");
    ("team_role_name", JStr "Viewer") ].

End Users.

(* ================================================================== *)
(** * Roles view ([RolesPage]) *)

Module Roles.

(** The object literal [{ id: roleName, name: roleName }]. *)
Record RoleRecord := { id : json; name : json }.

(** [m.team_role_name || m.team_role?.name]. *)
Definition roleName_of (m : record) : value :=
  (field m "team_role_name" ||| opt_prop (field m "team_role") "name")%js.

(** The body of [for (const m of membersRaw)]. *)
Definition add_role (set : list (json * RoleRecord)) (m : record)
  : list (json * RoleRecord) :=
  match roleName_of m with
  | Some roleName =>
      if truthy_json roleName && negb (Users.map_has roleName set)
      then set ++ [(roleName, {| id := roleName; name := roleName |})]
      else set
  | None => set
  end.

(** The roles shown when [roles.json] is empty. *)
Definition derive (membersRaw : list record) : list RoleRecord :=
  map snd (fold_left add_role membersRaw []).

(** The non-empty role names of the members that are strings, in the
    order of the members. *)
Definition role_names (membersRaw : list record) : list string :=
  flat_map (fun m => match roleName_of m with
                     | Some (JStr s) => if s =? "" then [] else [s]
                     | _ => []
                     end) membersRaw.

(** The role of the member is a string, or there is none. *)
Definition plain_role (m : record) : Prop :=
  match roleName_of m with
  | Some (JStr _) => True
  | Some j => truthy_json j = false
  | None => True
  end.

End Roles.

(* ================================================================== *)
(** * Teams view ([TeamsPage]) *)

Module Teams.

(** [map.get(k)] on a [Map]. *)
Definition map_get {V : Type} (k : json) (m : list (json * V)) : option V :=
  match find (fun e => Users.same_key (fst e) k) m with
  | Some e => Some (snd e)
  | None => None
  end.

(** [map.set(k, v)]: an existing key keeps its place. *)
Fixpoint map_set {V : Type} (k : json) (v : V) (m : list (json * V))
  : list (json * V) :=
  match m with
  | [] => [(k, v)]
  | e :: m' =>
      if Users.same_key (fst e) k then (fst e, v) :: m'
      else e :: map_set k v m'
  end.

(** The body of [for (const m of members)] in [memberCount]. *)
Definition count_member (map : list (json * Z)) (m : record)
  : list (json * Z) :=
  match field m "_team_id" with
  | None => map
  | Some key =>
      let old := match map_get key map with
                 | Some n => if (n =? 0)%Z then 0%Z else n
                 | None => 0%Z
                 end in
      map_set key (old + 1)%Z map
  end.

Definition memberCount (members : list record) : list (json * Z) :=
  fold_left count_member members [].

(** [t.id || t.uuid]. *)
Definition team_key (t : record) : value :=
  (field t "id" ||| field t "uuid")%js.

(** The [Members] cell of a team: [memberCount.get(id) || 0]. *)
Definition members_cell (members : list record) (t : record) : Z :=
  match team_key t with
  | Some id =>
      match map_get id (memberCount members) with
      | Some n => if (n =? 0)%Z then 0%Z else n
      | None => 0%Z
      end
  | None => 0%Z
  end.

(** The members filed under the key [id]. *)
Definition filed_under (id : json) (members : list record) : list record :=
  filter (fun m => match field m "_team_id" with
                   | Some key => Users.same_key key id
                   | None => false
                   end) members.

(** The team has an [id] that is a non-zero number or a non-empty
    string. *)
Definition has_plain_id (t : record) : bool :=
  match field t "id" with
  | Some (JNum n) => negb (n =? 0)%Z
  | Some (JStr s) => negb (s =? "")
  | _ => false
  end.

End Teams.

(* ================================================================== *)
(** * Snapshot fetcher ([scripts/fetchPresetData.mjs]) *)

Module Fetcher.

(** What the script reads of a [Response]: the status, the headers (names
    in lower case, as [Headers.get] compares them) and the parsed body;
    [body] is [None] when [res.json()] rejects. *)
Record response := {
  status : Z;
  headers : list (string * string);
  body : option json
}.

(** [res.ok]. *)
Definition ok (res : response) : bool :=
  (200 <=? status res)%Z && (status res <=? 299)%Z.

(** The outcome of a block that may [throw]. *)
Inductive result (A : Type) : Type :=
| Ok (a : A)
| Throw (message : string).
Arguments Ok {A} a.
Arguments Throw {A} message.

(** ** URL text *)

Definition dquote : string := String (ascii_of_nat 34) EmptyString.

Definition hex_digit (n : nat) : ascii :=
  if (n <? 10)%nat then ascii_of_nat (48 + n) else ascii_of_nat (55 + n).

Definition unreserved (c : ascii) : bool :=
  let n := nat_of_ascii c in
  ((48 <=? n)%nat && (n <=? 57)%nat)
  || ((65 <=? n)%nat && (n <=? 90)%nat)
  || ((97 <=? n)%nat && (n <=? 122)%nat)
  || existsb (Ascii.eqb c)
       (list_ascii_of_string "-_.!~*'()").

(** [encodeURIComponent], byte by byte. *)
Fixpoint encodeURIComponent (s : string) : string :=
  match s with
  | EmptyString => EmptyString
  | String c s' =>
      if unreserved c then String c (encodeURIComponent s')
      else let n := nat_of_ascii c in
           String "%" (String (hex_digit (n / 16))
                          (String (hex_digit (n mod 16))
                                  (encodeURIComponent s')))
  end.

(** [s.replace(pat, rep)] for a string pattern: the first occurrence only.
    The replacement texts of the script hold no [$]. *)
Fixpoint replace_first (pat rep s : string) : string :=
  if startsWith s pat
  then (rep ++ substring (String.length pat) (String.length s) s)%string
  else match s with
       | EmptyString => EmptyString
       | String c s' => String c (replace_first pat rep s')
       end.

(** [JSON.stringify({ page, page_size: pageSize })]. *)
Definition page_query (page pageSize : Z) : string :=
  ("{" ++ dquote ++ "page" ++ dquote ++ ":" ++ String_of_number page
   ++ "," ++ dquote ++ "page_size" ++ dquote ++ ":"
   ++ String_of_number pageSize ++ "}")%string.

Definition paged_url (endpoint : string) (page pageSize : Z) : string :=
  let sep := if includes endpoint "?" then "&" else "?" in
  (endpoint ++ sep ++ "q=" ++ encodeURIComponent (page_query page pageSize))
    %string.

(** ** Endpoint probing ([tryEndpoints])

    [api] is the script's request function as its callers see it: it
    answers with a response, or with nothing when authentication or the
    transport failed, and it may change the world (the session, the
    server).  Every call is recorded. *)

Section Probing.

Context {World : Type}.
Variable api : string -> World -> option response * World.

Record run := { world : World; requests : list string }.

Definition call (relative : string) (s : run) : option response * run :=
  let (res, w) := api relative (world s) in
  (res, {| world := w; requests := requests s ++ [relative] |}).

(** The page of a paginated body: [result], else [data], else the body
    itself, else nothing. *)
Definition page_items (payload : json) : list json :=
  match as_array (opt_prop (Some payload) "result") with
  | Some xs => xs
  | None =>
      match as_array (opt_prop (Some payload) "data") with
      | Some xs => xs
      | None =>
          match payload with
          | JArr xs => xs
          | _ => []
          end
      end
  end.

(** The [while (true)] loop of the paginated branch, entered with the
    page counter [page] and the records gathered so far; [None] when the
    fuel runs out first. *)
Fixpoint paginate (fuel : nat) (endpoint : string) (pageSize : Z)
  (page : Z) (out : list json) (s : run)
  : option (result (list json) * run) :=
  match fuel with
  | O => None
  | S fuel' =>
      let page := (page + 1)%Z in
      let (res, s) := call (paged_url endpoint page pageSize) s in
      match res with
      | None => Some (Throw "No response", s)
      | Some res =>
          if (status res =? 404)%Z then Some (Ok out, s)
          else if negb (ok res) then Some (Throw "status", s)
          else
            match body res with
            | None => Some (Throw "json", s)
            | Some payload =>
                let items := page_items payload in
                match items with
                | [] =>
                    if (page =? 1)%Z then Some (Throw "Empty first page", s)
                    else Some (Ok out, s)
                | _ =>
                    let out := out ++ items in
                    if negb (truthy (opt_prop (Some payload) "result"))
                       || (Z.of_nat (List.length items) <? pageSize)%Z
                    then Some (Ok out, s)
                    else if (page >? 50)%Z then Some (Ok out, s)
                    else paginate fuel' endpoint pageSize page out s
                end
            end
      end
  end.

(** The body of a plain, unpaginated body: [data], else [result], else
    the body itself. *)
Definition plain_items (payload : json) : list json :=
  match as_array (opt_prop (Some payload) "data") with
  | Some xs => xs
  | None =>
      match as_array (opt_prop (Some payload) "result") with
      | Some xs => xs
      | None =>
          match payload with
          | JArr xs => xs
          | _ => []
          end
      end
  end.

(** One candidate of the unpaginated branch; [Ok None] is [continue]. *)
Definition fetch_plain (endpoint : string) (s : run)
  : result (option (list json)) * run :=
  let (res, s) := call endpoint s in
  match res with
  | None => (Throw "No response", s)
  | Some res =>
      if (status res =? 404)%Z then (Ok None, s)
      else if negb (ok res) then (Throw "status", s)
      else match body res with
           | None => (Throw "json", s)
           | Some payload =>
               match plain_items payload with
               | [] => (Throw "No items", s)
               | items => (Ok (Some items), s)
               end
           end
  end.

(** [tryEndpoints(label, candidates, { paginated, pageSize })]. *)
Fixpoint tryEndpoints (fuel : nat) (candidates : list string)
  (paginated : bool) (pageSize : Z) (s : run)
  : option (list json * run) :=
  match candidates with
  | [] => Some ([], s)
  | endpoint :: rest =>
      if paginated then
        match paginate fuel endpoint pageSize 0 [] s with
        | None => None
        | Some (Ok ((_ :: _) as out), s') => Some (out, s')
        | Some (_, s') => tryEndpoints fuel rest paginated pageSize s'
        end
      else
        match fetch_plain endpoint s with
        | (Ok (Some items), s') => Some (items, s')
        | (_, s') => tryEndpoints fuel rest paginated pageSize s'
        end
  end.

End Probing.

Arguments run World : clear implicits.

(** ** Probing, as a caller sees it *)

(** The answer is no usable response: none at all, or a status outside
    200..299 (a 404 among them). *)
Definition unusable (a : option response) : bool :=
  match a with
  | None => true
  | Some res => negb (ok res)
  end.

(** The first address that probing asks of a candidate. *)
Definition first_url (paginated : bool) (pageSize : Z) (endpoint : string)
  : string :=
  if paginated then paged_url endpoint 1 pageSize else endpoint.

(** The records that probing finds in a body. *)
Definition items_of (paginated : bool) (body : json) : list json :=
  if paginated then page_items body else plain_items body.

(** The page ends the pagination: it is not under [result], or it is
    short. *)
Definition last_page (pageSize : Z) (body : json) : bool :=
  negb (truthy (opt_prop (Some body) "result"))
  || (Z.of_nat (List.length (page_items body)) <? pageSize)%Z.

(** ** Reading an encoded component back *)

Definition hex_value (c : ascii) : option nat :=
  let n := nat_of_ascii c in
  if (48 <=? n)%nat && (n <=? 57)%nat then Some (n - 48)%nat
  else if (65 <=? n)%nat && (n <=? 70)%nat then Some (n - 55)%nat
  else None.

(** The reading of a percent-encoded component, byte by byte.  The
    script never decodes; this inverse serves to show that
    [encodeURIComponent] loses nothing. *)
Fixpoint decode_component (s : string) : string :=
  match s with
  | EmptyString => EmptyString
  | String c s' =>
      if Ascii.eqb c "%" then
        match s' with
        | String h (String l rest) =>
            match hex_value h, hex_value l with
            | Some a, Some b =>
                String (ascii_of_nat (16 * a + b)) (decode_component rest)
            | _, _ => String c (decode_component s')
            end
        | _ => String c (decode_component s')
        end
      else String c (decode_component s')
  end.

(** The characters that an encoded component can hold. *)
Definition component_char (c : ascii) : bool :=
  unreserved c || Ascii.eqb c "%".

(** ** Servers for the examples *)

(** A page delivered under [result], under [data], and as a bare array. *)
Definition result_page (items : list json) : response :=
  {| status := 200; headers := [];
     body := Some (JObj [("result", JArr items)]) |}.

Definition data_page (items : list json) : response :=
  {| status := 200; headers := [];
     body := Some (JObj [("data", JArr items)]) |}.

(** A server that answers every request with a full page of 100 records
    under [result]. *)
Definition endless (relative : string) (w : unit) : option response * unit :=
  (Some (result_page (repeat JNull 100)), w).

(** A server that plays a script: one prepared answer per request, then
    silence. *)
Definition scripted (relative : string) (w : list response)
  : option response * list response :=
  match w with
  | [] => (None, [])
  | res :: w' => (Some res, w')
  end.

(** The response is a page of [items] under [result]. *)
Definition is_result_page (res : response) (items : list json) : Prop :=
  ok res = true
  /\ exists fields, body res = Some (JObj fields)
                    /\ lookup "result" fields = Some (JArr items).

(** ** Per-team fan-out ([main], the loop over [teams]) *)

Definition numericId (t : json) : value :=
  (opt_prop (Some t) "id" ||| opt_prop (Some t) "team_id")%js.

Definition nameId (t : json) : value :=
  (opt_prop (Some t) "name" ||| opt_prop (Some t) "slug"
   ||| opt_prop (Some t) "title")%js.

Definition uuidId (t : json) : value := opt_prop (Some t) "uuid".

(** [[nameId, numericId, uuidId].filter(...).map(String)]. *)
Definition identifiers (t : json) : list string :=
  flat_map (fun v => match v with
                     | None => []
                     | Some JNull => []
                     | Some j => [ToString j]
                     end)
           [nameId t; numericId t; uuidId t].

(** [[...new Set(identifiers)]]. *)
Definition uniqueIds (t : json) : list string :=
  fold_left (fun s x => set_add x s) (identifiers t) [].

(** The identifier under which the records of a team are filed:
    [numericId ?? nameId]. *)
Definition team_id_of (t : json) : value :=
  (numericId t ?? nameId t)%js.

Definition teamMembersFallbacks (teamMembersPattern : string) : list string :=
  [ teamMembersPattern;
    "/v1/teams/{team_id}/memberships/";
    "/v1/teams/{team_id}/members";
    "/v1/teams/{team_id}/members/";
    "/v1/teams/{team_id}/users";
    "/v1/teams/{team_id}/users/" ].

Definition member_endpoint (pattern candidate : string) : string :=
  replace_first "{team_id}" (encodeURIComponent candidate) pattern.

Definition audit_endpoint (candidate : string) : string :=
  ("/v2/audit/teams/" ++ encodeURIComponent candidate ++ "/logs")%string.

(** The properties that [{...m}] copies. *)
Fixpoint index_props (i : N) (xs : list json) : record :=
  match xs with
  | [] => []
  | x :: xs' => (String_of_number (Z.of_N i), x) :: index_props (i + 1) xs'
  end.

Definition spread (m : json) : record :=
  match m with
  | JObj kv => kv
  | JArr xs => index_props 0 xs
  | JStr s =>
      index_props 0 (map (fun c => JStr (String c EmptyString))
                         (list_ascii_of_string s))
  | _ => []
  end.

(** One property of an object literal, as [JSON.stringify] writes the
    object to the output file: a property that holds [undefined] is left
    out. *)
Definition assign (o : record) (kv : string * value) : record :=
  match snd kv with
  | Some j => obj_set (fst kv) j o
  | None => obj_remove (fst kv) o
  end.

(** The record pushed for a member [m]; [None] when [m] is [null], on
    which [m.user_id] raises a [TypeError]. *)
Definition tag_member (t : json) (candidate : string) (m : json)
  : option record :=
  match m with
  | JNull => None
  | _ =>
      let u := match (opt_prop (Some m) "user" ||| Some (JObj []))%js with
               | Some u => u
               | None => JObj []
               end in
      Some (fold_left assign
              [ ("_team_id", team_id_of t);
                ("_team_identifier_used", Some (JStr candidate));
                ("email", prop u "email");
                ("first_name", prop u "first_name");
                ("last_name", prop u "last_name");
                ("username", prop u "username");
                ("user_id",
                  (prop u "id" ?? prop m "user_id" ?? prop m "id")%js);
                ("team_role_name",
                  opt_prop (opt_prop (Some m) "team_role") "name") ]
              (spread m))
  end.

(** The record pushed for an audit log [l]. *)
Definition tag_log (t : json) (candidate : string) (l : json) : record :=
  fold_left assign
    [ ("_team_id", team_id_of t);
      ("_team_identifier_used", Some (JStr candidate)) ]
    (spread l).

(** The first of the listed shapes that is an array. *)
Fixpoint first_array (shapes : list value) : list json :=
  match shapes with
  | [] => []
  | v :: rest =>
      match as_array v with
      | Some xs => xs
      | None => first_array rest
      end
  end.

(** [Object.values(json || {})], as far as arrays can occur among them. *)
Definition values_of (payload : json) : list json :=
  match payload with
  | JObj kv => map snd kv
  | JArr xs => xs
  | _ => []
  end.

(** [o && typeof o === 'object' && ('user_id' in o || 'email' in o)]. *)
Definition looks_like_member (o : json) : bool :=
  match o with
  | JObj kv => has_prop "user_id" kv || has_prop "email" kv
  | _ => false
  end.

Definition member_items (payload : json) : list json :=
  match first_array
          [ Some payload;
            opt_prop (Some payload) "data";
            opt_prop (Some payload) "result";
            opt_prop (Some payload) "payload";
            opt_prop (opt_prop (Some payload) "payload") "data" ] with
  | [] =>
      match find (fun v => match v with
                           | JArr xs => existsb looks_like_member xs
                           | _ => false
                           end) (values_of payload) with
      | Some (JArr xs) => xs
      | _ => []
      end
  | items => items
  end.

Definition audit_items (payload : json) : list json :=
  first_array
    [ Some payload;
      opt_prop (Some payload) "data";
      opt_prop (Some payload) "result";
      opt_prop (Some payload) "payload";
      opt_prop (Some payload) "logs" ].

(** [items.forEach(m => teamMembers.push({...}))]: the pushes made before
    one of them raises stay. *)
Fixpoint push_members (t : json) (candidate : string) (items : list json)
  (teamMembers : list record) : result unit * list record :=
  match items with
  | [] => (Ok tt, teamMembers)
  | m :: rest =>
      match tag_member t candidate m with
      | Some r => push_members t candidate rest (teamMembers ++ [r])
      | None => (Throw "TypeError", teamMembers)
      end
  end.

Section FanOut.

Context {World : Type}.
Variable api : string -> World -> option response * World.
Variable teamMembersPattern : string.

(** [for (const pattern of teamMembersFallbacks)]; the flag is [got]. *)
Fixpoint try_patterns (t : json) (candidate : string)
  (patterns : list string) (teamMembers : list record) (s : run World)
  : bool * list record * run World :=
  match patterns with
  | [] => (false, teamMembers, s)
  | pattern :: rest =>
      let (res, s) := call api (member_endpoint pattern candidate) s in
      match res with
      | None => try_patterns t candidate rest teamMembers s
      | Some res =>
          if (status res =? 404)%Z
          then try_patterns t candidate rest teamMembers s
          else if negb (ok res)
          then try_patterns t candidate rest teamMembers s
          else
            match body res with
            | None => try_patterns t candidate rest teamMembers s
            | Some payload =>
                match push_members t candidate (member_items payload)
                                   teamMembers with
                | (Ok _, teamMembers) => (true, teamMembers, s)
                | (Throw _, teamMembers) =>
                    try_patterns t candidate rest teamMembers s
                end
            end
      end
  end.

(** [for (const candidate of uniqueIds)], members. *)
Fixpoint try_candidates (t : json) (candidates : list string)
  (teamMembers : list record) (s : run World) : list record * run World :=
  match candidates with
  | [] => (teamMembers, s)
  | candidate :: rest =>
      match try_patterns t candidate
                         (teamMembersFallbacks teamMembersPattern)
                         teamMembers s with
      | (true, teamMembers, s) => (teamMembers, s)
      | (false, teamMembers, s) => try_candidates t rest teamMembers s
      end
  end.

(** [for (const candidate of uniqueIds)], audit logs. *)
Fixpoint audit_candidates (t : json) (candidates : list string)
  (auditTried : list string) (auditLogsAll : list record) (s : run World)
  : list record * run World :=
  match candidates with
  | [] => (auditLogsAll, s)
  | candidate :: rest =>
      if set_has candidate auditTried
      then audit_candidates t rest auditTried auditLogsAll s
      else
        let auditTried := set_add candidate auditTried in
        let (res, s) := call api (audit_endpoint candidate) s in
        match res with
        | None => audit_candidates t rest auditTried auditLogsAll s
        | Some res =>
            if (status res =? 404)%Z
            then audit_candidates t rest auditTried auditLogsAll s
            else if negb (ok res)
            then audit_candidates t rest auditTried auditLogsAll s
            else
              match body res with
              | None => audit_candidates t rest auditTried auditLogsAll s
              | Some payload =>
                  match audit_items payload with
                  | [] => audit_candidates t rest auditTried auditLogsAll s
                  | items =>
                      (auditLogsAll ++ map (tag_log t candidate) items, s)
                  end
              end
        end
  end.

(** [for (const t of teams)]: the members and the audit logs gathered. *)
Fixpoint fan_out (teams : list json) (teamMembers auditLogsAll : list record)
  (s : run World) : list record * list record * run World :=
  match teams with
  | [] => (teamMembers, auditLogsAll, s)
  | t :: rest =>
      match uniqueIds t with
      | [] => fan_out rest teamMembers auditLogsAll s
      | ids =>
          let (teamMembers, s) := try_candidates t ids teamMembers s in
          let (auditLogsAll, s) := audit_candidates t ids [] auditLogsAll s in
          fan_out rest teamMembers auditLogsAll s
      end
  end.

End FanOut.

(** ** Provenance, as the specification describes it *)

Section Exchanges.

Context {World : Type}.
Variable api : string -> World -> option response * World.

(** What [api] answers when it is asked the [relatives] in order, from
    the world [w]: each request with its answer, and the world left. *)
Fixpoint exchanges (relatives : list string) (w : World)
  : list (string * option response) * World :=
  match relatives with
  | [] => ([], w)
  | relative :: rest =>
      let (res, w1) := api relative w in
      let (log, w2) := exchanges rest w1 in
      ((relative, res) :: log, w2)
  end.

(** The run [s] continues the run [s0]: [log] holds, in order, the
    requests made in between, each with the answer that [api] gave to
    it. *)
Definition continues (s0 s : run World)
  (log : list (string * option response)) : Prop :=
  requests s = requests s0 ++ map fst log
  /\ exchanges (map fst log) (world s0) = (log, world s).

End Exchanges.

(** The record [r] was fetched for one of the [teams] with one of that
    team's candidate identifiers: [log] holds an [ok] answer to a request
    made with the candidate, the record is what [tag] makes of one of the
    items of its body, and it carries the team's own identifier in
    [_team_id] and the candidate in [_team_identifier_used]. *)
Definition provenance (items : json -> list json)
  (tag : json -> string -> json -> option record)
  (endpoints : string -> list string) (teams : list json)
  (log : list (string * option response)) (r : record) : Prop :=
  exists t candidate ep res payload m,
    In t teams /\ In candidate (uniqueIds t)
    /\ In ep (endpoints candidate) /\ In (ep, Some res) log
    /\ ok res = true /\ body res = Some payload
    /\ In m (items payload) /\ tag t candidate m = Some r
    /\ field r "_team_id" = team_id_of t
    /\ field r "_team_identifier_used" = Some (JStr candidate).

Definition member_endpoints (teamMembersPattern candidate : string)
  : list string :=
  map (fun pattern => member_endpoint pattern candidate)
      (teamMembersFallbacks teamMembersPattern).

Definition audit_endpoints (candidate : string) : list string :=
  [audit_endpoint candidate].

Definition member_provenance (teamMembersPattern : string)
  (teams : list json) (log : list (string * option response)) (r : record)
  : Prop :=
  provenance member_items tag_member (member_endpoints teamMembersPattern)
             teams log r.

Definition log_provenance (teams : list json)
  (log : list (string * option response)) (r : record) : Prop :=
  provenance audit_items (fun t candidate l => Some (tag_log t candidate l))
             audit_endpoints teams log r.

(** A team and a server for the examples: every request is answered with
    one record. *)
Definition eng_team : json := JObj [("id", JNum 7); ("name", JStr "eng")].

Definition one_record (relative : string) (w : unit)
  : option response * unit :=
  (Some {| status := 200; headers := [];
           body := Some (JArr [JObj [("user_id", JNum 1)]]) |}, w).

(** ** Credential exchange ([obtainJWT], [extractJWT], [api]) *)

Inductive method := GET | POST.

(** The credential of a request: [Basic] stands for the base64 text of
    [user_pass]. *)
Inductive header :=
| Content_Type (v : string)
| Accept (v : string)
| Authorization_Basic (user_pass : string)
| Authorization_Bearer (token : string)
| Cookie (v : string).

(** What [fetch] is called with; [payload] is the object that
    [JSON.stringify] turns into the body. *)
Record request := {
  url : string;
  verb : method;
  sent_headers : list header;
  payload : option json
}.

(** [headers.get(name)]: [null] is [None].  A header name is bytes of
    the ASCII range and is compared in lower case. *)
Definition headers_get (hs : list (string * string)) (name : string)
  : option string :=
  lookup (ascii_lowercase name) hs.

Definition truthy_text (s : option string) : bool :=
  match s with
  | Some s => negb (s =? "")
  | None => false
  end.

(** [auth.split(/\s+/).pop()]: the text after the last white space. *)
Fixpoint last_token (s : string) : string :=
  match s with
  | EmptyString => EmptyString
  | String c s' =>
      if existsb is_space (list_ascii_of_string s') then last_token s'
      else if is_space c then s' else s
  end.

(** [headers.get(a) || headers.get(b)]. *)
Definition header_or (hs : list (string * string)) (a b : string)
  : option string :=
  if truthy_text (headers_get hs a) then headers_get hs a
  else headers_get hs b.

Definition text_of (s : option string) : string :=
  match s with
  | Some s => s
  | None => EmptyString
  end.

(** The header fallback of [extractJWT].  Under [/bearer /i], without the
    [u] flag, only the letters [A-Z] fold onto the letters of the
    pattern. *)
Definition token_of_headers (hs : list (string * string)) : value :=
  let auth := header_or hs "Authorization" "authorization" in
  if truthy_text auth && includes (ascii_lowercase (text_of auth)) "bearer "
  then Some (JStr (last_token (text_of auth)))
  else
    let xToken := header_or hs "x-access-token" "X-Access-Token" in
    if truthy_text xToken then Some (JStr (text_of xToken)) else Some JNull.

(** [extractJWT(json, headers)]; [Some JNull] is [null]. *)
Definition extractJWT (body : json) (hs : list (string * string)) : value :=
  if negb (truthy_json body) then Some JNull
  else
    let nested k1 k2 := opt_prop (opt_prop (Some body) k1) k2 in
    let candidates :=
      filter truthy
        [ prop body "jwt"; prop body "access_token"; prop body "token";
          prop body "id_token";
          nested "payload" "access_token"; nested "payload" "token";
          nested "data" "jwt"; nested "data" "access_token";
          nested "result" "jwt"; nested "result" "token" ] in
    match candidates with
    | c :: _ => c
    | [] => token_of_headers hs
    end.

(** [s.split(';')[0]]. *)
Fixpoint before_semicolon (s : string) : string :=
  match s with
  | EmptyString => EmptyString
  | String c s' =>
      if Ascii.eqb c ";" then EmptyString else String c (before_semicolon s')
  end.

(** The look-ahead [(?=[^;]+;)]: a first character other than [;] and a
    [;] further on. *)
Definition cookie_follows (rest : string) : bool :=
  match rest with
  | EmptyString => false
  | String c _ => negb (Ascii.eqb c ";") && includes rest ";"
  end.

(** [setCookie.split(/,(?=[^;]+;)/)]. *)
Fixpoint split_set_cookie (s : string) : list string :=
  match s with
  | EmptyString => [EmptyString]
  | String c s' =>
      if Ascii.eqb c "," && cookie_follows s'
      then EmptyString :: split_set_cookie s'
      else match split_set_cookie s' with
           | p :: ps => String c p :: ps
           | [] => [String c EmptyString]
           end
  end.

(** The module-level variables of the script. *)
Record session := {
  cachedJWT : value;
  attemptedAuth : bool;
  debugAuthPayload : value;
  sessionCookie : option string
}.

Definition fresh_session : session :=
  {| cachedJWT := Some JNull; attemptedAuth := false;
     debugAuthPayload := Some JNull; sessionCookie := None |}.

(** What a call of [obtainJWT] ends with. *)
Inductive outcome :=
| Returned (jwt : JS.value)
| Threw (message : string).

Section Auth.

Context {World : Type}.
(** [fetch]; [None] when the promise rejects. *)
Variable fetch : request -> World -> option response * World.
(** The environment: [PRESET_API_TOKEN], [PRESET_API_SECRET],
    [PRESET_BEARER] and [PRESET_API_BASE]. *)
Variable token secret : string.
Variable presetBearer : option string.
Variable base : string.

Record net := { server : World; sent : list request }.

Definition send (req : request) (n : net) : option response * net :=
  let (res, w) := fetch req (server n) in
  (res, {| server := w; sent := sent n ++ [req] |}).

(** [base.replace(/\/$/, '')]. *)
Fixpoint strip_slash (s : string) : string :=
  match s with
  | EmptyString => EmptyString
  | String c EmptyString => if Ascii.eqb c "/" then EmptyString else s
  | String c s' => String c (strip_slash s')
  end.

Definition authUrl : string := (strip_slash base ++ "/v1/auth/")%string.

Definition post_json (body : json) : request :=
  {| url := authUrl; verb := POST;
     sent_headers := [Content_Type "application/json"];
     payload := Some body |}.

Definition primary_request : request :=
  post_json (JObj [("name", JStr token); ("secret", JStr secret)]).

Definition legacy_request : request :=
  post_json (JObj [("api_token", JStr token); ("api_secret", JStr secret)]).

Definition basic_request : request :=
  {| url := authUrl; verb := GET;
     sent_headers := [Authorization_Basic (token ++ ":" ++ secret)];
     payload := None |}.

(** [if (setCookie) sessionCookie = ...]. *)
Definition capture_cookie (res : response) (st : session) : session :=
  match headers_get (headers res) "set-cookie" with
  | Some setCookie =>
      if setCookie =? "" then st
      else {| cachedJWT := cachedJWT st;
              attemptedAuth := attemptedAuth st;
              debugAuthPayload := debugAuthPayload st;
              sessionCookie :=
                Some (join "; " (map before_semicolon
                                     (split_set_cookie setCookie))) |}
  | None => st
  end.

(** The part that both exchanges share once the body is read: take the
    token, capture the cookie, and return if either is there. *)
Definition settle (res : response) (body : json) (st : session)
  : option outcome * session :=
  let jwtExtracted := extractJWT body (headers res) in
  let st := capture_cookie res st in
  if truthy jwtExtracted
  then (Some (Returned jwtExtracted),
        {| cachedJWT := jwtExtracted; attemptedAuth := attemptedAuth st;
           debugAuthPayload := debugAuthPayload st;
           sessionCookie := sessionCookie st |})
  else if truthy_text (sessionCookie st)
  then (Some (Returned (Some JNull)), st)
  else (None, st).

Definition with_debug (payload : JS.value) (st : session) : session :=
  {| cachedJWT := cachedJWT st; attemptedAuth := attemptedAuth st;
     debugAuthPayload := payload; sessionCookie := sessionCookie st |}.

(** The first [try] block: the JSON POST and its one retry.  [None] means
    that the block fell through to the fallback. *)
Definition post_exchange (st : session) (n : net)
  : option outcome * session * net :=
  let (res, n) := send primary_request n in
  match res with
  | None => (None, st, n)
  | Some res =>
      let (res, n) :=
        if (status res =? 400)%Z then send legacy_request n
        else (Some res, n) in
      match res with
      | None => (None, st, n)
      | Some res =>
          if ok res then
            match body res with
            | None => (None, st, n)
            | Some json =>
                let (r, st) := settle res json (with_debug (Some json) st) in
                (r, st, n)
            end
          else (None, st, n)
      end
  end.

(** The second [try] block: the request with Basic credentials. *)
Definition basic_exchange (st : session) (n : net)
  : option outcome * session * net :=
  let (res, n) := send basic_request n in
  match res with
  | None => (None, st, n)
  | Some res =>
      if ok res then
        match body res with
        | None => (None, st, n)
        | Some json =>
            let debug := (debugAuthPayload st ||| Some json)%js in
            let (r, st) := settle res json (with_debug debug st) in
            (r, st, n)
        end
      else (None, st, n)
  end.

Definition obtainJWT (st : session) (n : net) : outcome * session * net :=
  if truthy_text presetBearer then
    let jwt : JS.value :=
      match presetBearer with
      | Some b => Some (JStr b)
      | None => None
      end in
    (Returned jwt,
     {| cachedJWT := jwt; attemptedAuth := attemptedAuth st;
        debugAuthPayload := debugAuthPayload st;
        sessionCookie := sessionCookie st |}, n)
  else if truthy (cachedJWT st) then (Returned (cachedJWT st), st, n)
  else if attemptedAuth st && truthy_text (sessionCookie st)
  then (Returned (Some JNull), st, n)
  else if attemptedAuth st
  then (Threw "Auth previously failed", st, n)
  else
    let st := {| cachedJWT := cachedJWT st; attemptedAuth := true;
                 debugAuthPayload := debugAuthPayload st;
                 sessionCookie := sessionCookie st |} in
    match post_exchange st n with
    | (Some out, st, n) => (out, st, n)
    | (None, st, n) =>
        match basic_exchange st n with
        | (Some out, st, n) => (out, st, n)
        | (None, st, n) =>
            if truthy_text (sessionCookie st)
            then (Returned (Some JNull), st, n)
            else (Threw "Unable to obtain JWT or session cookie from /v1/auth/",
                  st, n)
        end
    end.

(** [api(relative)]: the state is the session and the network. *)
Definition api (relative : string) (w : session * net)
  : option response * (session * net) :=
  let (st, n) := w in
  match obtainJWT st n with
  | (Threw _, st, n) => (None, (st, n))
  | (Returned jwt, st, n) =>
      let credential :=
        if truthy jwt
        then [Authorization_Bearer (ToPropertyKey jwt)]
        else match sessionCookie st with
             | Some c => if c =? "" then [] else [Cookie c]
             | None => []
             end in
      let (res, n) :=
        send {| url := (strip_slash base ++ relative)%string; verb := GET;
                sent_headers := [Content_Type "application/json";
                                 Accept "application/json"] ++ credential;
                payload := None |} n in
      (res, (st, n))
  end.


End Auth.

Arguments net World : clear implicits.

(** The session remembers the outcome [o] of the exchange: a later call
    of [obtainJWT] gives it again without asking the server. *)
Definition remembers (st : session) (o : outcome) : Prop :=
  attemptedAuth st = true
  /\ match o with
     | Returned jwt =>
         (truthy jwt = true /\ cachedJWT st = jwt)
         \/ (jwt = Some JNull /\ truthy (cachedJWT st) = false
             /\ truthy_text (sessionCookie st) = true)
     | Threw _ =>
         truthy (cachedJWT st) = false
         /\ truthy_text (sessionCookie st) = false
     end.

(** The credential headers among the headers of a request. *)
Definition credentials (req : request) : list header :=
  filter (fun h => match h with
                   | Authorization_Basic _ => true
                   | Authorization_Bearer _ => true
                   | Cookie _ => true
                   | _ => false
                   end) (sent_headers req).

(** A server for the examples: it rejects the primary field names with
    400 and answers everything else with the next prepared response. *)
Definition picky (req : request) (w : list response)
  : option response * list response :=
  match payload req with
  | Some (JObj (("name", _) :: _)) =>
      (Some {| status := 400; headers := []; body := Some JNull |}, w)
  | _ =>
      match w with
      | [] => (None, [])
      | res :: w' => (Some res, w')
      end
  end.

(** The retry is refused, the fallback is answered with a bearer header. *)
Definition unauthorized_then_bearer : list response :=
  [ {| status := 401; headers := []; body := None |};
    {| status := 200; headers := [("authorization", "Bearer xyz")];
       body := Some (JObj [("ok", JBool true)]) |} ].

(** A server behind [fetch] that grants a token to every POST and answers
    every GET with a full page of 100 records under [result]. *)
Definition generous (req : request) (w : unit) : option response * unit :=
  match verb req with
  | POST =>
      (Some {| status := 200; headers := [];
               body := Some (JObj [("jwt", JStr "t")]) |}, w)
  | GET => (Some (result_page (repeat JNull 100)), w)
  end.

(** A server for the examples that knows the users under the second of
    the usual addresses only. *)
Definition legacy_host (relative : string) (w : unit)
  : option response * unit :=
  if startsWith relative "/api/v1/user/"
  then (Some {| status := 404; headers := []; body := None |}, w)
  else if startsWith relative "/api/v1/users"
  then (Some (result_page [JNum 1]), w)
  else (None, w).

End Fetcher.

(* ================================================================== *)
(** * CSV export ([src/utils/download.ts]) *)

Module Download.

Definition quote_char : ascii := ascii_of_nat 34.
Definition newline_char : ascii := ascii_of_nat 10.
Definition quote : string := String quote_char EmptyString.
Definition newline : string := String newline_char EmptyString.

(** The test of the character class with the quote, the comma and the
    line feed. *)
Fixpoint needs_quoting (s : string) : bool :=
  match s with
  | EmptyString => false
  | String c s' =>
      Ascii.eqb c quote_char || Ascii.eqb c "," || Ascii.eqb c newline_char
      || needs_quoting s'
  end.

(** Every quote doubled. *)
Fixpoint double_quotes (s : string) : string :=
  match s with
  | EmptyString => EmptyString
  | String c s' =>
      if Ascii.eqb c quote_char
      then String quote_char (String quote_char (double_quotes s'))
      else String c (double_quotes s')
  end.

(** The inner [escape]. *)
Definition escape (v : value) : string :=
  match v with
  | None => EmptyString
  | Some JNull => EmptyString
  | Some j =>
      let s := ToString j in
      if needs_quoting s then (quote ++ double_quotes s ++ quote)%string
      else s
  end.

(** [typeof v === 'object']. *)
Definition is_object (v : value) : bool :=
  match v with
  | Some JNull => true
  | Some (JArr _) => true
  | Some (JObj _) => true
  | _ => false
  end.

(** [Array.from(new Set(rows.flatMap(r => Object.keys(r))))]. *)
Definition all_keys (rows : list record) : list string :=
  fold_left (fun s k => set_add k s) (flat_map (map fst) rows) [].

(** The columns of the export; the filter looks at the first row. *)
Definition columns (rows : list record) : list string :=
  match rows with
  | [] => []
  | first :: _ =>
      filter (fun k => negb (startsWith k "_")
                       && negb (is_object (field first k)))
             (all_keys rows)
  end.

Definition line (cols : list string) (r : record) : string :=
  join "," (map (fun c => escape (field r c)) cols).

Definition csv_of (rows : list record) : string :=
  let cols := columns rows in
  join newline (join "," cols :: map (line cols) rows).

(** [s.endsWith(suffix)]. *)
Fixpoint endsWith (s suffix : string) : bool :=
  (s =? suffix)
  || match s with
     | EmptyString => false
     | String _ s' => endsWith s' suffix
     end.

(** [filename.endsWith(ext) ? filename : filename + ext]. *)
Definition download_name (ext filename : string) : string :=
  if endsWith filename ext then filename else (filename ++ ext)%string.

(** [downloadCSV(rows, filename)]: the name and the text of the file that
    is offered, [None] when nothing is offered. *)
Definition downloadCSV (rows : list record) (filename : string)
  : option (string * string) :=
  match rows with
  | [] => None
  | _ => Some (download_name ".csv" filename, csv_of rows)
  end.

(** ** Reading a line back

    A reader of comma-separated fields in which a field may be quoted and
    a quote inside a quoted field is written twice. *)




(** A member as the fetcher writes it, for the examples. *)
Definition exported_member : record :=
  [ ("user_id", JNum 1); ("_team_id", JNum 7);
    ("email", JStr "a,b@example.com"); ("team_role", JObj []);
    ("note", JStr (String quote_char "hi")) ].

End Download.

(* ================================================================== *)
(** * Loading a data file ([src/utils/fetchData.ts]) *)

Module FetchData.
Import Fetcher.

(** [base.replace(/\/+/g, '/')]: every run of slashes becomes one. *)
Fixpoint collapse_slashes (s : string) : string :=
  match s with
  | EmptyString => EmptyString
  | String c s' =>
      if Ascii.eqb c "/"
      then match s' with
           | String c' _ =>
               if Ascii.eqb c' "/" then collapse_slashes s'
               else String c (collapse_slashes s')
           | EmptyString => String c EmptyString
           end
      else String c (collapse_slashes s')
  end.

(** The end of every candidate: [?ck=<Date.now()>]. *)
Definition cache_bust (now : Z) : string :=
  ("?ck=" ++ String_of_number now)%string.

(** The four names, before duplicates are dropped. *)
Definition names (BASE_URL : option string) (file : string) : list string :=
  let base := collapse_slashes (if truthy_text BASE_URL
                                then text_of BASE_URL else "/") in
  let normalizedBase :=
    if Download.endsWith base "/" then base else (base ++ "/")%string in
  [ (normalizedBase ++ "data/" ++ file)%string;
    ("/data/" ++ file)%string;
    ("data/" ++ file)%string;
    ("/preset-analytics-app/data/" ++ file)%string ].

Definition candidates (BASE_URL : option string) (now : Z) (file : string)
  : list string :=
  map (fun u => (u ++ cache_bust now)%string)
      (fold_left (fun s u => set_add u s) (names BASE_URL file) []).

(** What the caller gets: the parsed body, a rejection of [res.json()]
    (the promise is returned from inside the [try], so its rejection is
    the caller's), or the error that lists the failed attempts. *)
Inductive loaded :=
| Loaded (payload : json)
| Unreadable
| Failed (message : string).

Section Load.

Context {World : Type}.
(** The browser's [fetch]: a response, or the message of the error it
    throws. *)
Variable fetch : string -> World -> (response + string) * World.

(** The world and every answer received so far, with the URL asked. *)
Record session := {
  world : World;
  answers : list (string * (response + string))
}.

Definition ask (url : string) (s : session)
  : (response + string) * session :=
  let (a, w) := fetch url (world s) in
  (a, {| world := w; answers := answers s ++ [(url, a)] |}).

(** The [for] loop; [None] when no candidate answered with [ok]. *)
Fixpoint try_urls (urls : list string) (errors : list string) (s : session)
  : option loaded * list string * session :=
  match urls with
  | [] => (None, errors, s)
  | url :: rest =>
      let (a, s) := ask url s in
      match a with
      | inl res =>
          if ok res
          then (Some (match body res with
                      | Some payload => Loaded payload
                      | None => Unreadable
                      end), errors, s)
          else try_urls rest
                 (errors ++ [(url ++ " -> " ++ String_of_number (status res))
                               %string]) s
      | inr message =>
          try_urls rest (errors ++ [(url ++ " -> " ++ message)%string]) s
      end
  end.

Definition fetchDataFile (BASE_URL : option string) (now : Z)
  (file : string) (optional : bool) (s : session) : loaded * session :=
  match try_urls (candidates BASE_URL now file) [] s with
  | (Some r, _, s) => (r, s)
  | (None, errors, s) =>
      if optional then (Loaded (JArr []), s)
      else (Failed ("All fetch attempts failed for " ++ file ++ ":"
                    ++ Download.newline ++ join Download.newline errors),
            s)
  end.

End Load.

Arguments session World : clear implicits.

(** The attempt did not give a usable response. *)
Definition failed (a : response + string) : bool :=
  match a with
  | inl res => negb (ok res)
  | inr _ => true
  end.

(** The line that an attempt adds to the list of errors. *)
Definition error_line (attempt : string * (response + string)) : string :=
  match snd attempt with
  | inl res => (fst attempt ++ " -> " ++ String_of_number (status res))%string
  | inr message => (fst attempt ++ " -> " ++ message)%string
  end.

(** A static host for the examples: it serves the files below
    [/preset-analytics-app/data/], answers 404 below [/data/] and is
    unreachable otherwise. *)
Definition pages_host (url : string) (w : unit)
  : (response + string) * unit :=
  if startsWith url "/preset-analytics-app/data/"
  then (inl {| status := 200; headers := [];
               body := Some (JArr [JNum 1]) |}, w)
  else if startsWith url "/data/"
  then (inl {| status := 404; headers := []; body := None |}, w)
  else (inr "Failed to fetch", w).

End FetchData.

(* ================================================================== *)
(** * Properties *)

(** ** Strings and property lists *)

Module JSFacts.

Lemma startsWith_app (needle rest : string) :
  startsWith (needle ++ rest) needle = true.
Proof.
  induction needle as [|c n IH]; simpl.
  - reflexivity.
  - rewrite Ascii.eqb_refl. exact IH.
Qed.

Lemma includes_startsWith (hay needle : string) :
  startsWith hay needle = true -> includes hay needle = true.
Proof.
  intros H. destruct hay; simpl; rewrite H; reflexivity.
Qed.

Lemma includes_app (pre needle post : string) :
  includes (pre ++ needle ++ post) needle = true.
Proof.
  induction pre as [|c pre IH].
  - cbn [append]. apply includes_startsWith, startsWith_app.
  - simpl. rewrite IH. apply orb_true_r.
Qed.

Lemma startsWith_split (hay needle : string) :
  startsWith hay needle = true -> exists rest, hay = (needle ++ rest)%string.
Proof.
  revert hay; induction needle as [|c n IH]; intros hay H.
  - exists hay. reflexivity.
  - destruct hay as [|d h]; simpl in H; [discriminate|].
    apply andb_true_iff in H as [Hc Hn].
    apply Ascii.eqb_eq in Hc; subst d.
    destruct (IH _ Hn) as [rest ->]. exists rest. reflexivity.
Qed.

Lemma includes_split (hay needle : string) :
  includes hay needle = true ->
  exists pre post, hay = (pre ++ needle ++ post)%string.
Proof.
  induction hay as [|c h IH]; simpl; intros H.
  - rewrite orb_false_r in H. apply startsWith_split in H as [rest ->].
    exists ""%string, rest. reflexivity.
  - apply orb_true_iff in H as [H|H].
    + apply startsWith_split in H as [rest ->].
      exists ""%string, rest. reflexivity.
    + destruct (IH H) as (pre & post & ->).
      exists (String c pre), post. reflexivity.
Qed.

(** *** Property lists *)

Lemma has_prop_In {A : Type} (k : string) (o : list (string * A)) :
  has_prop k o = true <-> In k (map fst o).
Proof.
  unfold has_prop. induction o as [|[k' v] o IH]; simpl.
  - split; [discriminate | tauto].
  - destruct (String.eqb_spec k' k) as [->|Hne].
    + split; [left; reflexivity | reflexivity].
    + rewrite IH. split; [right; assumption|].
      intros [H|H]; [contradiction|exact H].
Qed.

Lemma lookup_None_In {A : Type} (k : string) (o : list (string * A)) :
  lookup k o = None <-> ~ In k (map fst o).
Proof.
  rewrite <- has_prop_In. unfold has_prop.
  destruct (lookup k o); split; intros H; congruence.
Qed.

Lemma keys_replace_prop {A : Type} (k : string) (v : A)
  (o : list (string * A)) :
  map fst (replace_prop k v o) = map fst o.
Proof.
  induction o as [|[k' v'] o IH]; simpl; [reflexivity|].
  destruct (k' =? k)%string; simpl; [reflexivity | rewrite IH; reflexivity].
Qed.

Lemma lookup_replace_prop {A : Type} (k k' : string) (v : A)
  (o : list (string * A)) :
  has_prop k' o = true ->
  lookup k (replace_prop k' v o)
  = if (k' =? k)%string then Some v else lookup k o.
Proof.
  unfold has_prop. induction o as [|[k0 v0] o IH]; simpl; [discriminate|].
  destruct (String.eqb_spec k0 k') as [->|H0]; simpl.
  - intros _. destruct (k' =? k)%string; reflexivity.
  - intros H. destruct (String.eqb_spec k0 k) as [->|H1].
    + destruct (String.eqb_spec k' k); [congruence | reflexivity].
    + apply IH. exact H.
Qed.

Lemma lookup_insert_index {A : Type} (i : N) (k k' : string) (v : A)
  (o : list (string * A)) :
  array_index k' = Some i ->
  lookup k (insert_index i k' v o)
  = if (k' =? k)%string then Some v else lookup k o.
Proof.
  intros Hi. induction o as [|[k0 v0] o IH]; simpl.
  - reflexivity.
  - destruct (array_index k0) as [j|] eqn:Ej;
      [destruct (j <? i)%N eqn:Elt|]; simpl; try reflexivity.
    rewrite IH. destruct (String.eqb_spec k0 k) as [->|H1]; [|reflexivity].
    destruct (String.eqb_spec k' k) as [->|H2]; [|reflexivity].
    rewrite Hi in Ej. injection Ej as ->. rewrite N.ltb_irrefl in Elt.
    discriminate.
Qed.

Lemma lookup_app_new {A : Type} (k k' : string) (v : A)
  (o : list (string * A)) :
  has_prop k' o = false ->
  lookup k (o ++ [(k', v)])
  = if (k' =? k)%string then Some v else lookup k o.
Proof.
  unfold has_prop. induction o as [|[k0 v0] o IH]; simpl.
  - reflexivity.
  - destruct (String.eqb_spec k0 k') as [->|H0]; [discriminate|].
    intros H. destruct (String.eqb_spec k0 k) as [->|H1].
    + destruct (String.eqb_spec k' k); [congruence | reflexivity].
    + apply IH. exact H.
Qed.

(** Reading back after [o[k'] = v]. *)
Lemma lookup_obj_set {A : Type} (k k' : string) (v : A)
  (o : list (string * A)) :
  lookup k (obj_set k' v o)
  = if (k' =? k)%string then Some v else lookup k o.
Proof.
  unfold obj_set. destruct (has_prop k' o) eqn:Eh.
  - apply lookup_replace_prop. exact Eh.
  - destruct (array_index k') as [i|] eqn:Ei.
    + apply lookup_insert_index. exact Ei.
    + apply lookup_app_new. exact Eh.
Qed.

Lemma lookup_obj_remove {A : Type} (k k' : string) (o : list (string * A)) :
  lookup k (obj_remove k' o)
  = if (k' =? k)%string then None else lookup k o.
Proof.
  unfold obj_remove. induction o as [|[k0 v0] o IH]; simpl.
  - destruct (k' =? k)%string; reflexivity.
  - destruct (String.eqb_spec k0 k') as [->|H0]; simpl.
    + rewrite IH. destruct (String.eqb_spec k' k); reflexivity.
    + rewrite IH. destruct (String.eqb_spec k0 k) as [->|H1]; [|reflexivity].
      destruct (String.eqb_spec k' k); [congruence | reflexivity].
Qed.

(** *** Sorting *)

Lemma sort_insert_perm {A : Type} (cmp : A -> A -> Z) (x : A) (l : list A) :
  Permutation (sort_insert cmp x l) (x :: l).
Proof.
  induction l as [|y l IH]; simpl.
  - apply Permutation_refl.
  - destruct (cmp x y <=? 0)%Z.
    + apply Permutation_refl.
    + eapply perm_trans; [apply perm_skip, IH | apply perm_swap].
Qed.

Lemma sort_by_perm {A : Type} (cmp : A -> A -> Z) (l : list A) :
  Permutation (sort_by cmp l) l.
Proof.
  induction l as [|x l IH]; simpl.
  - apply perm_nil.
  - eapply perm_trans; [apply sort_insert_perm | apply perm_skip, IH].
Qed.

Lemma lookup_In {A : Type} (k : string) (v : A) (o : list (string * A)) :
  lookup k o = Some v -> In (k, v) o.
Proof.
  induction o as [|[k0 v0] o IH]; simpl; [discriminate|].
  destruct (String.eqb_spec k0 k) as [->|_].
  - intros H. injection H as ->. left. reflexivity.
  - intros H. right. apply IH. exact H.
Qed.

End JSFacts.

(** ** Free-text search *)

Module SearchFacts.
Import Search JSFacts.

Lemma ascii_lowercase_app (a b : string) :
  ascii_lowercase (a ++ b) = (ascii_lowercase a ++ ascii_lowercase b)%string.
Proof.
  induction a as [|c a IH]; simpl; [reflexivity|]. rewrite IH. reflexivity.
Qed.

Section Visit.

Variable toLowerCase : string -> string.

Lemma visit_holds (needle : string) (r : json) (v : string) :
  holds_string r v ->
  includes (toLowerCase v) needle = true ->
  visit toLowerCase needle r = true.
Proof.
  intros H Hinc. induction H as [s | xs x s Hin _ IH | kv k x s Hin _ IH].
  - exact Hinc.
  - simpl. apply existsb_exists. exists x. split; [exact Hin | exact (IH Hinc)].
  - simpl. apply existsb_exists. exists (k, x).
    split; [exact Hin | exact (IH Hinc)].
Qed.

Lemma search_holds (r : json) (q v : string) :
  holds_string r v -> ci_substring toLowerCase q v ->
  search toLowerCase r q = true.
Proof.
  intros Hr (pre & post & E). unfold search.
  destruct (q =? "")%string; [reflexivity|].
  apply visit_holds with (v := v); [exact Hr|].
  rewrite E. apply includes_app.
Qed.

End Visit.

(** C9 (as stated, refuted). A record holds the word alpha-sigma in
    capitals.  The query capital sigma is a substring of that word as it
    stands, yet the search does not find it: the word is lowered as a
    whole, its last letter to the final sigma, and the query to the small
    sigma. *)
Lemma final_sigma_substring_is_not_found :
  holds_string (JObj [("name"%string, JStr (capital_alpha ++ capital_sigma))])
               (capital_alpha ++ capital_sigma)
  /\ (exists pre post,
         (capital_alpha ++ capital_sigma)%string
         = (pre ++ capital_sigma ++ post)%string)
  /\ search example_toLowerCase
            (JObj [("name"%string, JStr (capital_alpha ++ capital_sigma))])
            capital_sigma
     = false.
Proof.
  split; [|split; [|reflexivity]].
  - apply holds_in_object with (k := "name"%string)
      (x := JStr (capital_alpha ++ capital_sigma)).
    + left. reflexivity.
    + apply holds_here.
  - exists capital_alpha, ""%string. reflexivity.
Qed.

(** C9 (amended). The search predicate accepts every record when the
    query is empty, and accepts a record that holds, at any depth of
    nested objects and arrays, a string whose lowered text holds the
    lowered query, each lowered as a whole by [toLowerCase], whatever the
    case mapping of the host is.  On text of the ASCII range, where the
    mapping folds the letters [A-Z], this is every query that equals a
    substring of the string up to the case of its letters. *)
Theorem search_empty_and_substring :
  forall toLowerCase : string -> string,
    (forall r : json, search toLowerCase r "" = true)
    /\ (forall (r : json) (q v : string),
           holds_string r v -> ci_substring toLowerCase q v ->
           search toLowerCase r q = true)
    /\ (folds_ascii toLowerCase ->
        forall (r : json) (q v : string),
          holds_string r v ->
          ascii_text q = true -> ascii_text v = true ->
          ascii_ci_substring q v ->
          search toLowerCase r q = true).
Proof.
  intros toLowerCase. split; [|split].
  - intros r. reflexivity.
  - intros r q v. apply search_holds.
  - intros Hfold r q v Hr Hq Hv (pre & q' & post & -> & E).
    apply search_holds with (v := (pre ++ q' ++ post)%string); [exact Hr|].
    exists (ascii_lowercase pre), (ascii_lowercase post).
    rewrite (Hfold _ Hv), (Hfold _ Hq), !ascii_lowercase_app, E.
    reflexivity.
Qed.

Lemma search_empty_and_substring_witness :
  search ascii_lowercase sample_member "" = true
  /\ search ascii_lowercase sample_member "EXAMPLE.com" = true
  /\ search ascii_lowercase sample_member "aLiCe" = true.
Proof.
  assert (Hholds : holds_string sample_member "Alice@Example.COM").
  { apply holds_in_object with (k := "user"%string)
      (x := JObj [ ("emails", JArr [JNull; JStr "Alice@Example.COM"]) ]).
    - simpl. right. left. reflexivity.
    - apply holds_in_object with (k := "emails"%string)
        (x := JArr [JNull; JStr "Alice@Example.COM"]).
      + simpl. left. reflexivity.
      + apply holds_in_array with (x := JStr "Alice@Example.COM").
        * simpl. right. left. reflexivity.
        * apply holds_here. }
  destruct (search_empty_and_substring ascii_lowercase)
    as (Hempty & Hsub & Hascii).
  split; [|split].
  - exact (Hempty sample_member).
  - apply (Hsub sample_member "EXAMPLE.com" "Alice@Example.COM");
      [exact Hholds|].
    exists "alice@"%string, ""%string. reflexivity.
  - apply (Hascii (fun s _ => eq_refl) sample_member
             "aLiCe" "Alice@Example.COM");
      [exact Hholds | reflexivity | reflexivity |].
    exists ""%string, "Alice"%string, "@Example.COM"%string.
    split; reflexivity.
Defined.

End SearchFacts.

(** ** Audit-log field flattening *)

Module AuditLogsFacts.
Import AuditLogs.

Lemma walk_cons (prefix k : string) (v : json) (l : record) :
  walk (JObj ((k, v) :: l)) prefix
  = entry_rows prefix k v ++ walk (JObj l) prefix.
Proof.
  unfold entry_rows, hidden. destruct v; try reflexivity.
  simpl. destruct ((k =? "params") || (k =? "query_context"))%string; simpl.
  - reflexivity.
  - rewrite <- app_assoc. reflexivity.
Qed.

Lemma walk_nil (prefix : string) : walk (JObj []) prefix = [].
Proof. reflexivity. Qed.

Lemma walk_app (prefix : string) (l1 l2 : record) :
  walk (JObj (l1 ++ l2)) prefix
  = walk (JObj l1) prefix ++ walk (JObj l2) prefix.
Proof.
  induction l1 as [|[k v] l1 IH].
  - reflexivity.
  - cbn [app]. rewrite !walk_cons, IH, app_assoc. reflexivity.
Qed.

Lemma pushRow_visible (path p : string) (v w : json) :
  In (p, w) (pushRow path v) -> hidden p = false.
Proof.
  unfold pushRow. destruct (hidden path) eqn:E; simpl.
  - tauto.
  - intros [H|[]]. inversion H; subst. exact E.
Qed.

(** No row ever carries a hidden path. *)
Lemma walk_visible (obj : json) :
  forall prefix p w, In (p, w) (walk obj prefix) -> hidden p = false.
Proof.
  induction obj as [| b | n | s | xs _ | kv IH] using json_nested_ind;
    intros prefix p w H;
    try (simpl in H; eapply pushRow_visible; exact H).
  induction IH as [|[k v] l Hv _ IHl].
  - destruct H.
  - rewrite walk_cons in H. apply in_app_or in H as [H|H].
    + unfold entry_rows in H. simpl in Hv.
      destruct v; try (eapply pushRow_visible; exact H).
      destruct (hidden k).
      * eapply pushRow_visible; exact H.
      * apply in_app_or in H as [H|H].
        -- eapply pushRow_visible; exact H.
        -- eapply Hv; exact H.
    + apply IHl. exact H.
Qed.

Lemma has_dot_app (a b : string) :
  has_dot (a ++ b) = has_dot a || has_dot b.
Proof.
  induction a as [|c a IH]; simpl.
  - reflexivity.
  - rewrite IH, orb_assoc. reflexivity.
Qed.

Lemma dotted_visible (p : string) : has_dot p = true -> hidden p = false.
Proof.
  intros H. unfold hidden.
  destruct (p =? "params")%string eqn:E1.
  - apply String.eqb_eq in E1. subst p. discriminate.
  - destruct (p =? "query_context")%string eqn:E2.
    + apply String.eqb_eq in E2. subst p. discriminate.
    + reflexivity.
Qed.

(** Every property of a walked object gets a row, unless its path is one
    of the two hidden ones. *)
Lemma walk_emits_entry (prefix : string) (kv : record) (k : string)
  (v : json) :
  In (k, v) kv -> hidden (prefix ++ k) = false ->
  In ((prefix ++ k)%string, v) (walk (JObj kv) prefix).
Proof.
  intros Hin Hvis. apply in_split in Hin as (l1 & l2 & ->).
  rewrite walk_app, walk_cons. apply in_or_app. right.
  apply in_or_app. left.
  assert (Hp : In ((prefix ++ k)%string, v) (pushRow (prefix ++ k) v)).
  { unfold pushRow. rewrite Hvis. left. reflexivity. }
  unfold entry_rows. destruct v; try exact Hp.
  destruct (hidden k); [exact Hp | apply in_or_app; left; exact Hp].
Qed.

(** The rows of an object that is descended into are rows of its parent. *)
Lemma walk_descends (prefix : string) (kv kv' : record) (k : string) :
  In (k, JObj kv') kv -> hidden k = false ->
  incl (walk (JObj kv') ((prefix ++ k) ++ ".")) (walk (JObj kv) prefix).
Proof.
  intros Hin Hk r Hr. apply in_split in Hin as (l1 & l2 & ->).
  rewrite walk_app, walk_cons. apply in_or_app. right.
  apply in_or_app. left. unfold entry_rows. rewrite Hk.
  apply in_or_app. right. exact Hr.
Qed.

Lemma descends_rows (log : record) (prefix : string) (kv : record) :
  descends log prefix kv ->
  incl (walk (JObj kv) prefix) (rows_of log)
  /\ (prefix = ""%string \/ has_dot prefix = true).
Proof.
  induction 1 as [|prefix kv k kv' _ [IH _] Hin Hk].
  - split; [apply incl_refl | left; reflexivity].
  - split.
    + intros r Hr. apply IH. eapply walk_descends; eauto.
    + right. rewrite has_dot_app. apply orb_true_r.
Qed.

(** The guard of the recursion tests the bare key, not the path, so the
    walk looks inside no property named [params] or [query_context], at
    any depth: the paths do not depend on what such a property holds. *)
Lemma walk_hidden_opaque (prefix : string) (l1 l2 : record) (k : string)
  (v v' : json) :
  hidden k = true ->
  map fst (walk (JObj (l1 ++ (k, v) :: l2)) prefix)
  = map fst (walk (JObj (l1 ++ (k, v') :: l2)) prefix).
Proof.
  intros Hk.
  assert (E : forall w, map fst (entry_rows prefix k w)
                        = map fst (pushRow (prefix ++ k) JNull)).
  { intros w. unfold entry_rows. rewrite Hk. unfold pushRow.
    destruct w; destruct (hidden (prefix ++ k)); reflexivity. }
  rewrite !walk_app, !walk_cons, !map_app.
  rewrite (E v), (E v'). reflexivity.
Qed.

(** C1 (the code departs from the claim). On the record of the example
    the walk emits [a], [a.b], [details] and [details.params] and nothing
    else: the nested path [details.params.y], which the claim lists and
    the comment in [pushRow] promises, is not emitted. *)
Lemma walk_example_stops_at_nested_params :
  paths_of example_log = ["a"; "a.b"; "details"; "details.params"]%string
  /\ ~ In "details.params.y"%string (paths_of example_log).
Proof.
  split; [reflexivity|].
  cbv. intros H. repeat (destruct H as [H|H]; [discriminate H|]). exact H.
Qed.

(** What the walk does on every record.  No row carries the bare path
    [params] or [query_context]; every property of the record and of every
    object the walk descends into gets a row under its dotted path,
    whatever its name; and the paths do not depend on what a property
    named [params] or [query_context] holds. *)
Lemma walk_hides_top_level_and_keeps_nested :
  paths_of example_log = ["a"; "a.b"; "details"; "details.params"]%string
  /\ (forall log : record,
         ~ In "params"%string (paths_of log)
         /\ ~ In "query_context"%string (paths_of log))
  /\ (forall (log : record) (prefix : string) (kv : record) (k : string)
             (v : json),
         descends log prefix kv ->
         In (k, v) kv ->
         (prefix = ""%string -> hidden k = false) ->
         In ((prefix ++ k)%string, v) (rows_of log))
  /\ (forall (prefix : string) (l1 l2 : record) (k : string) (v v' : json),
         hidden k = true ->
         map fst (walk (JObj (l1 ++ (k, v) :: l2)) prefix)
         = map fst (walk (JObj (l1 ++ (k, v') :: l2)) prefix)).
Proof.
  split; [reflexivity|]. split; [|split].
  - intros log. unfold paths_of.
    split; intros H; apply in_map_iff in H as ([p w] & E & H);
      simpl in E; subst p; apply walk_visible in H; discriminate H.
  - intros log prefix kv k v Hd Hin Htop.
    destruct (descends_rows _ _ _ Hd) as [Hincl Hpre].
    apply Hincl. apply walk_emits_entry; [exact Hin|].
    destruct Hpre as [-> | Hdot].
    + apply Htop. reflexivity.
    + apply dotted_visible. rewrite has_dot_app, Hdot. reflexivity.
  - exact walk_hidden_opaque.
Qed.

Lemma walk_hides_top_level_and_keeps_nested_witness :
  In ("details.params"%string, JObj [("y"%string, JNum 2)])
     (rows_of example_log)
  /\ map fst (walk (JObj ([] ++ ("params"%string, JObj [("y"%string, JNum 2)])
                             :: [])) "details.")
     = map fst (walk (JObj ([] ++ ("params"%string, JNull) :: []))
                     "details.").
Proof.
  destruct walk_hides_top_level_and_keeps_nested as (_ & _ & Hnested & Hopaque).
  split.
  - apply (Hnested example_log "details."%string
             [("params"%string, JObj [("y"%string, JNum 2)])]
             "params"%string).
    + apply (descends_into example_log ""%string example_log
               "details"%string
               [("params"%string, JObj [("y"%string, JNum 2)])]).
      * apply descends_top.
      * simpl. right. right. left. reflexivity.
      * reflexivity.
    + simpl. left. reflexivity.
    + intros H. discriminate H.
  - apply Hopaque. reflexivity.
Defined.

End AuditLogsFacts.

(** ** Analytics: the visible records *)

Module FilterFacts.
Import Analytics.

(** C2 (the code departs from the claim). For a record without
    [workspace_title] and [workspace_name] the list of buttons offers
    [unknown], but the filter files the record under [Unknown]: with
    [unknown] selected the record is dropped, and it is shown under the
    selection [Unknown]. *)
Theorem unknown_selection_drops_unfiled_log :
  forall (localeCompare : string -> string -> Z)
         (toLowerCase : string -> string) (now : Z)
         (Date_parse : string -> option Z) (rng : range),
    workspaces localeCompare toLowerCase [unfiled_log]
    = Some ["ALL"; "unknown"]%string
    /\ filtered now Date_parse toLowerCase [unfiled_log] "unknown" "" rng
       = []
    /\ filtered now Date_parse toLowerCase [unfiled_log] "Unknown" "" rng
       = [unfiled_log].
Proof.
  intros localeCompare toLowerCase now Date_parse rng.
  split; [|split; reflexivity].
  assert (Ht : title_of unfiled_log = Some "unknown"%string)
    by reflexivity.
  unfold workspaces. cbn [found_of]. rewrite Ht.
  cbn [set_add set_has existsb app]. unfold desiredOrder.
  cbn [fold_left place find].
  destruct (toLowerCase "unknown" =? toLowerCase "Production")%string;
    [reflexivity|].
  cbn [place find].
  destruct (toLowerCase "unknown" =? toLowerCase "Pre-Production")%string;
    [reflexivity|].
  cbn [place find].
  destruct (toLowerCase "unknown" =? toLowerCase "Sandbox")%string;
    [reflexivity|].
  cbn [place find]. rewrite String.eqb_refl. reflexivity.
Qed.

(** C5. A record whose timestamp parses to the moment eight days before
    now is dropped under [week], whatever the other filters say, and is not
    dropped by the time filter under [month]; a record whose timestamp is
    missing or does not parse is not dropped by the time filter under any
    range: it is shown exactly when the workspace and the query filters let
    it through. *)
Theorem time_range_filter :
  forall (now : Z) (Date_parse : string -> option Z)
         (toLowerCase : string -> string) (l : record)
         (workspace query : string),
    (ts_of Date_parse l = Some (now - eight_days)%Z ->
       keep now Date_parse toLowerCase workspace query week l = false
       /\ keep now Date_parse toLowerCase workspace query month l
          = negb (workspace_mismatch workspace l)
            && negb (query_mismatch toLowerCase query l))
    /\ ((field l "timestamp" = None
         \/ exists t, field l "timestamp" = Some t
                      /\ Date_parse (ToString t) = None) ->
        forall rng : range,
          keep now Date_parse toLowerCase workspace query rng l
          = negb (workspace_mismatch workspace l)
            && negb (query_mismatch toLowerCase query l)).
Proof.
  intros now Date_parse toLowerCase l workspace query. split.
  - intros Hts.
    assert (Hw : (now - eight_days <? cutoff now week)%Z = true)
      by (apply Z.ltb_lt; unfold cutoff, rangeMs, eight_days; lia).
    assert (Hm : (now - eight_days <? cutoff now month)%Z = false)
      by (apply Z.ltb_ge; unfold cutoff, rangeMs, eight_days; lia).
    unfold keep. rewrite Hts, Hw, Hm.
    destruct (workspace_mismatch workspace l),
             (query_mismatch toLowerCase query l); split; reflexivity.
  - intros Hno rng.
    assert (Hts : ts_of Date_parse l = None).
    { unfold ts_of. destruct Hno as [-> | (t & -> & Hp)]; [reflexivity|].
      rewrite Hp. destruct (truthy_json t); reflexivity. }
    unfold keep. rewrite Hts.
    destruct (workspace_mismatch workspace l),
             (query_mismatch toLowerCase query l); reflexivity.
Qed.

Lemma time_range_filter_witness :
  (keep 1000000000 parse_epoch ascii_lowercase "ALL" "" week old_log = false
   /\ keep 1000000000 parse_epoch ascii_lowercase "ALL" "" month old_log
      = true)
  /\ (forall rng,
         keep 1000000000 parse_epoch ascii_lowercase "ALL" "" rng undated_log
         = true).
Proof.
  destruct (time_range_filter 1000000000 parse_epoch ascii_lowercase
              old_log "ALL" "") as [Hold _].
  destruct (time_range_filter 1000000000 parse_epoch ascii_lowercase
              undated_log "ALL" "") as [_ Hnone].
  split.
  - apply Hold. vm_compute. reflexivity.
  - intros rng. rewrite Hnone; [reflexivity|].
    right. exists (JStr "yesterday"). split; vm_compute; reflexivity.
Defined.

End FilterFacts.

(** ** Analytics: the four series *)

Module MetricsFacts.
Import Analytics JSFacts.

Lemma count_all_snoc (ks : list string) (k : string) :
  count_all (ks ++ [k]) = bump k (count_all ks).
Proof. unfold count_all. rewrite fold_left_app. reflexivity. Qed.

Lemma count_of_snoc (ks : list string) (k k' : string) :
  count_of (ks ++ [k']) k
  = if (k' =? k)%string
    then Some (match count_of ks k with Some n => n | None => 0 end + 1)%Z
    else count_of ks k.
Proof.
  unfold count_of. rewrite count_occ_app. simpl.
  destruct (string_dec k' k) as [->|Hne].
  - rewrite String.eqb_refl.
    destruct (count_occ string_dec ks k) as [|n]; simpl; [reflexivity|].
    replace (n + 1)%nat with (S n) by lia. f_equal. lia.
  - destruct (String.eqb_spec k' k); [contradiction|].
    rewrite Nat.add_0_r. reflexivity.
Qed.

Lemma plain_snoc (ks : list string) (k : string) :
  plain (ks ++ [k]) <-> plain ks /\ inherited k = false.
Proof.
  unfold plain. rewrite Forall_app. split.
  - intros [H1 H2]. inversion H2; subst. tauto.
  - intros [H1 H2]. split; [exact H1 | constructor; [exact H2 | constructor]].
Qed.

(** A label that [Object.prototype] does not know is counted as in a
    map. *)
Lemma bump_plain (k : string) (m : counts) :
  inherited k = false ->
  bump k m
  = obj_set k (match lookup k m with
               | Some (Num n) => Num ((if (n =? 0)%Z then 0 else n) + 1)
               | Some (FunctionText f ones) => FunctionText f (S ones)
               | None => Num 1
               end) m.
Proof.
  intros Hk. unfold bump. destruct (lookup k m) as [[n|f ones]|];
    try reflexivity.
  rewrite Hk. unfold inherited in Hk. apply orb_false_iff in Hk as [-> _].
  reflexivity.
Qed.

(** One [bump] leaves the object as it is or sets the property. *)
Lemma bump_sets (k : string) (m : counts) :
  bump k m = m \/ exists v, bump k m = obj_set k v m.
Proof.
  unfold bump. destruct (lookup k m) as [[n|f ones]|]; eauto.
  destruct (k =? "__proto__")%string; [left; reflexivity|].
  destruct (inherited k); eauto.
Qed.

(** Every label is counted once per occurrence. *)
Lemma count_all_lookup (ks : list string) (k : string) :
  plain ks ->
  lookup k (count_all ks) = option_map Num (count_of ks k).
Proof.
  induction ks as [|k' ks IH] using rev_ind; intros Hp.
  - reflexivity.
  - apply plain_snoc in Hp as [Hp Hk'].
    rewrite count_all_snoc, count_of_snoc, (bump_plain _ _ Hk').
    rewrite lookup_obj_set.
    destruct (String.eqb_spec k' k) as [->|Hne]; [|exact (IH Hp)].
    rewrite (IH Hp). destruct (count_of ks k) as [n|]; simpl; [|reflexivity].
    destruct (Z.eqb_spec n 0) as [->|_]; reflexivity.
Qed.

Lemma key_order_trans (a b c : string) :
  key_order a b -> key_order b c -> key_order a c.
Proof.
  unfold key_order.
  destruct (array_index a), (array_index b), (array_index c);
    try tauto; lia.
Qed.

Lemma insert_index_sorted {A : Type} (i : N) (k : string) (v : A)
  (m : list (string * A)) :
  array_index k = Some i ->
  StronglySorted key_order (map fst m) ->
  StronglySorted key_order (map fst (insert_index i k v m)).
Proof.
  intros Hi. induction m as [|[k0 v0] m IH]; simpl; intros Hs.
  - repeat constructor.
  - inversion Hs as [|? ? Hs' Hall]; subst.
    assert (Hstop : key_order k k0 ->
                    StronglySorted key_order (k :: k0 :: map fst m)).
    { intros Hk. constructor; [exact Hs|]. constructor; [exact Hk|].
      eapply Forall_impl; [|exact Hall].
      intros x Hx. eapply key_order_trans; eassumption. }
    destruct (array_index k0) as [j|] eqn:Ej.
    + destruct (N.ltb_spec j i) as [Hlt|Hge]; simpl.
      * constructor; [apply IH; exact Hs'|].
        assert (Hk0 : key_order k0 k)
          by (unfold key_order; rewrite Ej, Hi; lia).
        clear IH Hs Hs' Hstop. induction m as [|[k1 v1] m IHm]; simpl.
        -- constructor; [exact Hk0 | constructor].
        -- inversion Hall as [|? ? H1 Hall']; subst.
           destruct (array_index k1) as [j1|];
             [destruct (j1 <? i)%N|]; simpl.
           ++ constructor; [exact H1 | apply IHm; exact Hall'].
           ++ constructor; [exact Hk0 | exact Hall].
           ++ constructor; [exact Hk0 | exact Hall].
      * apply Hstop. unfold key_order. rewrite Hi, Ej. exact Hge.
    + apply Hstop. unfold key_order. rewrite Hi, Ej. exact I.
Qed.

Lemma append_key_sorted (k : string) (keys : list string) :
  array_index k = None ->
  StronglySorted key_order keys ->
  StronglySorted key_order (keys ++ [k]).
Proof.
  intros Hk. induction 1 as [|x keys Hs IH Hall]; simpl.
  - repeat constructor.
  - constructor; [exact IH|].
    apply Forall_app. split; [exact Hall|].
    constructor; [|constructor].
    unfold key_order. rewrite Hk. destruct (array_index x); exact I.
Qed.

Lemma keys_obj_set {A : Type} (k : string) (v : A) (m : list (string * A)) :
  map fst (obj_set k v m)
  = if has_prop k m then map fst m
    else match array_index k with
         | Some i => map fst (insert_index i k v m)
         | None => map fst m ++ [k]
         end.
Proof.
  unfold obj_set. destruct (has_prop k m).
  - apply keys_replace_prop.
  - destruct (array_index k); [reflexivity|].
    rewrite map_app. reflexivity.
Qed.

(** The keys of a counting object enumerate the array indices first, in
    ascending order, and then the other labels. *)
Lemma count_all_key_order (ks : list string) :
  StronglySorted key_order (map fst (count_all ks)).
Proof.
  induction ks as [|k ks IH] using rev_ind.
  - constructor.
  - rewrite count_all_snoc.
    destruct (bump_sets k (count_all ks)) as [->|[v ->]]; [exact IH|].
    rewrite keys_obj_set.
    destruct (has_prop k (count_all ks)); [exact IH|].
    destruct (array_index k) as [i|] eqn:Ei.
    + apply insert_index_sorted; assumption.
    + apply append_key_sorted; assumption.
Qed.

Lemma first_occurrences_snoc (ks : list string) (k : string) :
  first_occurrences (ks ++ [k])
  = if in_dec string_dec k ks then first_occurrences ks
    else first_occurrences ks ++ [k].
Proof.
  unfold first_occurrences. rewrite rev_unit. simpl.
  destruct (in_dec string_dec k (rev ks)) as [Hin|Hout];
    destruct (in_dec string_dec k ks) as [Hin'|Hout']; try reflexivity.
  - apply in_rev in Hin. contradiction.
  - apply in_rev in Hin'. contradiction.
Qed.

Lemma keys_insert_index_others {A : Type} (i : N) (k : string) (v : A)
  (m : list (string * A)) :
  is_index k = true ->
  filter (fun x => negb (is_index x)) (map fst (insert_index i k v m))
  = filter (fun x => negb (is_index x)) (map fst m).
Proof.
  intros Hk. induction m as [|[k0 v0] m IH]; simpl.
  - rewrite Hk. reflexivity.
  - destruct (array_index k0) as [j|] eqn:Ej;
      [destruct (j <? i)%N|]; simpl; rewrite ?Hk; simpl; try reflexivity.
    rewrite IH. reflexivity.
Qed.

Lemma count_all_has (ks : list string) (k : string) :
  plain ks ->
  has_prop k (count_all ks) = true <-> In k ks.
Proof.
  intros Hp. unfold has_prop. rewrite (count_all_lookup _ _ Hp).
  unfold count_of. rewrite (count_occ_In string_dec).
  destruct (count_occ string_dec ks k); simpl; split; intros H;
    try discriminate; try lia; reflexivity.
Qed.

(** The labels that are not array indices keep the order in which they
    first occurred. *)
Lemma count_all_others_in_first_occurrence_order (ks : list string) :
  plain ks ->
  filter (fun k => negb (is_index k)) (map fst (count_all ks))
  = first_occurrences (filter (fun k => negb (is_index k)) ks).
Proof.
  induction ks as [|k ks IH] using rev_ind; intros Hp.
  - reflexivity.
  - apply plain_snoc in Hp as [Hp Hk]. specialize (IH Hp).
    rewrite count_all_snoc, (bump_plain _ _ Hk), keys_obj_set.
    rewrite filter_app. simpl.
    destruct (has_prop k (count_all ks)) eqn:Eh.
    + apply (count_all_has _ _ Hp) in Eh.
      destruct (is_index k) eqn:Ek; simpl.
      * rewrite app_nil_r. exact IH.
      * rewrite first_occurrences_snoc.
        destruct (in_dec string_dec k _) as [_|Hout]; [exact IH|].
        exfalso. apply Hout. apply filter_In. split; [exact Eh|].
        rewrite Ek. reflexivity.
    + assert (Hout : ~ In k ks).
      { intros Hin. apply (count_all_has _ _ Hp) in Hin. congruence. }
      unfold is_index at 2 3. destruct (array_index k) as [i|] eqn:Ei; simpl.
      * rewrite app_nil_r, keys_insert_index_others; [exact IH|].
        unfold is_index. rewrite Ei. reflexivity.
      * rewrite filter_app. simpl. unfold is_index at 2. rewrite Ei. simpl.
        rewrite first_occurrences_snoc.
        destruct (in_dec string_dec k _) as [Hin|_];
          [|rewrite IH; reflexivity].
        apply filter_In in Hin. tauto.
Qed.

(** *** The counts are positive numbers *)

Lemma Forall_obj_set {A : Type} (Q : A -> Prop) (k : string) (v : A)
  (m : list (string * A)) :
  Q v -> Forall (fun e => Q (snd e)) m ->
  Forall (fun e => Q (snd e)) (obj_set k v m).
Proof.
  intros Hv Hm. unfold obj_set. destruct (has_prop k m).
  - induction Hm as [|[k0 v0] m H0 Hm IHm]; simpl; [constructor|].
    destruct (k0 =? k)%string; constructor; simpl; auto.
  - destruct (array_index k) as [i|].
    + induction Hm as [|[k0 v0] m H0 Hm IHm]; simpl.
      * constructor; [exact Hv | constructor].
      * destruct (array_index k0) as [j|]; [destruct (j <? i)%N|];
          repeat constructor; simpl; auto.
    + apply Forall_app. split; [exact Hm|].
      constructor; [exact Hv | constructor].
Qed.

Lemma counts_positive (ks : list string) :
  plain ks ->
  Forall (fun e => exists n, snd e = Num n /\ (1 <= n)%Z) (count_all ks).
Proof.
  induction ks as [|k ks IH] using rev_ind; intros Hp; [constructor|].
  apply plain_snoc in Hp as [Hp Hk]. specialize (IH Hp).
  rewrite count_all_snoc, (bump_plain _ _ Hk).
  apply (Forall_obj_set (fun c => exists n, c = Num n /\ (1 <= n)%Z));
    [|exact IH].
  destruct (lookup k (count_all ks)) as [c|] eqn:E.
  - apply lookup_In in E. rewrite Forall_forall in IH.
    destruct (IH _ E) as (n & Hn & Hpos). simpl in Hn. subst c.
    eexists. split; [reflexivity|]. destruct (Z.eqb_spec n 0); lia.
  - exists 1%Z. split; [reflexivity | lia].
Qed.

Lemma ranked_numbers (ks : list string) :
  plain ks ->
  Forall (fun d => exists n, value d = Num n /\ (1 <= n)%Z)
         (map datum (count_all ks)).
Proof.
  intros Hp. apply Forall_map. exact (counts_positive ks Hp).
Qed.

(** *** Ranking *)

Lemma insert_sorted_desc (x : BarDatum) (l : list BarDatum) :
  (exists n, value x = Num n) ->
  Forall (fun d => exists n, value d = Num n) l ->
  StronglySorted (fun a b => count_le (value b) (value a)) l ->
  StronglySorted (fun a b => count_le (value b) (value a))
                 (sort_insert by_value_desc x l).
Proof.
  intros [vx Hx] Hnum. induction 1 as [|y l Hs IH Hall]; simpl.
  - repeat constructor.
  - inversion Hnum as [|? ? [vy Hy] Hnum']; subst.
    unfold by_value_desc at 1. rewrite Hx, Hy.
    destruct (Z.leb_spec (vy - vx) 0) as [Hle|Hgt].
    + constructor; [constructor; assumption|].
      constructor; [rewrite Hx, Hy; simpl; lia|].
      rewrite Forall_forall in *. intros z Hz.
      specialize (Hall z Hz). destruct (Hnum' z Hz) as [vz Ez].
      rewrite Ez, Hx, Hy in *. simpl in *. lia.
    + constructor; [exact (IH Hnum')|].
      eapply Permutation_Forall;
        [apply Permutation_sym, sort_insert_perm|].
      constructor; [rewrite Hx, Hy; simpl; lia | exact Hall].
Qed.

Lemma sort_sorted_desc (l : list BarDatum) :
  Forall (fun d => exists n, value d = Num n) l ->
  StronglySorted (fun a b => count_le (value b) (value a))
                 (sort_by by_value_desc l).
Proof.
  induction 1 as [|x l Hx Hl IH]; simpl.
  - constructor.
  - apply insert_sorted_desc; [exact Hx | | exact IH].
    eapply Permutation_Forall; [apply Permutation_sym, sort_by_perm|].
    exact Hl.
Qed.

Lemma toSorted_desc (ks : list string) :
  plain ks ->
  StronglySorted (fun a b => count_le (value b) (value a))
                 (toSorted (count_all ks)).
Proof.
  intros Hp. unfold toSorted. apply sort_sorted_desc.
  eapply Forall_impl; [|exact (ranked_numbers ks Hp)].
  intros d (n & Hn & _). exists n. exact Hn.
Qed.

Lemma insert_stable (n : Z) (x : BarDatum) (l : list BarDatum) :
  filter (fun d => is_num n (value d)) (sort_insert by_value_desc x l)
  = filter (fun d => is_num n (value d)) (x :: l).
Proof.
  induction l as [|y l IH]; simpl.
  - reflexivity.
  - destruct (Z.leb_spec (by_value_desc x y) 0) as [Hle|Hgt].
    + reflexivity.
    + simpl. rewrite IH. simpl.
      unfold by_value_desc in Hgt.
      destruct (value x) as [vx|fx ox], (value y) as [vy|fy oy];
        simpl; try reflexivity; try lia.
      destruct (Z.eqb_spec vx n) as [Ex|Ex];
        destruct (Z.eqb_spec vy n) as [Ey|Ey];
        try reflexivity.
      lia.
Qed.

(** Entries of equal count keep the order of the counting object. *)
Lemma toSorted_stable (n : Z) (m : counts) :
  filter (fun d => is_num n (value d)) (toSorted m)
  = filter (fun d => is_num n (value d)) (map datum m).
Proof.
  unfold toSorted. induction (map datum m) as [|x l IH].
  - reflexivity.
  - cbn [sort_by]. rewrite insert_stable. simpl. rewrite IH. reflexivity.
Qed.

(** *** The four maps are four independent counts *)

Lemma bump_all_app (ks1 ks2 : list string) (m : counts) :
  fold_left (fun m k => bump k m) (ks1 ++ ks2) m
  = fold_left (fun m k => bump k m) ks2
              (fold_left (fun m k => bump k m) ks1 m).
Proof. apply fold_left_app. Qed.

Lemma tally_maps (logs : list record) (ms : maps) :
  let bumps ks m := fold_left (fun m k => bump k m) ks m in
  chartMap (fold_left tally logs ms) = bumps (chart_labels logs) (chartMap ms)
  /\ dashMap (fold_left tally logs ms) = bumps (dash_labels logs) (dashMap ms)
  /\ userMap (fold_left tally logs ms) = bumps (user_labels logs) (userMap ms)
  /\ actionMap (fold_left tally logs ms)
     = bumps (action_labels logs) (actionMap ms).
Proof.
  revert ms. induction logs as [|l logs IH]; intros ms; simpl.
  - repeat split.
  - destruct (IH (tally ms l)) as (Hc & Hd & Hu & Ha).
    rewrite Hc, Hd, Hu, Ha. rewrite !bump_all_app.
    unfold tally; simpl.
    repeat split.
    + destruct (strict_eq_string (action_of l) "chart:view"
                && truthy (field l "entity_name")); reflexivity.
    + destruct (strict_eq_string (action_of l) "dashboard:view"
                && truthy (field l "entity_name")); reflexivity.
    + destruct (truthy (action_of l)); reflexivity.
Qed.

Lemma metrics_counts (logs : list record) :
  chartViews (metrics logs) = toSorted (count_all (chart_labels logs))
  /\ dashboardViews (metrics logs) = toSorted (count_all (dash_labels logs))
  /\ activeUsers (metrics logs) = toSorted (count_all (user_labels logs))
  /\ actionCounts (metrics logs) = toSorted (count_all (action_labels logs)).
Proof.
  destruct logs as [|l logs]; [repeat split|].
  destruct (tally_maps (l :: logs) no_maps) as (Hc & Hd & Hu & Ha).
  unfold metrics. cbn [chartViews dashboardViews activeUsers actionCounts].
  rewrite Hc, Hd, Hu, Ha. repeat split.
Qed.

(** A label that names a function of [Object.prototype] is not counted as
    a number, and [__proto__] is not counted at all. *)
Lemma inherited_labels_are_not_counted :
  count_all ["constructor"; "__proto__"; "A"; "constructor"]%string
  = [ ("constructor"%string, FunctionText "constructor" 2);
      ("A"%string, Num 1) ].
Proof. reflexivity. Qed.

(** C6 (as stated, refuted). Two charts named [2] and [1], viewed once
    each in that order, are ranked [1] before [2]: the tie is not kept in
    the order of first occurrence, which is [2] before [1]. *)
Lemma numeral_labels_tie_not_in_insertion_order :
  chartViews (metrics numeral_example)
  = [ {| label := "1"; value := Num 1 |};
      {| label := "2"; value := Num 1 |} ]
  /\ first_occurrences (chart_labels numeral_example) = ["2"; "1"]%string.
Proof. split; reflexivity. Qed.

(** C6 (amended). On the example the chart series is [A] with 2 and [B]
    with 1.  For records whose numbers are safe integers, each of the four
    series is the ranking of the counting object of its labels.  When no
    label names a property of [Object.prototype],
    every label occurs with the number of its occurrences, the series is a
    rearrangement of the counting object's entries that is descending by
    count, and entries of equal count keep the enumeration order of the
    counting object, which lists the labels that are array indices first,
    in ascending order, and then the other labels in the order of their
    first occurrence. *)
Theorem metrics_series_ranked :
  chartViews (metrics chart_example)
  = [ {| label := "A"; value := Num 2 |};
      {| label := "B"; value := Num 1 |} ]
  /\ (forall logs : list record,
         Forall (fun l => safe (JObj l) = true) logs ->
         chartViews (metrics logs) = toSorted (count_all (chart_labels logs))
         /\ dashboardViews (metrics logs)
            = toSorted (count_all (dash_labels logs))
         /\ activeUsers (metrics logs)
            = toSorted (count_all (user_labels logs))
         /\ actionCounts (metrics logs)
            = toSorted (count_all (action_labels logs)))
  /\ (forall ks : list string,
         plain ks ->
         (forall k, lookup k (count_all ks) = option_map Num (count_of ks k))
         /\ Permutation (toSorted (count_all ks)) (map datum (count_all ks))
         /\ StronglySorted (fun a b => count_le (value b) (value a))
                           (toSorted (count_all ks))
         /\ (forall n : Z,
                filter (fun d => is_num n (value d))
                       (toSorted (count_all ks))
                = filter (fun d => is_num n (value d))
                         (map datum (count_all ks)))
         /\ StronglySorted key_order (map fst (count_all ks))
         /\ filter (fun k => negb (is_index k)) (map fst (count_all ks))
            = first_occurrences (filter (fun k => negb (is_index k)) ks)).
Proof.
  split; [reflexivity|]. split; [intros logs _; exact (metrics_counts logs)|].
  intros ks Hp. repeat split.
  - intros k. apply count_all_lookup. exact Hp.
  - apply sort_by_perm.
  - apply toSorted_desc. exact Hp.
  - intros n. apply toSorted_stable.
  - apply count_all_key_order.
  - apply count_all_others_in_first_occurrence_order. exact Hp.
Qed.

Lemma metrics_series_ranked_witness :
  chartViews (metrics numeral_example)
  = toSorted (count_all (chart_labels numeral_example))
  /\ lookup "A"%string (count_all ["A"; "B"; "A"]%string) = Some (Num 2)
  /\ StronglySorted (fun a b => count_le (value b) (value a))
                    (toSorted (count_all ["B"; "A"; "A"]%string)).
Proof.
  destruct metrics_series_ranked as (_ & Hseries & H).
  split; [|split].
  - apply (Hseries numeral_example). repeat constructor.
  - apply (H ["A"; "B"; "A"]%string). repeat constructor.
  - apply (H ["B"; "A"; "A"]%string). repeat constructor.
Defined.

End MetricsFacts.

(** ** Users view: users derived from team members *)

Module UsersFacts.
Import Users.

Lemma same_key_sym (a b : json) : same_key a b = same_key b a.
Proof.
  destruct a, b; simpl; try reflexivity.
  - destruct b, b0; reflexivity.
  - apply Z.eqb_sym.
  - apply String.eqb_sym.
Qed.

Lemma same_key_trans (a b c : json) :
  same_key a b = true -> same_key b c = true -> same_key a c = true.
Proof.
  destruct a, b; simpl; try discriminate; destruct c; simpl;
    try discriminate; try reflexivity.
  - intros H1 H2. apply Bool.eqb_prop in H1, H2. subst.
    apply Bool.eqb_reflx.
  - rewrite !Z.eqb_eq. congruence.
  - rewrite !String.eqb_eq. congruence.
Qed.


















End UsersFacts.

(** ** Fetcher: pagination *)

Module PaginationFacts.
Import Fetcher.

Section Loop.

Context {World : Type}.
Variable api : string -> World -> option response * World.

Lemma call_requests (relative : string) (s : run World) :
  requests (snd (call api relative s)) = requests s ++ [relative].
Proof. unfold call. destruct (api relative (world s)). reflexivity. Qed.

Lemma call_length (relative : string) (s s' : run World)
  (res : option response) :
  call api relative s = (res, s') ->
  List.length (requests s') = S (List.length (requests s)).
Proof.
  intros E. pose proof (call_requests relative s) as H.
  rewrite E in H. simpl in H. rewrite H, length_app. simpl. lia.
Qed.

(** An empty page ends the loop with the request that fetched it. *)
Lemma paginate_empty_page (fuel : nat) (endpoint : string)
  (pageSize page : Z) (out : list json) (s s1 : run World)
  (res : response) (payload : json) :
  call api (paged_url endpoint (page + 1) pageSize) s = (Some res, s1) ->
  ok res = true -> body res = Some payload -> page_items payload = [] ->
  paginate api (S fuel) endpoint pageSize page out s
  = Some (if (page + 1 =? 1)%Z then Throw "Empty first page" else Ok out, s1).
Proof.
  intros Hcall Hok Hbody Hitems. simpl. rewrite Hcall, Hok, Hbody, Hitems.
  simpl. unfold ok in Hok. apply andb_true_iff in Hok as [H1 H2].
  destruct (Z.eqb_spec (status res) 404) as [E|_];
    [rewrite E in H2; discriminate|].
  destruct (page + 1 =? 1)%Z; reflexivity.
Qed.

(** A short page ends the loop with the request that fetched it. *)
Lemma paginate_short_page (fuel : nat) (endpoint : string)
  (pageSize page : Z) (out : list json) (s s1 : run World)
  (res : response) (payload : json) :
  call api (paged_url endpoint (page + 1) pageSize) s = (Some res, s1) ->
  ok res = true -> body res = Some payload ->
  page_items payload <> [] ->
  (Z.of_nat (List.length (page_items payload)) < pageSize)%Z ->
  paginate api (S fuel) endpoint pageSize page out s
  = Some (Ok (out ++ page_items payload), s1).
Proof.
  intros Hcall Hok Hbody Hitems Hshort. simpl. rewrite Hcall, Hok, Hbody.
  simpl. unfold ok in Hok. apply andb_true_iff in Hok as [H1 H2].
  destruct (Z.eqb_spec (status res) 404) as [E|_];
    [rewrite E in H2; discriminate|].
  destruct (page_items payload) as [|x xs] eqn:E; [contradiction|].
  apply Z.ltb_lt in Hshort. rewrite Hshort, orb_true_r. reflexivity.
Qed.

(** Entered with the counter at [page], the loop ends after at most
    [51 - page] requests. *)
Lemma paginate_bounded (fuel : nat) :
  forall (endpoint : string) (pageSize page : Z) (out : list json)
         (s : run World),
    (0 <= page <= 50)%Z -> (51 <= Z.of_nat fuel + page)%Z ->
    exists r s',
      paginate api fuel endpoint pageSize page out s = Some (r, s')
      /\ (Z.of_nat (List.length (requests s'))
          <= Z.of_nat (List.length (requests s)) + (51 - page))%Z.
Proof.
  induction fuel as [|fuel IH]; intros endpoint pageSize page out s Hp Hf.
  - lia.
  - cbn [paginate].
    destruct (call api (paged_url endpoint (page + 1) pageSize) s)
      as [res s1] eqn:Ecall.
    apply call_length in Ecall.
    assert (Hone : (Z.of_nat (List.length (requests s1))
                    <= Z.of_nat (List.length (requests s)) + (51 - page))%Z)
      by lia.
    destruct res as [res|]; [|eauto].
    destruct (status res =? 404)%Z; [eauto|].
    destruct (negb (ok res)); [eauto|].
    destruct (body res) as [payload|]; [|eauto].
    destruct (page_items payload) as [|x xs].
    + destruct (page + 1 =? 1)%Z; eauto.
    + destruct (negb (truthy (opt_prop (Some payload) "result"))
                || (Z.of_nat (List.length (x :: xs)) <? pageSize)%Z);
        [eauto|].
      destruct (Z.gtb_spec (page + 1) 50) as [Hgt|Hle]; [eauto|].
      destruct (IH endpoint pageSize (page + 1)%Z (out ++ x :: xs) s1)
        as (r & s' & E & Hlen); [lia | lia |].
      exists r, s'. split; [exact E | lia].
Qed.

Lemma tryEndpoints_bounded (fuel : nat) (pageSize : Z) :
  (51 <= fuel)%nat ->
  forall (candidates : list string) (s : run World),
    exists out s',
      tryEndpoints api fuel candidates true pageSize s = Some (out, s')
      /\ (List.length (requests s')
          <= List.length (requests s) + 51 * List.length candidates)%nat.
Proof.
  intros Hf candidates.
  induction candidates as [|endpoint rest IH]; intros s; simpl.
  - exists [], s. split; [reflexivity | lia].
  - destruct (paginate_bounded fuel endpoint pageSize 0 [] s)
      as (r & s1 & E & Hlen); [lia | lia |].
    rewrite E.
    destruct (IH s1) as (out' & s' & E' & Hlen').
    destruct r as [[|x out]|msg].
    + exists out', s'. split; [exact E' | lia].
    + exists (x :: out), s1. split; [reflexivity | lia].
    + exists out', s'. split; [exact E' | lia].
Qed.

(** Three pages under [result], two full and one short, are gathered with
    three requests. *)
Lemma three_result_pages (fuel : nat) (endpoint : string) (pageSize : Z)
  (p1 p2 p3 : list json) (r1 r2 r3 : response) (w0 w1 w2 w3 : World)
  (candidates : list string) :
  (3 <= fuel)%nat ->
  Z.of_nat (List.length p1) = pageSize ->
  Z.of_nat (List.length p2) = pageSize ->
  (0 < Z.of_nat (List.length p3) < pageSize)%Z ->
  is_result_page r1 p1 -> is_result_page r2 p2 -> is_result_page r3 p3 ->
  api (paged_url endpoint 1 pageSize) w0 = (Some r1, w1) ->
  api (paged_url endpoint 2 pageSize) w1 = (Some r2, w2) ->
  api (paged_url endpoint 3 pageSize) w2 = (Some r3, w3) ->
  tryEndpoints api fuel (endpoint :: candidates) true pageSize
               {| world := w0; requests := [] |}
  = Some (p1 ++ p2 ++ p3,
          {| world := w3;
             requests := [ paged_url endpoint 1 pageSize;
                           paged_url endpoint 2 pageSize;
                           paged_url endpoint 3 pageSize ] |}).
Proof.
  intros Hf H1 H2 [H3 H3'] (Hok1 & f1 & Hb1 & Hl1) (Hok2 & f2 & Hb2 & Hl2)
         (Hok3 & f3 & Hb3 & Hl3) A1 A2 A3.
  destruct fuel as [|[|[|fuel]]]; try lia.
  assert (Hnot404 : forall r, ok r = true -> (status r =? 404)%Z = false).
  { intros r Hr. unfold ok in Hr. apply andb_true_iff in Hr as [_ Hr].
    apply Z.leb_le in Hr. apply Z.eqb_neq. lia. }
  assert (Hp : pageSize <> 0%Z) by lia.
  destruct p1 as [|x1 p1]; [simpl in H1; lia|].
  destruct p2 as [|x2 p2]; [simpl in H2; lia|].
  destruct p3 as [|x3 p3]; [simpl in H3; lia|].
  cbn [tryEndpoints paginate]. unfold call. cbn [world requests].
  change (0 + 1)%Z with 1%Z. rewrite A1. cbn [world requests].
  rewrite (Hnot404 _ Hok1), Hok1, Hb1. unfold page_items, opt_prop, prop.
  rewrite Hl1. cbn [as_array truthy truthy_json negb orb].
  rewrite H1, Z.ltb_irrefl. cbn [Z.gtb Z.compare Pos.compare Pos.compare_cont].
  change (1 + 1)%Z with 2%Z. rewrite A2. cbn [world requests].
  rewrite (Hnot404 _ Hok2), Hok2, Hb2. rewrite Hl2.
  cbn [as_array truthy truthy_json negb orb].
  rewrite H2, Z.ltb_irrefl. cbn [Z.gtb Z.compare Pos.compare Pos.compare_cont].
  change (2 + 1)%Z with 3%Z. rewrite A3. cbn [world requests].
  rewrite (Hnot404 _ Hok3), Hok3, Hb3. rewrite Hl3.
  cbn [as_array truthy truthy_json negb orb].
  apply Z.ltb_lt in H3'. rewrite H3'. cbn [app].
  rewrite <- app_assoc. reflexivity.
Qed.

End Loop.

(** C4 (as stated, refuted). Against a server that keeps answering with
    full pages under [result], the loop sends 51 requests to the one
    candidate: the last of them asks for page 51. *)
Lemma fifty_first_page_is_requested :
  exists out s',
    tryEndpoints endless 60 ["/api/v1/user/"]%string true 100
                 {| world := tt; requests := [] |} = Some (out, s')
    /\ List.length (requests s') = 51%nat
    /\ nth 50 (requests s') ""%string
       = paged_url "/api/v1/user/" 51 100.
Proof.
  eexists. eexists. split; [vm_compute; reflexivity|].
  split; vm_compute; reflexivity.
Qed.

(** The same over the script's own [api]: after the one exchange of
    credentials, 51 GET requests go to the candidate, the last one for
    page 51 and with the bearer token. *)
Lemma fifty_first_page_over_fetch :
  exists out s',
    tryEndpoints (api generous "tok" "sec" None "https://api.app.preset.io")
                 60 ["/api/v1/user/"]%string true 100
                 {| world := (fresh_session, {| server := tt; sent := [] |});
                    requests := [] |} = Some (out, s')
    /\ List.length (filter (fun req => match verb req with
                                       | GET => true
                                       | POST => false
                                       end) (sent (snd (world s')))) = 51%nat
    /\ List.length (sent (snd (world s'))) = 52%nat
    /\ last (sent (snd (world s'))) (primary_request "" "" "")
       = {| url := ("https://api.app.preset.io"
                    ++ paged_url "/api/v1/user/" 51 100)%string;
            verb := GET;
            sent_headers := [ Content_Type "application/json";
                              Accept "application/json";
                              Authorization_Bearer "t" ];
            payload := None |}.
Proof.
  eexists. eexists. split; [vm_compute; reflexivity|].
  repeat split; vm_compute; reflexivity.
Qed.


(** C4 (amended). The pagination loop ends with the request that fetched
    an empty page or a page shorter than [pageSize], and it ends once the
    page counter exceeds 50: with fuel for 51 rounds it always returns,
    after at most 51 requests to a candidate endpoint. *)
Theorem pagination_stops :
  forall (World : Type) (api : string -> World -> option response * World),
    (forall fuel endpoint pageSize page out s s1 res payload,
        call api (paged_url endpoint (page + 1) pageSize) s = (Some res, s1) ->
        ok res = true -> body res = Some payload ->
        page_items payload = [] ->
        paginate api (S fuel) endpoint pageSize page out s
        = Some (if (page + 1 =? 1)%Z then Throw "Empty first page"
                else Ok out, s1))
    /\ (forall fuel endpoint pageSize page out s s1 res payload,
           call api (paged_url endpoint (page + 1) pageSize) s
           = (Some res, s1) ->
           ok res = true -> body res = Some payload ->
           page_items payload <> [] ->
           (Z.of_nat (List.length (page_items payload)) < pageSize)%Z ->
           paginate api (S fuel) endpoint pageSize page out s
           = Some (Ok (out ++ page_items payload), s1))
    /\ (forall fuel endpoint pageSize s,
           (51 <= fuel)%nat ->
           exists r s',
             paginate api fuel endpoint pageSize 0 [] s = Some (r, s')
             /\ (List.length (requests s')
                 <= List.length (requests s) + 51)%nat)
    /\ (forall fuel candidates pageSize s,
           (51 <= fuel)%nat ->
           exists out s',
             tryEndpoints api fuel candidates true pageSize s
             = Some (out, s')
             /\ (List.length (requests s')
                 <= List.length (requests s)
                    + 51 * List.length candidates)%nat).
Proof.
  intros World api. split; [|split; [|split]].
  - intros. eapply paginate_empty_page; eassumption.
  - intros. eapply paginate_short_page; eassumption.
  - intros fuel endpoint pageSize s Hf.
    destruct (paginate_bounded api fuel endpoint pageSize 0 [] s)
      as (r & s' & E & Hlen); [lia | lia |].
    exists r, s'. split; [exact E | lia].
  - intros fuel candidates pageSize s Hf.
    apply tryEndpoints_bounded. exact Hf.
Qed.

Lemma pagination_stops_witness :
  exists out s',
    tryEndpoints endless 51 ["/api/v1/user/"; "/api/v1/users"]%string
                 true 100 {| world := tt; requests := [] |} = Some (out, s')
    /\ (List.length (requests s') <= 0 + 51 * 2)%nat.
Proof.
  apply (proj2 (proj2 (proj2 (pagination_stops unit endless)))
           51%nat ["/api/v1/user/"; "/api/v1/users"]%string 100%Z
           {| world := tt; requests := [] |}).
  apply Nat.le_refl.
Defined.

(** C7 (as stated, refuted). Pages of sizes 100, 100 and 40 that arrive
    under [data] are not gathered: the loop returns the first 100 records
    after a single request. *)
Lemma data_pages_stop_after_first :
  exists out s',
    tryEndpoints scripted 60 ["/api/v1/user/"]%string true 100
      {| world := [ data_page (repeat JNull 100);
                    data_page (repeat JNull 100);
                    data_page (repeat JNull 40) ];
         requests := [] |} = Some (out, s')
    /\ List.length out = 100%nat
    /\ requests s' = [ paged_url "/api/v1/user/" 1 100 ].
Proof.
  eexists. eexists. split; [vm_compute; reflexivity|].
  split; vm_compute; reflexivity.
Qed.

(** C7 (amended). When a candidate answers the requests for pages 1, 2
    and 3 with pages of 100, 100 and 40 records under [result], and
    [pageSize] is 100, the probe returns the 240 records in order and has
    sent exactly these three requests: no fourth page is asked for. *)
Theorem result_pages_100_100_40 :
  forall (World : Type) (api : string -> World -> option response * World)
         (fuel : nat) (endpoint : string) (candidates : list string)
         (p1 p2 p3 : list json) (r1 r2 r3 : response) (w0 w1 w2 w3 : World),
    (3 <= fuel)%nat ->
    List.length p1 = 100%nat -> List.length p2 = 100%nat ->
    List.length p3 = 40%nat ->
    is_result_page r1 p1 -> is_result_page r2 p2 -> is_result_page r3 p3 ->
    api (paged_url endpoint 1 100) w0 = (Some r1, w1) ->
    api (paged_url endpoint 2 100) w1 = (Some r2, w2) ->
    api (paged_url endpoint 3 100) w2 = (Some r3, w3) ->
    tryEndpoints api fuel (endpoint :: candidates) true 100
                 {| world := w0; requests := [] |}
    = Some (p1 ++ p2 ++ p3,
            {| world := w3;
               requests := [ paged_url endpoint 1 100;
                             paged_url endpoint 2 100;
                             paged_url endpoint 3 100 ] |})
    /\ List.length (p1 ++ p2 ++ p3) = 240%nat.
Proof.
  intros World api fuel endpoint candidates p1 p2 p3 r1 r2 r3 w0 w1 w2 w3
         Hf H1 H2 H3 R1 R2 R3 A1 A2 A3.
  split.
  - apply three_result_pages with (r1 := r1) (r2 := r2) (r3 := r3)
                                  (w1 := w1) (w2 := w2);
      try assumption; lia.
  - rewrite !length_app. lia.
Qed.

Lemma result_pages_100_100_40_witness :
  tryEndpoints scripted 3 ["/api/v1/user/"; "/api/v1/users"]%string true 100
    {| world := [ result_page (repeat JNull 100);
                  result_page (repeat (JNum 1) 100);
                  result_page (repeat (JNum 2) 40);
                  result_page (repeat (JNum 3) 100) ];
       requests := [] |}
  = Some (repeat JNull 100 ++ repeat (JNum 1) 100 ++ repeat (JNum 2) 40,
          {| world := [ result_page (repeat (JNum 3) 100) ];
             requests := [ paged_url "/api/v1/user/" 1 100;
                           paged_url "/api/v1/user/" 2 100;
                           paged_url "/api/v1/user/" 3 100 ] |})
  /\ List.length (repeat JNull 100 ++ repeat (JNum 1) 100
                  ++ repeat (JNum 2) 40) = 240%nat.
Proof.
  apply (result_pages_100_100_40 (list response) scripted 3
           "/api/v1/user/" ["/api/v1/users"]%string
           (repeat JNull 100) (repeat (JNum 1) 100) (repeat (JNum 2) 40)
           (result_page (repeat JNull 100))
           (result_page (repeat (JNum 1) 100))
           (result_page (repeat (JNum 2) 40))
           [ result_page (repeat JNull 100);
             result_page (repeat (JNum 1) 100);
             result_page (repeat (JNum 2) 40);
             result_page (repeat (JNum 3) 100) ]
           [ result_page (repeat (JNum 1) 100);
             result_page (repeat (JNum 2) 40);
             result_page (repeat (JNum 3) 100) ]
           [ result_page (repeat (JNum 2) 40);
             result_page (repeat (JNum 3) 100) ]
           [ result_page (repeat (JNum 3) 100) ]).
  - apply Nat.le_refl.
  - apply repeat_length.
  - apply repeat_length.
  - apply repeat_length.
  - split; [reflexivity|]. eexists. split; reflexivity.
  - split; [reflexivity|]. eexists. split; reflexivity.
  - split; [reflexivity|]. eexists. split; reflexivity.
  - reflexivity.
  - reflexivity.
  - reflexivity.
Defined.

End PaginationFacts.

(** ** Fetcher: provenance of the fanned-out records *)

Module FanOutFacts.
Import Fetcher JSFacts PaginationFacts.

Lemma lookup_assign (k : string) (o : record) (kv : string * value) :
  lookup k (assign o kv)
  = if (fst kv =? k)%string then snd kv else lookup k o.
Proof.
  unfold assign. destruct kv as [k' [j|]]; simpl.
  - apply lookup_obj_set.
  - apply lookup_obj_remove.
Qed.

Lemma tag_member_fields (t : json) (candidate : string) (m : json)
  (r : record) :
  tag_member t candidate m = Some r ->
  field r "_team_id" = team_id_of t
  /\ field r "_team_identifier_used" = Some (JStr candidate).
Proof.
  unfold tag_member, field. intros H.
  destruct m; try discriminate; injection H as <-;
    cbn [fold_left]; rewrite !lookup_assign; split; reflexivity.
Qed.

Lemma tag_log_fields (t : json) (candidate : string) (l : json) :
  field (tag_log t candidate l) "_team_id" = team_id_of t
  /\ field (tag_log t candidate l) "_team_identifier_used"
     = Some (JStr candidate).
Proof.
  unfold tag_log, field. cbn [fold_left]. rewrite !lookup_assign.
  split; reflexivity.
Qed.

Lemma provenance_mono (items : json -> list json)
  (tag : json -> string -> json -> option record)
  (endpoints : string -> list string) (teams : list json)
  (log log' : list (string * option response)) (r : record) :
  incl log log' ->
  provenance items tag endpoints teams log r ->
  provenance items tag endpoints teams log' r.
Proof.
  intros Hincl (t & c & ep & res & payload & m & Ht & Hc & Hep & Hlog & H).
  exists t, c, ep, res, payload, m. repeat split; try tauto.
  apply Hincl. exact Hlog.
Qed.

(** [push_members] only appends, and what it appends was made of the
    items. *)
Lemma push_members_spec (t : json) (candidate : string)
  (items : list json) :
  forall teamMembers,
    exists new,
      snd (push_members t candidate items teamMembers) = teamMembers ++ new
      /\ Forall (fun r => exists m, In m items
                                    /\ tag_member t candidate m = Some r)
                new.
Proof.
  induction items as [|m items IH]; intros tm; simpl.
  - exists []. split; [symmetry; apply app_nil_r | constructor].
  - destruct (tag_member t candidate m) as [r|] eqn:E; simpl.
    + destruct (IH (tm ++ [r])) as (new & -> & Hnew).
      exists (r :: new). split; [rewrite <- app_assoc; reflexivity|].
      constructor; [exists m; split; [left; reflexivity | exact E]|].
      eapply Forall_impl; [|exact Hnew].
      intros r' (m' & Hm' & E'). exists m'. split; [right|]; assumption.
    + exists []. split; [symmetry; apply app_nil_r | constructor].
Qed.

Section Invariant.

Context {World : Type}.
Variable api : string -> World -> option response * World.
Variable teamMembersPattern : string.
Variable teams : list json.

Lemma exchanges_app (a b : list string) (w : World) :
  exchanges api (a ++ b) w
  = let (la, w1) := exchanges api a w in
    let (lb, w2) := exchanges api b w1 in
    (la ++ lb, w2).
Proof.
  revert w. induction a as [|x a IH]; intros w; simpl.
  - destruct (exchanges api b w). reflexivity.
  - destruct (api x w) as [res w1]. rewrite IH.
    destruct (exchanges api a w1) as [la w2].
    destruct (exchanges api b w2) as [lb w3]. reflexivity.
Qed.

Lemma continues_refl (s : run World) : continues api s s [].
Proof.
  split; simpl; [symmetry; apply app_nil_r | reflexivity].
Qed.

Lemma continues_trans (s0 s1 s2 : run World)
  (l1 l2 : list (string * option response)) :
  continues api s0 s1 l1 -> continues api s1 s2 l2 ->
  continues api s0 s2 (l1 ++ l2).
Proof.
  intros [R1 E1] [R2 E2]. split.
  - rewrite R2, R1, map_app, app_assoc. reflexivity.
  - rewrite map_app, exchanges_app, E1, E2. reflexivity.
Qed.

Lemma call_continues (relative : string) (s s' : run World)
  (res : option response) :
  call api relative s = (res, s') ->
  continues api s s' [(relative, res)].
Proof.
  unfold call, continues. cbn [map fst exchanges].
  destruct (api relative (world s)) as [res0 w]. intros E.
  injection E as <- <-. split; reflexivity.
Qed.

Lemma try_patterns_inv (t : json) (candidate : string) :
  In t teams -> In candidate (uniqueIds t) ->
  forall patterns teamMembers s,
    incl patterns (teamMembersFallbacks teamMembersPattern) ->
    let '(_, teamMembers', s') :=
      try_patterns api t candidate patterns teamMembers s in
    exists log new,
      continues api s s' log
      /\ teamMembers' = teamMembers ++ new
      /\ Forall (member_provenance teamMembersPattern teams log) new.
Proof.
  intros Ht Hc. induction patterns as [|pattern rest IH];
    intros tm s Hpat; cbn [try_patterns].
  - exists [], []. split; [apply continues_refl|].
    split; [symmetry; apply app_nil_r | constructor].
  - destruct (call api (member_endpoint pattern candidate) s)
      as [res s1] eqn:Ecall.
    pose proof (call_continues _ _ _ _ Ecall) as Hcall.
    assert (Hrest : incl rest (teamMembersFallbacks teamMembersPattern)).
    { intros p Hp. apply Hpat. right. exact Hp. }
    assert (Hskip :
      let '(_, tm', s') := try_patterns api t candidate rest tm s1 in
      exists log new,
        continues api s s' log
        /\ tm' = tm ++ new
        /\ Forall (member_provenance teamMembersPattern teams log) new).
    { specialize (IH tm s1 Hrest).
      destruct (try_patterns api t candidate rest tm s1) as [[g tm'] s'].
      destruct IH as (log & new & Hlog & -> & Hnew).
      exists ([(member_endpoint pattern candidate, res)] ++ log), new.
      split; [eapply continues_trans; eassumption|].
      split; [reflexivity|].
      eapply Forall_impl; [|exact Hnew].
      intros r. apply provenance_mono. apply incl_appr, incl_refl. }
    destruct res as [res|]; [|exact Hskip].
    destruct (status res =? 404)%Z; [exact Hskip|].
    destruct (ok res) eqn:Eok; cbn [negb]; [|exact Hskip].
    destruct (body res) as [payload|] eqn:Ebody; [|exact Hskip].
    destruct (push_members_spec t candidate (member_items payload) tm)
      as (new1 & Epush & Hnew1).
    assert (Hprov1 :
      Forall (member_provenance teamMembersPattern teams
                [(member_endpoint pattern candidate, Some res)]) new1).
    { eapply Forall_impl; [|exact Hnew1].
      intros r (m & Hm & Hr).
      destruct (tag_member_fields _ _ _ _ Hr) as [F1 F2].
      exists t, candidate, (member_endpoint pattern candidate), res,
        payload, m.
      repeat split; try assumption.
      - unfold member_endpoints. apply in_map_iff. exists pattern.
        split; [reflexivity | apply Hpat; left; reflexivity].
      - left. reflexivity. }
    destruct (push_members t candidate (member_items payload) tm)
      as [[u|msg] tm1]; cbn [snd] in Epush; subst tm1.
    + exists [(member_endpoint pattern candidate, Some res)], new1.
      split; [exact Hcall|]. split; [reflexivity | exact Hprov1].
    + specialize (IH (tm ++ new1) s1 Hrest).
      destruct (try_patterns api t candidate rest (tm ++ new1) s1)
        as [[g tm'] s'].
      destruct IH as (log & new2 & Hlog & -> & Hnew2).
      exists ([(member_endpoint pattern candidate, Some res)] ++ log),
        (new1 ++ new2).
      split; [eapply continues_trans; eassumption|].
      split; [rewrite app_assoc; reflexivity|].
      apply Forall_app. split.
      * eapply Forall_impl; [|exact Hprov1].
        intros r. apply provenance_mono. apply incl_appl, incl_refl.
      * eapply Forall_impl; [|exact Hnew2].
        intros r. apply provenance_mono. apply incl_appr, incl_refl.
Qed.

Lemma try_candidates_inv (t : json) :
  In t teams ->
  forall candidates teamMembers s,
    incl candidates (uniqueIds t) ->
    let '(teamMembers', s') :=
      try_candidates api teamMembersPattern t candidates teamMembers s in
    exists log new,
      continues api s s' log
      /\ teamMembers' = teamMembers ++ new
      /\ Forall (member_provenance teamMembersPattern teams log) new.
Proof.
  intros Ht. induction candidates as [|candidate rest IH];
    intros tm s Hc; cbn [try_candidates].
  - exists [], []. split; [apply continues_refl|].
    split; [symmetry; apply app_nil_r | constructor].
  - pose proof (try_patterns_inv t candidate Ht (Hc _ (or_introl eq_refl))
                  (teamMembersFallbacks teamMembersPattern) tm s
                  (incl_refl _)) as Hp.
    destruct (try_patterns api t candidate
                (teamMembersFallbacks teamMembersPattern) tm s)
      as [[got tm1] s1].
    destruct Hp as (log1 & new1 & Hlog1 & -> & Hnew1). destruct got.
    + exists log1, new1.
      split; [exact Hlog1 | split; [reflexivity | exact Hnew1]].
    + assert (Hrest : incl rest (uniqueIds t))
        by (intros c Hin; apply Hc; right; exact Hin).
      specialize (IH (tm ++ new1) s1 Hrest).
      destruct (try_candidates api teamMembersPattern t rest (tm ++ new1) s1)
        as [tm' s'].
      destruct IH as (log2 & new2 & Hlog2 & -> & Hnew2).
      exists (log1 ++ log2), (new1 ++ new2).
      split; [eapply continues_trans; eassumption|].
      split; [rewrite app_assoc; reflexivity|].
      apply Forall_app. split.
      * eapply Forall_impl; [|exact Hnew1].
        intros r. apply provenance_mono. apply incl_appl, incl_refl.
      * eapply Forall_impl; [|exact Hnew2].
        intros r. apply provenance_mono. apply incl_appr, incl_refl.
Qed.

Lemma audit_candidates_inv (t : json) :
  In t teams ->
  forall candidates auditTried auditLogsAll s,
    incl candidates (uniqueIds t) ->
    let '(auditLogsAll', s') :=
      audit_candidates api t candidates auditTried auditLogsAll s in
    exists log new,
      continues api s s' log
      /\ auditLogsAll' = auditLogsAll ++ new
      /\ Forall (log_provenance teams log) new.
Proof.
  intros Ht. induction candidates as [|candidate rest IH];
    intros tried logs s Hc; cbn [audit_candidates].
  - exists [], []. split; [apply continues_refl|].
    split; [symmetry; apply app_nil_r | constructor].
  - assert (Hrest : incl rest (uniqueIds t))
      by (intros c Hin; apply Hc; right; exact Hin).
    destruct (set_has candidate tried); [apply IH; assumption|].
    destruct (call api (audit_endpoint candidate) s) as [res s1] eqn:Ecall.
    pose proof (call_continues _ _ _ _ Ecall) as Hcall.
    assert (Hskip :
      let '(logs', s') :=
        audit_candidates api t rest (set_add candidate tried) logs s1 in
      exists log new,
        continues api s s' log
        /\ logs' = logs ++ new
        /\ Forall (log_provenance teams log) new).
    { specialize (IH (set_add candidate tried) logs s1 Hrest).
      destruct (audit_candidates api t rest (set_add candidate tried) logs s1)
        as [logs' s'].
      destruct IH as (log & new & Hlog & -> & Hnew).
      exists ([(audit_endpoint candidate, res)] ++ log), new.
      split; [eapply continues_trans; eassumption|].
      split; [reflexivity|].
      eapply Forall_impl; [|exact Hnew].
      intros r. apply provenance_mono. apply incl_appr, incl_refl. }
    destruct res as [res|]; [|exact Hskip].
    destruct (status res =? 404)%Z; [exact Hskip|].
    destruct (ok res) eqn:Eok; cbn [negb]; [|exact Hskip].
    destruct (body res) as [payload|] eqn:Ebody; [|exact Hskip].
    destruct (audit_items payload) as [|l items] eqn:Eitems; [exact Hskip|].
    exists [(audit_endpoint candidate, Some res)],
      (map (tag_log t candidate) (l :: items)).
    split; [exact Hcall|]. split; [reflexivity|].
    apply Forall_forall. intros r Hr.
    apply in_map_iff in Hr as (l' & <- & Hl').
    destruct (tag_log_fields t candidate l') as [F1 F2].
    exists t, candidate, (audit_endpoint candidate), res, payload, l'.
    repeat split; try assumption.
    + apply Hc. left. reflexivity.
    + left. reflexivity.
    + left. reflexivity.
    + rewrite Eitems. exact Hl'.
Qed.

Lemma fan_out_inv :
  forall ts teamMembers auditLogsAll s,
    incl ts teams ->
    let '(teamMembers', auditLogsAll', s') :=
      fan_out api teamMembersPattern ts teamMembers auditLogsAll s in
    exists log newMembers newLogs,
      continues api s s' log
      /\ teamMembers' = teamMembers ++ newMembers
      /\ auditLogsAll' = auditLogsAll ++ newLogs
      /\ Forall (member_provenance teamMembersPattern teams log) newMembers
      /\ Forall (log_provenance teams log) newLogs.
Proof.
  induction ts as [|t rest IH]; intros tm logs s Hts; cbn [fan_out].
  - exists [], [], []. split; [apply continues_refl|].
    rewrite !app_nil_r. repeat split; constructor.
  - assert (Ht : In t teams) by (apply Hts; left; reflexivity).
    assert (Hrest : incl rest teams)
      by (intros x Hx; apply Hts; right; exact Hx).
    destruct (uniqueIds t) as [|c ids] eqn:Eids; [apply IH; assumption|].
    rewrite <- Eids.
    pose proof (try_candidates_inv t Ht (uniqueIds t) tm s (incl_refl _))
      as Hm.
    destruct (try_candidates api teamMembersPattern t (uniqueIds t) tm s)
      as [tm1 s1].
    destruct Hm as (log1 & new1 & Hlog1 & -> & Hnew1).
    pose proof (audit_candidates_inv t Ht (uniqueIds t) [] logs s1
                  (incl_refl _)) as Ha.
    destruct (audit_candidates api t (uniqueIds t) [] logs s1)
      as [logs2 s2].
    destruct Ha as (log2 & new2 & Hlog2 & -> & Hnew2).
    specialize (IH (tm ++ new1) (logs ++ new2) s2 Hrest).
    destruct (fan_out api teamMembersPattern rest (tm ++ new1)
                      (logs ++ new2) s2) as [[tm' logs'] s'].
    destruct IH as (log3 & new3 & new4 & Hlog3 & -> & -> & Hnew3 & Hnew4).
    exists ((log1 ++ log2) ++ log3), (new1 ++ new3), (new2 ++ new4).
    split; [eapply continues_trans; [eapply continues_trans|]; eassumption|].
    split; [rewrite app_assoc; reflexivity|].
    split; [rewrite app_assoc; reflexivity|].
    split; apply Forall_app; split.
    + eapply Forall_impl; [|exact Hnew1]. intros r. apply provenance_mono.
      apply incl_appl, incl_appl, incl_refl.
    + eapply Forall_impl; [|exact Hnew3]. intros r. apply provenance_mono.
      apply incl_appr, incl_refl.
    + eapply Forall_impl; [|exact Hnew2]. intros r. apply provenance_mono.
      apply incl_appl, incl_appr, incl_refl.
    + eapply Forall_impl; [|exact Hnew4]. intros r. apply provenance_mono.
      apply incl_appr, incl_refl.
Qed.

End Invariant.

(** C3 (as stated, refuted). For the team [{id: 7, name: "eng"}] the
    memberships are fetched with the candidate [eng]; the record is filed
    under [_team_id = 7], which is not the identifier that was used. *)
Lemma team_id_is_not_the_identifier_used :
  exists members logs s',
    fan_out one_record "/v1/teams/{team_id}/memberships" [eng_team] [] []
            {| world := tt; requests := [] |} = (members, logs, s')
    /\ requests s' = ["/v1/teams/eng/memberships";
                      "/v2/audit/teams/eng/logs"]%string
    /\ map (fun r => (field r "_team_id", field r "_team_identifier_used"))
           (members ++ logs)
       = [ (Some (JNum 7), Some (JStr "eng"));
           (Some (JNum 7), Some (JStr "eng")) ].
Proof.
  eexists. eexists. eexists. split; [vm_compute; reflexivity|].
  split; reflexivity.
Qed.

(** C3 (amended). The requests of the fan-out and the answers they got
    form a log such that every member record and every audit-log record
    produced belongs to one of the teams and to one of that team's
    candidate identifiers: the log holds an [ok] answer to a request made
    with that candidate, the record was made of one of the items of the
    body of that answer, its [_team_identifier_used] is that candidate,
    and its [_team_id] is the team's own identifier, the numeric [id] (or
    [team_id]) and, when that is [null] or [undefined], the [name] (or
    [slug], [title]), whichever candidate fetched the record. *)
Theorem fan_out_provenance :
  forall (World : Type) (api : string -> World -> option response * World)
         (teamMembersPattern : string) (teams : list json) (s : run World),
    let '(teamMembers, auditLogsAll, s') :=
      fan_out api teamMembersPattern teams [] [] s in
    exists log,
      continues api s s' log
      /\ Forall (member_provenance teamMembersPattern teams log) teamMembers
      /\ Forall (log_provenance teams log) auditLogsAll.
Proof.
  intros World api teamMembersPattern teams s.
  pose proof (fan_out_inv api teamMembersPattern teams teams [] [] s
                          (incl_refl _)) as H.
  destruct (fan_out api teamMembersPattern teams [] [] s)
    as [[teamMembers auditLogsAll] s'].
  destruct H as (log & newMembers & newLogs & Hlog & -> & -> & Hm & Hl).
  exists log. split; [exact Hlog | split; assumption].
Qed.

End FanOutFacts.

(** ** Fetcher: the credential exchange *)

Module AuthFacts.
Import Fetcher.

Section Exchange.

Context {World : Type}.
Variable fetch : request -> World -> option response * World.
Variable token secret : string.
Variable presetBearer : option string.
Variable base : string.

Lemma send_sent (req : request) (n : net World) :
  sent (snd (send fetch req n)) = sent n ++ [req]
  /\ server (snd (send fetch req n)) = snd (fetch req (server n))
  /\ fst (send fetch req n) = fst (fetch req (server n)).
Proof. unfold send. destruct (fetch req (server n)). repeat split. Qed.





End Exchange.



End AuthFacts.

(* ================================================================== *)
(** * Further properties of the viewer *)

(** ** Free-text search: what it matches, exactly *)

Module SearchMore.
Import Search JSFacts.

Section Visit.

Variable toLowerCase : string -> string.

Lemma visit_sound (needle : string) (r : json) :
  visit toLowerCase needle r = true ->
  exists t, leaf_text r t /\ includes (toLowerCase t) needle = true.
Proof.
  induction r as [| b | n | s | xs IH | kv IH] using json_nested_ind;
    simpl; intros H.
  - discriminate.
  - exists (String_of_boolean b). split; [constructor | exact H].
  - exists (String_of_number n). split; [constructor | exact H].
  - exists s. split; [constructor | exact H].
  - apply existsb_exists in H as (x & Hin & Hx).
    rewrite Forall_forall in IH.
    destruct (IH x Hin Hx) as (t & Ht & Hinc).
    exists t. split; [eapply leaf_in_array; eassumption | exact Hinc].
  - apply existsb_exists in H as ([k x] & Hin & Hx).
    rewrite Forall_forall in IH.
    destruct (IH (k, x) Hin Hx) as (t & Ht & Hinc).
    exists t. split; [eapply leaf_in_object; eassumption | exact Hinc].
Qed.

Lemma visit_complete (needle : string) (r : json) (t : string) :
  leaf_text r t -> includes (toLowerCase t) needle = true ->
  visit toLowerCase needle r = true.
Proof.
  intros H Hinc.
  induction H as [s | n | b | xs x t Hin _ IH | kv k x t Hin _ IH];
    try exact Hinc.
  - simpl. apply existsb_exists. exists x. split; [exact Hin | exact (IH Hinc)].
  - simpl. apply existsb_exists. exists (k, x).
    split; [exact Hin | exact (IH Hinc)].
Qed.

End Visit.

(** X1. For a query that is not empty and a record whose numbers are safe
    integers, [search] accepts the record exactly when the lowered query
    occurs in the lowered text of one of its scalar leaves (a string, or a
    number or boolean as [String] prints it), at any depth; property names
    are not searched.  Two queries that are not empty and have the same
    lowered text always give the same answer.  This holds whatever the
    case mapping of the host is. *)
Theorem search_matches_leaf_text_only :
  forall toLowerCase : string -> string,
    (forall (r : json) (q : string),
        q <> ""%string -> safe r = true ->
        (search toLowerCase r q = true
         <-> exists t, leaf_text r t /\ ci_substring toLowerCase q t))
    /\ (forall (r : json) (q q' : string),
           q <> ""%string -> q' <> ""%string ->
           toLowerCase q = toLowerCase q' ->
           search toLowerCase r q = search toLowerCase r q').
Proof.
  intros toLowerCase. split.
  - intros r q Hq _. unfold search.
    destruct (String.eqb_spec q "") as [E|_]; [contradiction|].
    split.
    + intros H. destruct (visit_sound _ _ _ H) as (t & Ht & Hinc).
      exists t. split; [exact Ht|]. apply includes_split. exact Hinc.
    + intros (t & Ht & pre & post & E).
      apply visit_complete with (t := t); [exact Ht|].
      rewrite E. apply includes_app.
  - intros r q q' Hq Hq' E. unfold search.
    destruct (String.eqb_spec q "") as [E0|_]; [contradiction|].
    destruct (String.eqb_spec q' "") as [E0|_]; [contradiction|].
    rewrite E. reflexivity.
Qed.

Lemma search_matches_leaf_text_only_witness :
  (exists t, leaf_text sample_member t /\ ci_substring ascii_lowercase "7" t)
  /\ search ascii_lowercase sample_member "ALICE"
     = search ascii_lowercase sample_member "alice".
Proof.
  destruct (search_matches_leaf_text_only ascii_lowercase)
    as [Hexact Hcase].
  split.
  - apply (Hexact sample_member "7"%string);
      [discriminate | reflexivity | reflexivity].
  - apply Hcase; [discriminate | discriminate | reflexivity].
Defined.

End SearchMore.

(** ** Analytics: ranges, totals and the chart *)

Module AnalyticsMore.
Import Analytics JSFacts MetricsFacts.

(** X2. Widening the time range never hides a record: what is shown for
    the week is shown for the month, and what is shown for the month is
    shown for the year, under the same workspace and query. *)
Theorem wider_range_keeps_more :
  forall (now : Z) (Date_parse : string -> option Z)
         (toLowerCase : string -> string)
         (workspace query : string) (l : record),
    (keep now Date_parse toLowerCase workspace query week l = true ->
     keep now Date_parse toLowerCase workspace query month l = true)
    /\ (keep now Date_parse toLowerCase workspace query month l = true ->
        keep now Date_parse toLowerCase workspace query year l = true).
Proof.
  intros now Date_parse toLowerCase workspace query l.
  unfold keep, cutoff, rangeMs.
  destruct (workspace_mismatch workspace l); [split; intros H; exact H|].
  destruct (query_mismatch toLowerCase query l);
    [split; intros H; exact H|].
  destruct (ts_of Date_parse l) as [ts|]; [|split; reflexivity].
  split; intros H.
  - destruct (Z.ltb_spec ts (now - 7 * 24 * 3600 * 1000)); [discriminate|].
    destruct (Z.ltb_spec ts (now - 30 * 24 * 3600 * 1000));
      [lia | reflexivity].
  - destruct (Z.ltb_spec ts (now - 30 * 24 * 3600 * 1000)); [discriminate|].
    destruct (Z.ltb_spec ts (now - 365 * 24 * 3600 * 1000));
      [lia | reflexivity].
Qed.

Lemma wider_range_keeps_more_witness :
  keep 1000000000 parse_epoch ascii_lowercase "ALL" "" year old_log = true.
Proof.
  apply (proj2 (wider_range_keeps_more 1000000000 parse_epoch
                  ascii_lowercase "ALL" "" old_log)).
  reflexivity.
Defined.

(** *** Totals *)

Lemma total_app (a b : list BarDatum) :
  total (a ++ b)
  = match total a, total b with
    | Some x, Some y => Some (x + y)%Z
    | _, _ => None
    end.
Proof.
  induction a as [|d a IH]; simpl.
  - destruct (total b); reflexivity.
  - rewrite IH. destruct (value d), (total a), (total b); try reflexivity.
    f_equal. lia.
Qed.

Lemma total_counts_replace (k : string) (v old t : Z) (m : counts) :
  lookup k m = Some (Num old) ->
  total (map datum m) = Some t ->
  total (map datum (replace_prop k (Num v) m)) = Some (t - old + v)%Z.
Proof.
  revert t. induction m as [|[k0 v0] m IH]; intros t; simpl;
    [discriminate|].
  destruct (String.eqb_spec k0 k) as [->|Hne]; simpl.
  - intros H. injection H as ->.
    destruct (total (map datum m)) as [t0|]; [|discriminate].
    intros E. injection E as <-. f_equal. lia.
  - intros H. destruct v0 as [n0|]; [|discriminate].
    destruct (total (map datum m)) as [t0|]; [|discriminate].
    intros E. injection E as <-. rewrite (IH t0 H eq_refl). f_equal. lia.
Qed.

Lemma total_counts_insert (i : N) (k : string) (v t : Z) (m : counts) :
  total (map datum m) = Some t ->
  total (map datum (insert_index i k (Num v) m)) = Some (t + v)%Z.
Proof.
  revert t. induction m as [|[k0 v0] m IH]; intros t; simpl.
  - intros E. injection E as <-. f_equal. lia.
  - destruct v0 as [n0|]; [|discriminate].
    destruct (total (map datum m)) as [t0|] eqn:Et; [|discriminate].
    intros E. injection E as <-.
    destruct (array_index k0) as [j|]; [destruct (j <? i)%N|]; simpl;
      rewrite ?Et, ?(IH t0 eq_refl); f_equal; lia.
Qed.

Lemma total_lookup (k : string) (m : counts) (t : Z) (c : count) :
  total (map datum m) = Some t -> lookup k m = Some c ->
  exists n, c = Num n.
Proof.
  revert t. induction m as [|[k0 v0] m IH]; intros t; simpl;
    [discriminate|].
  destruct v0 as [n0|]; [|discriminate].
  destruct (total (map datum m)) as [t0|]; [|discriminate].
  intros _. destruct (String.eqb_spec k0 k) as [->|_].
  - intros H. injection H as <-. exists n0. reflexivity.
  - intros H. exact (IH t0 eq_refl H).
Qed.

(** One [bump] adds one to the sum of the counts. *)
Lemma total_bump (k : string) (m : counts) (t : Z) :
  inherited k = false ->
  total (map datum m) = Some t ->
  total (map datum (bump k m)) = Some (t + 1)%Z.
Proof.
  intros Hk Ht. rewrite (bump_plain _ _ Hk). unfold obj_set, has_prop.
  destruct (lookup k m) as [c|] eqn:E.
  - destruct (total_lookup _ _ _ _ Ht E) as [n ->].
    rewrite (total_counts_replace k _ n t m E Ht). f_equal.
    destruct (Z.eqb_spec n 0); lia.
  - destruct (array_index k).
    + apply total_counts_insert. exact Ht.
    + rewrite map_app, total_app, Ht. simpl; f_equal; lia.
Qed.

Lemma total_count_all (ks : list string) :
  plain ks ->
  total (map datum (count_all ks)) = Some (Z.of_nat (List.length ks)).
Proof.
  induction ks as [|k ks IH] using rev_ind; intros Hp.
  - reflexivity.
  - apply plain_snoc in Hp as [Hp Hk].
    rewrite count_all_snoc, (total_bump _ _ _ Hk (IH Hp)), length_app.
    simpl. f_equal. lia.
Qed.

Lemma total_perm (a b : list BarDatum) :
  Permutation a b -> total a = total b.
Proof.
  induction 1 as [|x l l' _ IH|x y l|l l' l'' _ IH1 _ IH2]; simpl.
  - reflexivity.
  - rewrite IH. reflexivity.
  - destruct (value x), (value y), (total l); try reflexivity.
    f_equal. lia.
  - congruence.
Qed.

Lemma total_ranked (ks : list string) :
  plain ks ->
  total (toSorted (count_all ks)) = Some (Z.of_nat (List.length ks)).
Proof.
  intros Hp. rewrite <- (total_count_all ks Hp).
  apply total_perm. apply sort_by_perm.
Qed.

Lemma chart_dash_labels_length (logs : list record) :
  (List.length (chart_labels logs) + List.length (dash_labels logs)
   <= List.length logs)%nat.
Proof.
  unfold chart_labels, dash_labels.
  induction logs as [|l logs IH]; simpl; [lia|].
  rewrite !length_app.
  assert (H : (List.length
                 (if strict_eq_string (action_of l) "chart:view"
                     && truthy (field l "entity_name")
                  then [ToPropertyKey (field l "entity_name")] else [])
               + List.length
                   (if strict_eq_string (action_of l) "dashboard:view"
                       && truthy (field l "entity_name")
                    then [ToPropertyKey (field l "entity_name")] else [])
               <= 1)%nat).
  { unfold strict_eq_string. destruct (action_of l) as [[| | |a| |]|];
      simpl; try lia.
    destruct (String.eqb_spec a "chart:view") as [->|_]; simpl.
    - destruct (truthy (field l "entity_name")); simpl; lia.
    - destruct ((a =? "dashboard:view")%string
                && truthy (field l "entity_name")); simpl; lia. }
  lia.
Qed.

Lemma action_labels_length (logs : list record) :
  (List.length (action_labels logs) <= List.length logs)%nat.
Proof.
  unfold action_labels. induction logs as [|l logs IH]; simpl; [lia|].
  rewrite length_app. destruct (truthy (action_of l)); simpl; lia.
Qed.

(** X3. For records whose numbers are safe integers and whose labels
    name no property of [Object.prototype], the counts of the four series
    are numbers and add up as the events do: every
    shown event is counted for exactly one user, so the user counts sum to
    the number of events; the action counts sum to at most that number;
    and the chart views and dashboard views together never exceed it. *)
Theorem series_totals :
  forall logs : list record,
    Forall (fun l => safe (JObj l) = true) logs ->
    plain (user_labels logs) -> plain (action_labels logs) ->
    plain (chart_labels logs) -> plain (dash_labels logs) ->
    exists actions charts dashboards : Z,
      total (activeUsers (metrics logs)) = Some (Z.of_nat (List.length logs))
      /\ total (actionCounts (metrics logs)) = Some actions
      /\ total (chartViews (metrics logs)) = Some charts
      /\ total (dashboardViews (metrics logs)) = Some dashboards
      /\ (actions <= Z.of_nat (List.length logs))%Z
      /\ (charts + dashboards <= Z.of_nat (List.length logs))%Z.
Proof.
  intros logs _ Hu Ha Hc Hd.
  destruct (metrics_counts logs) as (Ec & Ed & Eu & Ea).
  rewrite Ec, Ed, Eu, Ea.
  rewrite (total_ranked _ Hu), (total_ranked _ Ha), (total_ranked _ Hc),
    (total_ranked _ Hd).
  pose proof (chart_dash_labels_length logs).
  pose proof (action_labels_length logs).
  eexists. eexists. eexists.
  split; [unfold user_labels; rewrite length_map; reflexivity|].
  repeat (split; [reflexivity|]). split; lia.
Qed.

Lemma series_totals_witness :
  exists actions charts dashboards : Z,
    total (activeUsers (metrics chart_example)) = Some 3%Z
    /\ total (actionCounts (metrics chart_example)) = Some actions
    /\ total (chartViews (metrics chart_example)) = Some charts
    /\ total (dashboardViews (metrics chart_example)) = Some dashboards
    /\ (actions <= 3)%Z
    /\ (charts + dashboards <= 3)%Z.
Proof.
  apply (series_totals chart_example); repeat constructor.
Defined.

(** *** The chart *)

Lemma Math_max_below (n : Z) (data : list BarDatum) :
  Forall (fun x => count_le (value x) (Num n)) data ->
  Math_max (map value data) = NegInfinity
  \/ exists m, Math_max (map value data) = Max m /\ (m <= n)%Z.
Proof.
  induction 1 as [|x data Hx _ IH]; simpl; [left; reflexivity|].
  right. destruct (value x) as [vx|]; [|destruct Hx]. simpl in Hx.
  destruct IH as [->|(m & -> & Hm)].
  - exists vx. split; [reflexivity | exact Hx].
  - exists (Z.max vx m). split; [reflexivity | lia].
Qed.

Lemma Math_max_head_of_sorted (d : BarDatum) (data : list BarDatum)
  (n : Z) :
  value d = Num n ->
  StronglySorted (fun a b => count_le (value b) (value a)) (d :: data) ->
  Math_max (map value (d :: data)) = Max n.
Proof.
  intros Hd H. inversion H as [|? ? _ Hall]; subst. clear H.
  cbn [map Math_max]. rewrite Hd.
  assert (Hbelow : Forall (fun x => count_le (value x) (Num n)) data).
  { eapply Forall_impl; [|exact Hall]. intros x Hx. rewrite Hd in Hx.
    exact Hx. }
  destruct (Math_max_below n data Hbelow) as [->|(m & -> & Hm)].
  - reflexivity.
  - rewrite Z.max_l by exact Hm. reflexivity.
Qed.

Lemma in_firstn {A : Type} (n : nat) (l : list A) (x : A) :
  In x (firstn n l) -> In x l.
Proof.
  intros H. rewrite <- (firstn_skipn n l). apply in_or_app. left. exact H.
Qed.

Lemma in_skipn {A : Type} (n : nat) (l : list A) (x : A) :
  In x (skipn n l) -> In x l.
Proof.
  intros H. rewrite <- (firstn_skipn n l). apply in_or_app. right. exact H.
Qed.

Lemma sorted_firstn (n : nat) (data : list BarDatum) :
  StronglySorted (fun a b => count_le (value b) (value a)) data ->
  StronglySorted (fun a b => count_le (value b) (value a)) (firstn n data).
Proof.
  intros H. revert n. induction H as [|d data Hs IH Hall]; intros [|n];
    simpl; try constructor.
  - apply IH.
  - rewrite Forall_forall in *. intros x Hx. apply Hall.
    eapply in_firstn. exact Hx.
Qed.

Lemma sorted_split (n : nat) (data : list BarDatum) :
  StronglySorted (fun a b => count_le (value b) (value a)) data ->
  forall a b, In a (firstn n data) -> In b (skipn n data) ->
              count_le (value b) (value a).
Proof.
  intros H. revert n. induction H as [|d data Hs IH Hall]; intros [|n] a b;
    simpl; try tauto.
  intros [<-|Ha] Hb.
  - rewrite Forall_forall in Hall. apply Hall.
    eapply in_skipn. exact Hb.
  - eapply IH; eassumption.
Qed.

(** X4. When no label names a property of [Object.prototype], the chart
    of a series shows its first [maxBars] entries, which are the most
    counted ones: no entry that is left out has a larger count than one
    that is shown.  Every bar has a count of at least one and at most the
    maximum against which the widths are measured, which is a number, so
    no bar is wider than the full width; only an empty series draws
    nothing. *)
Theorem chart_shows_the_most_counted :
  forall (ks : list string) (maxBars : nat),
    plain ks ->
    match HBarChart (toSorted (count_all ks)) maxBars with
    | None => ks = []
    | Some bars =>
        map (fun b => {| label := bar_label b; value := bar_value b |}) bars
        = firstn maxBars (toSorted (count_all ks))
        /\ (List.length bars <= maxBars)%nat
        /\ Forall (fun b => exists v mx,
                       bar_value b = Num v /\ bar_max b = Max mx
                       /\ (1 <= v <= mx)%Z) bars
        /\ (forall b d, In b bars ->
                        In d (skipn maxBars (toSorted (count_all ks))) ->
                        count_le (value d) (bar_value b))
    end.
Proof.
  intros ks maxBars Hp.
  pose proof (toSorted_desc ks Hp) as Hsorted.
  pose proof (sort_by_perm by_value_desc (map datum (count_all ks))) as Hperm.
  fold (toSorted (count_all ks)) in Hperm.
  assert (Hpos : Forall (fun d => exists n, value d = Num n /\ (1 <= n)%Z)
                        (toSorted (count_all ks))).
  { eapply Permutation_Forall; [apply Permutation_sym; exact Hperm|].
    exact (ranked_numbers ks Hp). }
  unfold HBarChart.
  destruct (toSorted (count_all ks)) as [|d data] eqn:E.
  - apply Permutation_nil in Hperm. apply map_eq_nil in Hperm.
    destruct ks as [|k ks] using rev_ind; [reflexivity|].
    assert (Hh : has_prop k (count_all (ks ++ [k])) = true).
    { apply (count_all_has _ _ Hp). apply in_or_app. right. left.
      reflexivity. }
    rewrite Hperm in Hh. discriminate.
  - set (top := firstn maxBars (d :: data)).
    assert (Htop : StronglySorted
                     (fun a b => count_le (value b) (value a)) top)
      by (apply sorted_firstn; exact Hsorted).
    assert (Hpos' : Forall (fun x => exists n, value x = Num n
                                               /\ (1 <= n)%Z) top).
    { apply Forall_forall. intros x Hx. rewrite Forall_forall in Hpos.
      apply Hpos. eapply in_firstn. exact Hx. }
    split; [|split; [|split]].
    + rewrite map_map. cbn [bar_label bar_value].
      rewrite <- (map_id top) at 2. apply map_ext.
      intros [a b]. reflexivity.
    + rewrite length_map. apply firstn_le_length.
    + destruct top as [|d0 top'] eqn:Etop; [constructor|].
      inversion Hpos' as [|? ? (n0 & Hn0 & Hn0pos) _]; subst.
      rewrite (Math_max_head_of_sorted d0 top' n0 Hn0 Htop).
      apply Forall_map. apply Forall_forall. intros x Hx.
      cbn [bar_value bar_max].
      rewrite Forall_forall in Hpos'.
      destruct (Hpos' x Hx) as (v & Hv & Hvpos).
      exists v, n0. split; [exact Hv|]. split; [reflexivity|].
      split; [exact Hvpos|].
      destruct Hx as [<-|Hx]; [rewrite Hn0 in Hv; injection Hv as <-; lia|].
      inversion Htop as [|? ? _ Hall]; subst.
      rewrite Forall_forall in Hall. specialize (Hall x Hx).
      rewrite Hv, Hn0 in Hall. exact Hall.
    + intros b x Hb Hx.
      apply in_map_iff in Hb as (a & <- & Ha). cbn [bar_value].
      exact (sorted_split maxBars (d :: data) Hsorted a x Ha Hx).
Qed.

Lemma chart_shows_the_most_counted_witness :
  count_le (value {| label := "B"; value := Num 1 |})
           (bar_value {| bar_label := "A"; bar_value := Num 2;
                         bar_max := Max 2 |}).
Proof.
  apply (proj2 (proj2 (proj2
    (chart_shows_the_most_counted ["A"; "B"; "A"]%string 1
       ltac:(repeat constructor))))); left; reflexivity.
Defined.

End AnalyticsMore.

(** ** Analytics: the workspace buttons *)

Module WorkspacesMore.
Import Analytics JSFacts.

Lemma set_has_In (x : string) (s : list string) :
  set_has x s = true <-> In x s.
Proof.
  unfold set_has. rewrite existsb_exists. split.
  - intros (y & Hy & E). apply String.eqb_eq in E. subst. exact Hy.
  - intros H. exists x. split; [exact H | apply String.eqb_refl].
Qed.

Lemma set_add_In (x y : string) (s : list string) :
  In y (set_add x s) <-> y = x \/ In y s.
Proof.
  unfold set_add. destruct (set_has x s) eqn:E.
  - apply set_has_In in E. split; [tauto|]. intros [->|H]; assumption.
  - rewrite in_app_iff. simpl. split; [intros [H|[H|[]]]|intros [H|H]]; auto.
Qed.

Lemma set_add_NoDup (x : string) (s : list string) :
  NoDup s -> NoDup (set_add x s).
Proof.
  intros H. unfold set_add. destruct (set_has x s) eqn:E; [exact H|].
  assert (Hout : ~ In x s).
  { intros Hin. apply set_has_In in Hin. congruence. }
  clear E. induction H as [|y s Hy Hs IH]; simpl.
  - constructor; [tauto | constructor].
  - constructor.
    + rewrite in_app_iff. simpl. intros [H|[H|[]]]; [tauto|].
      subst. apply Hout. left. reflexivity.
    + apply IH. intros H. apply Hout. right. exact H.
Qed.

Lemma set_delete_In (x y : string) (s : list string) :
  In y (set_delete x s) <-> In y s /\ y <> x.
Proof.
  unfold set_delete. rewrite filter_In.
  destruct (String.eqb_spec y x); simpl; split; intros [H1 H2];
    split; auto; discriminate.
Qed.

Lemma filter_NoDup {A : Type} (f : A -> bool) (s : list A) :
  NoDup s -> NoDup (filter f s).
Proof.
  induction 1 as [|y s Hy Hs IH]; simpl; [constructor|].
  destruct (f y); [|exact IH].
  constructor; [|exact IH]. rewrite filter_In. tauto.
Qed.

(** The titles gathered from the records. *)
Lemma found_of_spec (logs : list record) :
  forall found0,
    NoDup found0 ->
    match found_of logs found0 with
    | Some found =>
        NoDup found
        /\ (forall t, In t found
                      <-> In t found0
                          \/ exists l, In l logs /\ title_of l = Some t)
        /\ (forall l, In l logs -> title_of l <> None)
    | None => exists l, In l logs /\ title_of l = None
    end.
Proof.
  induction logs as [|l logs IH]; intros found0 Hnd; simpl.
  - split; [exact Hnd|]. split; [|tauto].
    intros t. split; [tauto|]. intros [H|(l & [] & _)]. exact H.
  - destruct (title_of l) as [title|] eqn:El.
    + specialize (IH (set_add title found0) (set_add_NoDup _ _ Hnd)).
      destruct (found_of logs (set_add title found0)) as [found|].
      * destruct IH as (H1 & H2 & H3). split; [exact H1|]. split.
        -- intros t. rewrite H2, set_add_In. split.
           ++ intros [[->|H]|(l' & Hl' & Ht)]; eauto.
           ++ intros [H|(l' & [<-|Hl'] & Ht)]; eauto.
              left. left. congruence.
        -- intros l' [<-|Hl']; [congruence | apply H3; exact Hl'].
      * destruct IH as (l' & Hl' & Ht). exists l'. split; [right|]; assumption.
    + exists l. split; [left; reflexivity | exact El].
Qed.

Section Placing.

Variable toLowerCase : string -> string.

Lemma place_keeps (found0 : list string) (st : list string * list string)
  (name : string) :
  toLowerCase "ALL" <> toLowerCase name ->
  placing found0 st -> placing found0 (place toLowerCase st name).
Proof.
  intros Hname. destruct st as [ordered fnd]. unfold place.
  intros (Hhead & Hno & Hnf & Hord & Hall & Hsub).
  destruct (find (fun f => (toLowerCase f =? toLowerCase name)%string) fnd)
    as [f|] eqn:Ef; [|repeat split; assumption].
  apply find_some in Ef as [Hf Elow]. apply String.eqb_eq in Elow.
  assert (HfALL : f <> "ALL"%string).
  { intros ->. apply Hname. exact Elow. }
  assert (Hfo : ~ In f ordered).
  { intros Hin. destruct (Hord _ Hin) as [E|[_ Hout]]; contradiction. }
  unfold placing. split; [|split; [|split; [|split; [|split]]]].
  - destruct Hhead as [rest ->]. exists (rest ++ [f]). reflexivity.
  - apply NoDup_app; [exact Hno | constructor; [tauto | constructor] |].
    intros a Ha [<-|[]]. contradiction.
  - apply filter_NoDup. exact Hnf.
  - intros x Hx. apply in_app_or in Hx as [Hx|[<-|[]]].
    + destruct (Hord _ Hx) as [E|[H1 H2]]; [left; exact E|].
      right. split; [exact H1|]. rewrite set_delete_In. tauto.
    + right. split; [apply Hsub; exact Hf|]. rewrite set_delete_In. tauto.
  - intros x Hx. destruct (Hall _ Hx) as [H|H].
    + left. apply in_or_app. left. exact H.
    + destruct (string_dec x f) as [->|Hne].
      * left. apply in_or_app. right. left. reflexivity.
      * right. rewrite set_delete_In. tauto.
  - intros x Hx. apply set_delete_In in Hx as [Hx _]. apply Hsub. exact Hx.
Qed.

Lemma fold_place_keeps (found0 : list string) (names : list string) :
  Forall (fun name => toLowerCase "ALL" <> toLowerCase name) names ->
  forall st, placing found0 st ->
             placing found0 (fold_left (place toLowerCase) names st).
Proof.
  induction 1 as [|name names Hn _ IH]; intros st Hst; simpl.
  - exact Hst.
  - apply IH. apply place_keeps; assumption.
Qed.

End Placing.

(** X5. Whatever the case mapping does beyond the ASCII range, the list
    of workspace buttons starts with [ALL] and repeats no button; every
    record's title (its [workspace_title], else its [workspace_name],
    trimmed, else [unknown]) has its button, and every other button is the
    title of some record.  The list cannot be built, and the view fails,
    exactly when some record carries a workspace that is not a string. *)
Theorem workspace_buttons :
  forall (localeCompare : string -> string -> Z)
         (toLowerCase : string -> string) (logs : list record),
    folds_ascii toLowerCase ->
    match workspaces localeCompare toLowerCase logs with
    | Some ws =>
        (exists rest, ws = "ALL"%string :: rest)
        /\ NoDup ws
        /\ (forall l, In l logs ->
                      exists t, title_of l = Some t /\ In t ws)
        /\ (forall w, In w ws ->
                      w = "ALL"%string
                      \/ exists l, In l logs /\ title_of l = Some w)
    | None => exists l, In l logs /\ title_of l = None
    end.
Proof.
  intros localeCompare toLowerCase logs Hfold. unfold workspaces.
  pose proof (found_of_spec logs [] (NoDup_nil _)) as Hfound.
  destruct (found_of logs []) as [found0|]; [|exact Hfound].
  destruct Hfound as (Hnd & Hin & Htitles).
  assert (Hinit : placing found0 (["ALL"%string], found0)).
  { unfold placing. split; [exists []; reflexivity|].
    split; [constructor; [tauto | constructor]|].
    split; [exact Hnd|]. split; [intros x [<-|[]]; left; reflexivity|].
    split; [intros x Hx; right; exact Hx | tauto]. }
  assert (Hdesired :
            Forall (fun name => toLowerCase "ALL" <> toLowerCase name)
                   desiredOrder).
  { unfold desiredOrder.
    repeat constructor; rewrite !Hfold by reflexivity; discriminate. }
  pose proof (fold_place_keeps toLowerCase found0 desiredOrder Hdesired
                               _ Hinit) as Hend.
  destruct (fold_left (place toLowerCase) desiredOrder
                      (["ALL"%string], found0)) as [ordered fnd].
  destruct Hend as (Hhead & Hno & Hnf & Hord & Hall & Hsub).
  set (remaining := sort_by localeCompare
                      (filter (fun f => negb (set_has f ordered)) fnd)).
  assert (Hrem : forall x, In x remaining <-> In x fnd /\ ~ In x ordered).
  { intros x. unfold remaining. split.
    - intros H. eapply Permutation_in in H; [|apply sort_by_perm].
      apply filter_In in H as [H1 H2]. split; [exact H1|].
      intros H. apply set_has_In in H. rewrite H in H2. discriminate.
    - intros [H1 H2]. eapply Permutation_in;
        [apply Permutation_sym, sort_by_perm|].
      apply filter_In. split; [exact H1|].
      destruct (set_has x ordered) eqn:E; [|reflexivity].
      apply set_has_In in E. contradiction. }
  split; [|split; [|split]].
  - destruct Hhead as [rest ->]. exists (rest ++ remaining). reflexivity.
  - apply NoDup_app; [exact Hno | |].
    + eapply Permutation_NoDup; [apply Permutation_sym, sort_by_perm|].
      apply filter_NoDup. exact Hnf.
    + intros a Ha Hr. apply Hrem in Hr. tauto.
  - intros l Hl. destruct (title_of l) as [t|] eqn:Et;
      [|exfalso; exact (Htitles l Hl Et)].
    exists t. split; [reflexivity|].
    assert (H0 : In t found0) by (apply Hin; right; eauto).
    apply in_or_app.
    destruct (in_dec string_dec t ordered) as [Ho|Ho]; [left; exact Ho|].
    right. apply Hrem. destruct (Hall _ H0); tauto.
  - intros w Hw. apply in_app_or in Hw as [Hw|Hw].
    + destruct (Hord _ Hw) as [E|[H0 _]]; [left; exact E|].
      apply Hin in H0 as [[]|H0]. right. exact H0.
    + apply Hrem in Hw as [Hw _]. apply Hsub, Hin in Hw as [[]|H0].
      right. exact H0.
Qed.

Lemma workspace_buttons_witness :
  exists t, title_of unfiled_log = Some t
            /\ In t ["ALL"; "Sandbox"; "unknown"]%string.
Proof.
  apply (proj1 (proj2 (proj2
    (workspace_buttons (fun _ _ => 0%Z) ascii_lowercase
                       [old_log; unfiled_log] (fun s _ => eq_refl))))).
  right; left; reflexivity.
Defined.

(** X6. For a record whose [workspace_title] is a non-empty string
    without surrounding white space, the button list offers that title,
    and with that button selected the workspace filter lets the record
    through. *)
Theorem clean_title_button_shows_its_record :
  forall (localeCompare : string -> string -> Z)
         (toLowerCase : string -> string) (logs : list record)
         (ws : list string) (l : record) (s : string),
    folds_ascii toLowerCase ->
    workspaces localeCompare toLowerCase logs = Some ws ->
    In l logs ->
    field l "workspace_title" = Some (JStr s) ->
    s <> ""%string -> trim s = s ->
    In s ws /\ workspace_mismatch s l = false.
Proof.
  intros localeCompare toLowerCase logs ws l s Hfold Hws Hl Hf Hs Htrim.
  pose proof (workspace_buttons localeCompare toLowerCase logs Hfold) as H.
  rewrite Hws in H.
  destruct H as (_ & _ & Hall & _).
  assert (Hne : (s =? "")%string = false) by (apply String.eqb_neq; exact Hs).
  split.
  - destruct (Hall l Hl) as (t & Ht & Hin).
    unfold title_of, or_else in Ht. rewrite Hf in Ht.
    cbn [truthy truthy_json] in Ht. rewrite Hne in Ht. cbn [negb] in Ht.
    cbn [truthy truthy_json] in Ht. rewrite Hne in Ht. cbn [negb] in Ht.
    rewrite Htrim, Hne in Ht. injection Ht as <-. exact Hin.
  - unfold workspace_mismatch, workspace_of, or_else. rewrite Hf.
    cbn [truthy truthy_json]. rewrite Hne. cbn [negb].
    cbn [truthy truthy_json]. rewrite Hne. cbn [negb strict_eq_string].
    rewrite String.eqb_refl. apply andb_false_r.
Qed.

Lemma clean_title_button_shows_its_record_witness :
  In "Sandbox"%string ["ALL"; "Sandbox"]%string
  /\ workspace_mismatch "Sandbox" old_log = false.
Proof.
  apply (clean_title_button_shows_its_record (fun _ _ => 0%Z)
           ascii_lowercase [old_log; undated_log]
           ["ALL"; "Sandbox"]%string old_log "Sandbox"%string).
  - intros s _. reflexivity.
  - reflexivity.
  - left. reflexivity.
  - reflexivity.
  - discriminate.
  - reflexivity.
Defined.

End WorkspacesMore.

(** ** Audit logs: nothing at the top level is lost *)

Module AuditLogsMore.
Import AuditLogs AuditLogsFacts JSFacts.

(** X7. Every top-level field of an expanded log is shown: it has its row
    among the fields, or it is [params] or [query_context] and the
    dedicated section shows that very value. *)
Theorem top_level_fields_are_shown :
  forall (log : record) (k : string) (v : json),
    field log k = Some v ->
    In (k, v) (rows_of log)
    \/ (k = "params"%string /\ paramVal log = Some v)
    \/ (k = "query_context"%string /\ qcVal log = Some v).
Proof.
  intros log k v Hf. unfold field in Hf.
  destruct (hidden k) eqn:Eh.
  - right. unfold hidden in Eh. apply orb_true_iff in Eh as [E|E];
      apply String.eqb_eq in E; subst k.
    + left. split; [reflexivity|]. unfold paramVal, field. rewrite Hf.
      reflexivity.
    + right. split; [reflexivity|]. unfold qcVal, field. rewrite Hf.
      reflexivity.
  - left. apply (walk_emits_entry "" log k v);
      [apply lookup_In; exact Hf | exact Eh].
Qed.

Lemma top_level_fields_are_shown_witness :
  In ("details"%string, JObj [("params"%string, JObj [("y"%string, JNum 2)])])
     (rows_of example_log)
  \/ ("details" = "params" /\ paramVal example_log
                              = Some (JObj [("params"%string,
                                             JObj [("y"%string, JNum 2)])]))%string
  \/ ("details" = "query_context"
      /\ qcVal example_log
         = Some (JObj [("params"%string, JObj [("y"%string, JNum 2)])]))%string.
Proof.
  apply (top_level_fields_are_shown example_log "details"%string).
  reflexivity.
Defined.

(** X8. Whenever a dedicated section has a value other than [null] to
    show, be it the record's own [params] or [query_context] or the one
    inside [details], the row offers the [Show] button that opens it. *)
Theorem sections_are_reachable :
  forall (log : record) (v : json),
    (paramVal log = Some v \/ qcVal log = Some v) -> v <> JNull ->
    offers_show log = true.
Proof.
  assert (Hdetails : forall log k v,
             opt_prop (field log "details") k = Some v ->
             truthy (field log "details") = true).
  { intros log k v H. destruct (field log "details") as [[| | | | |kv]|];
      simpl in H; try discriminate. reflexivity. }
  intros log v H Hv. unfold offers_show, hasHidden. cbn [existsb].
  destruct H as [H|H].
  - unfold paramVal in H.
    destruct (field log "params") as [p|] eqn:Ep.
    + injection H as ->. destruct v; try contradiction; reflexivity.
    + rewrite (Hdetails _ _ _ H). apply orb_true_r.
  - unfold qcVal in H.
    destruct (field log "query_context") as [p|] eqn:Ep.
    + injection H as ->.
      destruct v; try contradiction;
        destruct (field log "params") as [[| | | | |]|]; reflexivity.
    + rewrite (Hdetails _ _ _ H). apply orb_true_r.
Qed.

Lemma sections_are_reachable_witness : offers_show example_log = true.
Proof.
  apply (sections_are_reachable example_log (JObj [("x"%string, JNum 1)])).
  - left. reflexivity.
  - discriminate.
Defined.

End AuditLogsMore.

(** ** Roles and teams *)

Module RolesMore.
Import Roles Analytics JSFacts MetricsFacts.

Lemma role_names_snoc (ms : list record) (m : record) :
  role_names (ms ++ [m])
  = role_names ms ++ match roleName_of m with
                     | Some (JStr s) => if (s =? "")%string then [] else [s]
                     | _ => []
                     end.
Proof.
  unfold role_names. rewrite flat_map_app. simpl. rewrite app_nil_r.
  reflexivity.
Qed.

Lemma map_has_roles (s : string) (names : list string) :
  Users.map_has (JStr s)
    (map (fun n => (JStr n, {| id := JStr n; name := JStr n |})) names)
  = true <-> In s names.
Proof.
  unfold Users.map_has. rewrite existsb_exists. split.
  - intros (e & He & Hk). apply in_map_iff in He as (n & <- & Hn).
    simpl in Hk. apply String.eqb_eq in Hk. subst. exact Hn.
  - intros H. eexists. split; [apply in_map; exact H|].
    simpl. apply String.eqb_refl.
Qed.

Lemma first_occurrences_In (ks : list string) (k : string) :
  In k (first_occurrences ks) <-> In k ks.
Proof.
  unfold first_occurrences. rewrite <- in_rev, nodup_In, <- in_rev.
  reflexivity.
Qed.

(** X9. When the role names of the members are strings, the roles derived
    from them are the distinct non-empty names in the order of their
    first occurrence, each once, with the name serving as both [id] and
    [name]; members without a role contribute nothing. *)
Theorem derived_roles_are_first_occurrences :
  forall membersRaw : list record,
    Forall plain_role membersRaw ->
    derive membersRaw
    = map (fun s => {| id := JStr s; name := JStr s |})
          (first_occurrences (role_names membersRaw)).
Proof.
  intros ms H. unfold derive.
  assert (E : fold_left add_role ms []
              = map (fun n => (JStr n, {| id := JStr n; name := JStr n |}))
                    (first_occurrences (role_names ms))).
  { induction ms as [|m ms IH] using rev_ind; [reflexivity|].
    apply Forall_app in H as [Hms Hm]. inversion Hm as [|? ? Hp _]; subst.
    rewrite fold_left_app. simpl. rewrite (IH Hms), role_names_snoc.
    unfold add_role. unfold plain_role in Hp.
    destruct (roleName_of m) as [[|b|n|s|xs|kv]|];
      try (cbn [truthy_json] in Hp; try discriminate Hp;
           cbn [truthy_json]; rewrite ?Hp; cbn [andb];
           rewrite app_nil_r; reflexivity).
    - cbn [truthy_json].
      destruct (String.eqb_spec s "") as [->|Hs]; cbn [negb andb].
      + rewrite app_nil_r. reflexivity.
      + rewrite first_occurrences_snoc.
        destruct (in_dec string_dec s (role_names ms)) as [Hin|Hout].
        * apply (proj2 (first_occurrences_In _ _)) in Hin.
          apply (proj2 (map_has_roles _ _)) in Hin. rewrite Hin.
          reflexivity.
        * destruct (Users.map_has (JStr s) _) eqn:Eh.
          -- apply (proj1 (map_has_roles _ _)) in Eh.
             apply (proj1 (first_occurrences_In _ _)) in Eh. contradiction.
          -- cbn [negb]. rewrite map_app. reflexivity. }
  rewrite E, map_map. reflexivity.
Qed.

Lemma derived_roles_are_first_occurrences_witness :
  derive [Users.alice_member; Users.anonymous_member; Users.alice_again]
  = [ {| id := JStr "Admin"; name := JStr "Admin" |};
      {| id := JStr "Viewer"; name := JStr "Viewer" |} ].
Proof.
  rewrite derived_roles_are_first_occurrences; [reflexivity|].
  repeat constructor.
Defined.

End RolesMore.

Module TeamsMore.
Import Teams UsersFacts JSFacts Fetcher FanOutFacts.

Lemma same_key_right (a b k : json) :
  Users.same_key a b = true -> Users.same_key a k = Users.same_key b k.
Proof.
  intros H. destruct (Users.same_key b k) eqn:E.
  - eapply same_key_trans; eassumption.
  - destruct (Users.same_key a k) eqn:E'; [|reflexivity].
    rewrite <- E. symmetry. rewrite same_key_sym in H.
    eapply same_key_trans; eassumption.
Qed.

Lemma same_key_left (a b k : json) :
  Users.same_key a b = true -> Users.same_key k a = Users.same_key k b.
Proof.
  intros H. rewrite (same_key_sym k a), (same_key_sym k b).
  apply same_key_right. exact H.
Qed.

(** Reading back after [map.set]. *)
Lemma map_get_set {V : Type} (k k' : json) (v : V) (m : list (json * V)) :
  map_get k (map_set k' v m)
  = if Users.same_key k' k then Some v else map_get k m.
Proof.
  unfold map_get. induction m as [|[k0 v0] m IH]; simpl.
  - destruct (Users.same_key k' k); reflexivity.
  - destruct (Users.same_key k0 k') eqn:E0; simpl.
    + rewrite (same_key_right _ _ k E0).
      destruct (Users.same_key k' k); reflexivity.
    + destruct (Users.same_key k0 k) eqn:E1; [|exact IH].
      destruct (Users.same_key k' k) eqn:E2; [|reflexivity].
      rewrite same_key_sym in E2.
      rewrite (same_key_trans _ _ _ E1 E2) in E0. discriminate.
Qed.

Lemma filed_under_same (a b : json) (members : list record) :
  Users.same_key a b = true ->
  filed_under a members = filed_under b members.
Proof.
  intros H. unfold filed_under. apply filter_ext. intros m.
  destruct (field m "_team_id") as [key|]; [|reflexivity].
  apply same_key_left. exact H.
Qed.

Lemma memberCount_get (members : list record) :
  forall k : json,
    map_get k (memberCount members)
    = match filed_under k members with
      | [] => None
      | l => Some (Z.of_nat (List.length l))
      end.
Proof.
  unfold memberCount.
  induction members as [|m members IH] using rev_ind; intros k;
    [reflexivity|].
  rewrite fold_left_app. cbn [fold_left]. unfold count_member at 1.
  unfold filed_under. rewrite filter_app. cbn [filter].
  fold (filed_under k members).
  destruct (field m "_team_id") as [key|].
  2:{ rewrite app_nil_r. exact (IH k). }
  rewrite map_get_set.
  destruct (Users.same_key key k) eqn:E.
  - rewrite (IH key), (filed_under_same key k members E).
    destruct (filed_under k members) as [|x l].
    + reflexivity.
    + destruct (Z.eqb_spec (Z.of_nat (List.length (x :: l))) 0) as [E0|_];
        [simpl in E0; lia|].
      cbn [app]. f_equal. cbn [List.length]. rewrite length_app. simpl. lia.
  - rewrite app_nil_r. exact (IH k).
Qed.

(** X10. The [Members] cell of a team shows how many member records are
    filed, in [_team_id], under the team's [id] (or, without one, its
    [uuid]); records without [_team_id] are not counted for any team, and
    a team without either key shows 0. *)
Theorem members_cell_counts_filed_members :
  forall (members : list record) (t : record),
    members_cell members t
    = match team_key t with
      | Some id => Z.of_nat (List.length (filed_under id members))
      | None => 0%Z
      end.
Proof.
  intros members t. unfold members_cell.
  destruct (team_key t) as [id|]; [|reflexivity].
  rewrite memberCount_get.
  destruct (filed_under id members) as [|x l]; [reflexivity|].
  destruct (Z.eqb_spec (Z.of_nat (List.length (x :: l))) 0) as [E0|_];
    [simpl in E0; lia | reflexivity].
Qed.

Section FanOutToTeams.

Context {World : Type}.
Variable api : string -> World -> option response * World.
Variable teamMembersPattern : string.

(** X11. When every team of the snapshot has an [id] that is a non-zero
    number or a non-empty string, the fetcher files each member record it
    gathers under the very key with which the Teams view looks up one of
    these teams, so every fetched member is counted in the [Members] cell
    of a team. *)
Theorem fetched_members_are_counted :
  forall (teams : list record) (s : run World),
    Forall (fun t => has_plain_id t = true) teams ->
    let '(teamMembers, _, _) :=
      fan_out api teamMembersPattern (map JObj teams) [] [] s in
    Forall (fun r => exists t,
                In t teams /\ field r "_team_id" = team_key t
                /\ (1 <= members_cell teamMembers t)%Z) teamMembers.
Proof.
  intros teams s Hids.
  pose proof (fan_out_inv api teamMembersPattern (map JObj teams)
                (map JObj teams) [] [] s (incl_refl _)) as H.
  destruct (fan_out api teamMembersPattern (map JObj teams) [] [] s)
    as [[teamMembers logs] s'].
  destruct H as (log & newMembers & newLogs & _ & E & _ & Hm & _).
  cbn [app] in E. subst newMembers.
  rewrite Forall_forall in *. intros r Hr.
  destruct (Hm r Hr)
    as (tj & c & ep & res & payload & m & Ht & _ & _ & _ & _ & _ & _ & _
        & Hid & _).
  apply in_map_iff in Ht as (t & <- & Ht).
  specialize (Hids t Ht). unfold has_plain_id in Hids.
  assert (Hkey : exists id, field t "id" = Some id
                            /\ Users.same_key id id = true
                            /\ field r "_team_id" = Some id
                            /\ team_key t = Some id).
  { unfold team_id_of, numericId, team_key, or_else in *.
    cbn [opt_prop prop] in Hid. fold (field t "id") in Hid.
    destruct (field t "id") as [[|b|n|str|xs|kv]|]; try discriminate Hids.
    - exists (JNum n). cbn [truthy truthy_json] in *. rewrite Hids in *.
      repeat split; try assumption. simpl. apply Z.eqb_refl.
    - exists (JStr str). cbn [truthy truthy_json] in *. rewrite Hids in *.
      repeat split; try assumption. simpl. apply String.eqb_refl. }
  destruct Hkey as (id & _ & Hrefl & Hfiled & Hk).
  exists t. split; [exact Ht|]. split; [congruence|].
  rewrite members_cell_counts_filed_members, Hk.
  assert (Hin : In r (filed_under id teamMembers)).
  { unfold filed_under. apply filter_In. split; [exact Hr|].
    rewrite Hfiled. exact Hrefl. }
  destruct (filed_under id teamMembers); [destruct Hin | simpl; lia].
Qed.

End FanOutToTeams.

Lemma fetched_members_are_counted_witness :
  Forall (fun r => exists t,
              In t [[("id"%string, JNum 7); ("name"%string, JStr "eng")]]
              /\ field r "_team_id" = team_key t
              /\ (1 <= members_cell
                         [[("user_id"%string, JNum 1);
                           ("_team_id"%string, JNum 7);
                           ("_team_identifier_used"%string, JStr "eng")]]
                         t)%Z)
         [[("user_id"%string, JNum 1); ("_team_id"%string, JNum 7);
           ("_team_identifier_used"%string, JStr "eng")]].
Proof.
  apply (fetched_members_are_counted one_record
           "/v1/teams/{team_id}/memberships"
           [[("id"%string, JNum 7); ("name"%string, JStr "eng")]]
           {| world := tt; requests := [] |}).
  repeat constructor.
Defined.

End TeamsMore.

(** ** CSV export *)

Module DownloadMore.
Import Download JSFacts WorkspacesMore.






Lemma app_assoc_string (a b c : string) :
  ((a ++ b) ++ c)%string = (a ++ b ++ c)%string.
Proof.
  induction a as [|x a IH]; simpl; [reflexivity | rewrite IH; reflexivity].
Qed.





Lemma all_keys_spec (keys : list string) :
  forall s0, NoDup s0 ->
    NoDup (fold_left (fun s k => set_add k s) keys s0)
    /\ forall k, In k (fold_left (fun s k => set_add k s) keys s0)
                 <-> In k s0 \/ In k keys.
Proof.
  induction keys as [|x keys IH]; intros s0 H; simpl.
  - split; [exact H | tauto].
  - destruct (IH (set_add x s0) (set_add_NoDup _ _ H)) as [H1 H2].
    split; [exact H1|]. intros k. rewrite H2, set_add_In. split.
    + intros [[->|H']|H']; auto.
    + intros [H'|[->|H']]; auto.
Qed.

(** X13. The columns of the export are, each once, the keys that occur in
    some row, except those that start with an underscore (so the
    provenance fields are never exported) and those whose value in the
    first row is [null], an array or an object. *)
Theorem csv_columns :
  forall (first : record) (rows : list record),
    NoDup (columns (first :: rows))
    /\ forall k, In k (columns (first :: rows))
                 <-> (exists r, In r (first :: rows) /\ In k (map fst r))
                     /\ startsWith k "_" = false
                     /\ is_object (field first k) = false.
Proof.
  intros first rows. unfold columns, all_keys.
  destruct (all_keys_spec (flat_map (map fst) (first :: rows)) []
                          (NoDup_nil _)) as [Hnd Hin].
  split; [apply filter_NoDup; exact Hnd|].
  intros k. rewrite filter_In, Hin, in_flat_map, andb_true_iff,
    !negb_true_iff.
  split.
  - intros [[[]|H1] [H2 H3]]. auto.
  - intros [H1 [H2 H3]]. auto.
Qed.

Lemma csv_columns_witness :
  In "email"%string (columns [exported_member])
  /\ ~ In "_team_id"%string (columns [exported_member]).
Proof.
  destruct (csv_columns exported_member []) as [_ H]. split.
  - apply (proj2 (H "email"%string)). split; [|split; reflexivity].
    exists exported_member. split; [left; reflexivity|]. simpl. tauto.
  - intros Hin. apply (proj1 (H "_team_id"%string)) in Hin.
    destruct Hin as (_ & Hs & _). discriminate Hs.
Defined.

Lemma endsWith_app (f ext : string) : endsWith (f ++ ext) ext = true.
Proof.
  induction f as [|c f IH]; simpl.
  - destruct ext; simpl; rewrite ?String.eqb_refl, ?Ascii.eqb_refl;
      reflexivity.
  - rewrite IH. apply orb_true_r.
Qed.

(** X14. The name under which a file is offered always ends with its
    extension, and naming is idempotent: a name that already ends with the
    extension is kept, so the extension is never appended twice. *)
Theorem download_name_has_extension_once :
  forall ext filename : string,
    endsWith (download_name ext filename) ext = true
    /\ download_name ext (download_name ext filename)
       = download_name ext filename.
Proof.
  intros ext filename.
  assert (H : endsWith (download_name ext filename) ext = true).
  { unfold download_name. destruct (endsWith filename ext) eqn:E;
      [exact E | apply endsWith_app]. }
  split; [exact H|]. unfold download_name at 1. rewrite H. reflexivity.
Qed.

End DownloadMore.

(** ** Loading a data file *)

Module FetchDataMore.
Import Fetcher FetchData JSFacts WorkspacesMore DownloadMore.

Section Load.

Context {World : Type}.
Variable fetch : string -> World -> (response + string) * World.

Lemma ask_answers (url : string) (s : session World) :
  answers (snd (ask fetch url s))
  = answers s ++ [(url, fst (ask fetch url s))].
Proof. unfold ask. destruct (fetch url (world s)). reflexivity. Qed.

(** The loop asks the candidates in order and stops at the first usable
    answer. *)
Lemma try_urls_spec (urls : list string) :
  forall (errors : list string) (s : session World),
    let '(r, errors', s') := try_urls fetch urls errors s in
    exists before,
      Forall (fun a => failed (snd a) = true) before
      /\ errors' = errors ++ map error_line before
      /\ match r with
         | Some out =>
             exists url res rest,
               answers s' = answers s ++ before ++ [(url, inl res)]
               /\ urls = map fst before ++ url :: rest
               /\ ok res = true
               /\ out = match body res with
                        | Some payload => Loaded payload
                        | None => Unreadable
                        end
         | None =>
             answers s' = answers s ++ before /\ urls = map fst before
         end.
Proof.
  induction urls as [|url rest IH]; intros errors s; cbn [try_urls].
  - exists []. rewrite !app_nil_r. repeat split. constructor.
  - pose proof (ask_answers url s) as Hask.
    destruct (ask fetch url s) as [a s1]. cbn [fst snd] in Hask.
    assert (Hnext : forall line,
               failed a = true -> line = error_line (url, a) ->
               let '(r, errors', s') :=
                 try_urls fetch rest (errors ++ [line]) s1 in
               exists before,
                 Forall (fun a => failed (snd a) = true) before
                 /\ errors' = errors ++ map error_line before
                 /\ match r with
                    | Some out =>
                        exists url0 res rest0,
                          answers s' = answers s ++ before ++ [(url0, inl res)]
                          /\ url :: rest = map fst before ++ url0 :: rest0
                          /\ ok res = true
                          /\ out = match body res with
                                   | Some payload => Loaded payload
                                   | None => Unreadable
                                   end
                    | None =>
                        answers s' = answers s ++ before
                        /\ url :: rest = map fst before
                    end).
    { intros line Hfail ->. specialize (IH (errors ++ [error_line (url, a)]) s1).
      destruct (try_urls fetch rest (errors ++ [error_line (url, a)]) s1)
        as [[r errors'] s'].
      destruct IH as (before & Hb & He & Hr).
      exists ((url, a) :: before).
      split; [constructor; [exact Hfail | exact Hb]|].
      split; [rewrite He, <- app_assoc; reflexivity|].
      destruct r as [out|].
      - destruct Hr as (url0 & res & rest0 & Ha & Hu & Hok & Hout).
        exists url0, res, rest0. rewrite Ha, Hask, Hu, <- !app_assoc.
        repeat split; assumption.
      - destruct Hr as [Ha Hu]. rewrite Ha, Hask, Hu, <- app_assoc.
        split; reflexivity. }
    destruct a as [res|message].
    + destruct (ok res) eqn:Hok.
      * exists []. split; [constructor|]. split; [symmetry; apply app_nil_r|].
        exists url, res, rest. rewrite Hask. repeat split. exact Hok.
      * apply Hnext; [simpl; rewrite Hok; reflexivity | reflexivity].
    + apply Hnext; reflexivity.
Qed.

(** X15. A data file is loaded from the first candidate that answers
    with [ok]: the candidates before it were asked in order and failed,
    none after it is asked, and the result is its body, or a rejection
    when the body cannot be read, even for an optional file.  When no
    candidate answers with [ok], each one has been asked once, in order;
    an optional file then loads as the empty array, and a required one
    fails with a message that lists every attempt. *)
Theorem data_file_load_outcome :
  forall (BASE_URL : option string) (now : Z) (file : string)
         (optional : bool) (w : World),
    let '(r, s') :=
      fetchDataFile fetch BASE_URL now file optional
                    {| world := w; answers := [] |} in
    exists before,
      Forall (fun a => failed (snd a) = true) before
      /\ ((exists url res rest,
              answers s' = before ++ [(url, inl res)]
              /\ candidates BASE_URL now file
                 = map fst before ++ url :: rest
              /\ ok res = true
              /\ r = match body res with
                     | Some payload => Loaded payload
                     | None => Unreadable
                     end)
          \/ (answers s' = before
              /\ candidates BASE_URL now file = map fst before
              /\ r = if optional then Loaded (JArr [])
                     else Failed ("All fetch attempts failed for " ++ file
                                  ++ ":" ++ Download.newline
                                  ++ join Download.newline
                                          (map error_line before)))).
Proof.
  intros BASE_URL now file optional w. unfold fetchDataFile.
  pose proof (try_urls_spec (candidates BASE_URL now file) []
                {| world := w; answers := [] |}) as H.
  destruct (try_urls fetch (candidates BASE_URL now file) []
              {| world := w; answers := [] |}) as [[r errors] s'].
  destruct H as (before & Hb & He & Hr). cbn [answers app] in *.
  destruct r as [out|].
  - exists before. split; [exact Hb|]. left.
    destruct Hr as (url & res & rest & Ha & Hu & Hok & Hout).
    exists url, res, rest. repeat split; assumption.
  - destruct Hr as [Ha Hu]. subst errors.
    destruct optional; exists before; (split; [exact Hb|]); right;
      repeat split; assumption.
Qed.

End Load.

Lemma length_append (a b : string) :
  String.length (a ++ b) = (String.length a + String.length b)%nat.
Proof.
  induction a as [|c a IH]; simpl; [reflexivity | rewrite IH; reflexivity].
Qed.

Lemma append_cancel_r (a b s : string) :
  (a ++ s)%string = (b ++ s)%string -> a = b.
Proof.
  revert b. induction a as [|c a IH]; intros [|d b] H.
  - reflexivity.
  - apply (f_equal String.length) in H. simpl in H.
    rewrite length_append in H. lia.
  - apply (f_equal String.length) in H. simpl in H.
    rewrite length_append in H. lia.
  - simpl in H. injection H as -> H. f_equal. apply IH. exact H.
Qed.

Lemma set_adds_length (keys : list string) :
  forall s0,
    (List.length (fold_left (fun s k => set_add k s) keys s0)
     <= List.length s0 + List.length keys)%nat.
Proof.
  induction keys as [|k keys IH]; intros s0; simpl; [lia|].
  specialize (IH (set_add k s0)). unfold set_add in *.
  destruct (set_has k s0); [lia|]. rewrite length_app in IH. simpl in IH. lia.
Qed.

(** X16. At most four addresses are tried for a file, none of them twice;
    each ends with the cache-busting parameter of the current time, and
    the root path, the relative path and the deployment path of the file
    are always among them, whatever the configured base path is. *)
Theorem data_file_candidates :
  forall (BASE_URL : option string) (now : Z) (file : string),
    (List.length (candidates BASE_URL now file) <= 4)%nat
    /\ NoDup (candidates BASE_URL now file)
    /\ Forall (fun u => Download.endsWith u (cache_bust now) = true)
              (candidates BASE_URL now file)
    /\ In ("/data/" ++ file ++ cache_bust now)%string
          (candidates BASE_URL now file)
    /\ In ("data/" ++ file ++ cache_bust now)%string
          (candidates BASE_URL now file)
    /\ In ("/preset-analytics-app/data/" ++ file ++ cache_bust now)%string
          (candidates BASE_URL now file).
Proof.
  intros BASE_URL now file. unfold candidates.
  destruct (all_keys_spec (names BASE_URL file) [] (NoDup_nil _))
    as [Hnd Hin].
  pose proof (set_adds_length (names BASE_URL file) []) as Hlen.
  set (uniq := fold_left (fun s u => set_add u s) (names BASE_URL file) [])
    in *.
  assert (Hmem : forall p, In p (names BASE_URL file) ->
                           In (p ++ cache_bust now)%string
                              (map (fun u => (u ++ cache_bust now)%string)
                                   uniq)).
  { intros p Hp. apply in_map_iff. exists p. split; [reflexivity|].
    apply Hin. right. exact Hp. }
  split; [rewrite length_map; exact Hlen|].
  split.
  { clear -Hnd. induction Hnd as [|u l Hu _ IH]; simpl; constructor.
    - intros H. apply in_map_iff in H as (u' & E & Hu').
      apply append_cancel_r in E. subst u'. contradiction.
    - exact IH. }
  split.
  { apply Forall_map. apply Forall_forall. intros u _. apply endsWith_app. }
  rewrite <- !app_assoc_string.
  repeat split; apply Hmem; unfold names; simpl; tauto.
Qed.

End FetchDataMore.

(* ================================================================== *)
(** * Further properties of the fetcher *)

(** ** The session *)

Module SessionMore.
Import Fetcher JSFacts AuthFacts.

Section Session.

Context {World : Type}.
Variable fetch : request -> World -> option response * World.
Variable token secret : string.
Variable presetBearer : option string.
Variable base : string.

Lemma send_one (req : request) (n : net World) :
  sent (snd (send fetch req n)) = sent n ++ [req].
Proof. apply send_sent. Qed.

Lemma capture_cookie_keeps (res : response) (st : session) :
  cachedJWT (capture_cookie res st) = cachedJWT st
  /\ attemptedAuth (capture_cookie res st) = attemptedAuth st.
Proof.
  unfold capture_cookie.
  destruct (headers_get (headers res) "set-cookie") as [c|];
    [destruct (c =? "")%string|]; split; reflexivity.
Qed.

(** What [settle] leaves in the session. *)
Lemma settle_session (res : response) (json : json) (st : session) :
  truthy (cachedJWT st) = false ->
  let '(r, st') := settle res json st in
  attemptedAuth st' = attemptedAuth st
  /\ match r with
     | Some (Returned jwt) =>
         (truthy jwt = true /\ cachedJWT st' = jwt)
         \/ (jwt = Some JNull /\ truthy (cachedJWT st') = false
             /\ truthy_text (sessionCookie st') = true)
     | Some (Threw _) => False
     | None =>
         truthy (cachedJWT st') = false
         /\ truthy_text (sessionCookie st') = false
     end.
Proof.
  intros Hc. unfold settle.
  destruct (capture_cookie_keeps res st) as [Hk Ha].
  destruct (truthy (extractJWT json (headers res))) eqn:Ej.
  - cbn [attemptedAuth cachedJWT]. split; [exact Ha|]. left. split; auto.
  - destruct (truthy_text (sessionCookie (capture_cookie res st))) eqn:Ek.
    + split; [exact Ha|]. right. rewrite Hk. auto.
    + split; [exact Ha|]. rewrite Hk. auto.
Qed.

(** One block of the exchange: what it sends and what it leaves. *)
Lemma post_exchange_spec (st : session) (n : net World) :
  truthy (cachedJWT st) = false ->
  truthy_text (sessionCookie st) = false ->
  let '(r, st', n') := post_exchange fetch token secret base st n in
  (exists extra, sent n' = sent n ++ extra
                 /\ (List.length extra <= 2)%nat
                 /\ Forall (fun req => url req = authUrl base) extra)
  /\ attemptedAuth st' = attemptedAuth st
  /\ match r with
     | Some (Returned jwt) =>
         (truthy jwt = true /\ cachedJWT st' = jwt)
         \/ (jwt = Some JNull /\ truthy (cachedJWT st') = false
             /\ truthy_text (sessionCookie st') = true)
     | Some (Threw _) => False
     | None =>
         truthy (cachedJWT st') = false
         /\ truthy_text (sessionCookie st') = false
     end.
Proof.
  intros Hc Hk. unfold post_exchange.
  pose proof (send_one (primary_request token secret base) n) as H1.
  destruct (send fetch (primary_request token secret base) n) as [res1 n1].
  cbn [snd] in H1.
  assert (Hone : exists extra, sent n1 = sent n ++ extra
                               /\ (List.length extra <= 2)%nat
                               /\ Forall (fun req => url req = authUrl base)
                                         extra).
  { exists [primary_request token secret base].
    split; [exact H1|]. split; [simpl; lia|]. repeat constructor. }
  destruct res1 as [res1|]; [|split; [exact Hone | auto]].
  assert (Hsecond :
    let '(res, n2) :=
      (if (status res1 =? 400)%Z
       then send fetch (legacy_request token secret base) n1
       else (Some res1, n1)) in
    exists extra, sent n2 = sent n ++ extra
                  /\ (List.length extra <= 2)%nat
                  /\ Forall (fun req => url req = authUrl base) extra).
  { destruct (status res1 =? 400)%Z; [|exact Hone].
    pose proof (send_one (legacy_request token secret base) n1) as H2.
    destruct (send fetch (legacy_request token secret base) n1)
      as [res2 n2].
    cbn [snd] in H2.
    exists [primary_request token secret base;
            legacy_request token secret base].
    split; [rewrite H2, H1, <- app_assoc; reflexivity|].
    split; [simpl; lia|]. repeat constructor. }
  destruct (if (status res1 =? 400)%Z
            then send fetch (legacy_request token secret base) n1
            else (Some res1, n1)) as [res n2].
  destruct res as [res|]; [|split; [exact Hsecond | auto]].
  destruct (ok res); [|split; [exact Hsecond | auto]].
  destruct (body res) as [json|]; [|split; [exact Hsecond | auto]].
  pose proof (settle_session res json (with_debug (Some json) st) Hc) as Hs.
  destruct (settle res json (with_debug (Some json) st)) as [r st'].
  destruct Hs as [Ha Hr]. split; [exact Hsecond|]. split; assumption.
Qed.

Lemma basic_exchange_spec (st : session) (n : net World) :
  truthy (cachedJWT st) = false ->
  let '(r, st', n') := basic_exchange fetch token secret base st n in
  sent n' = sent n ++ [basic_request token secret base]
  /\ attemptedAuth st' = attemptedAuth st
  /\ match r with
     | Some (Returned jwt) =>
         (truthy jwt = true /\ cachedJWT st' = jwt)
         \/ (jwt = Some JNull /\ truthy (cachedJWT st') = false
             /\ truthy_text (sessionCookie st') = true)
     | Some (Threw _) => False
     | None => truthy (cachedJWT st') = false
     end.
Proof.
  intros Hc. unfold basic_exchange.
  pose proof (send_one (basic_request token secret base) n) as H1.
  destruct (send fetch (basic_request token secret base) n) as [res n1].
  cbn [snd] in H1.
  destruct res as [res|]; [|auto].
  destruct (ok res); [|auto].
  destruct (body res) as [json|]; [|auto].
  pose proof (settle_session res json
                (with_debug (debugAuthPayload st ||| Some json)%js st) Hc)
    as Hs.
  destruct (settle res json _) as [r st'].
  destruct Hs as [Ha Hr]. split; [exact H1|]. split; [exact Ha|].
  destruct r as [[jwt|m]|]; [exact Hr | exact Hr | tauto].
Qed.

(** The first call, on a session that has not tried yet. *)
Lemma obtainJWT_first (st : session) (n : net World) :
  truthy_text presetBearer = false ->
  attemptedAuth st = false ->
  truthy (cachedJWT st) = false ->
  truthy_text (sessionCookie st) = false ->
  let '(o, st', n') :=
    obtainJWT fetch token secret presetBearer base st n in
  remembers st' o
  /\ exists extra, sent n' = sent n ++ extra
                   /\ (List.length extra <= 3)%nat
                   /\ Forall (fun req => url req = authUrl base) extra.
Proof.
  intros Hb Ha Hc Hk. unfold obtainJWT. rewrite Hb, Hc, Ha. cbn [andb].
  set (st0 := {| cachedJWT := cachedJWT st; attemptedAuth := true;
                 debugAuthPayload := debugAuthPayload st;
                 sessionCookie := sessionCookie st |}).
  pose proof (post_exchange_spec st0 n Hc Hk) as Hp.
  destruct (post_exchange fetch token secret base st0 n) as [[r st1] n1].
  destruct Hp as ((e1 & He1 & Hl1 & Hu1) & Ha1 & Hr1).
  destruct r as [[jwt|m]|]; [| destruct Hr1 |].
  - split; [split; [exact Ha1 | exact Hr1]|].
    exists e1. repeat split; [exact He1 | lia | exact Hu1].
  - destruct Hr1 as [Hc1 Hk1].
    pose proof (basic_exchange_spec st1 n1 Hc1) as Hq.
    destruct (basic_exchange fetch token secret base st1 n1)
      as [[r2 st2] n2].
    destruct Hq as (He2 & Ha2 & Hr2).
    assert (Hextra : exists extra,
               sent n2 = sent n ++ extra
               /\ (List.length extra <= 3)%nat
               /\ Forall (fun req => url req = authUrl base) extra).
    { exists (e1 ++ [basic_request token secret base]).
      split; [rewrite He2, He1, <- app_assoc; reflexivity|].
      split; [rewrite length_app; simpl; lia|].
      apply Forall_app. split; [exact Hu1 | repeat constructor]. }
    assert (Hatt : attemptedAuth st2 = true)
      by (rewrite Ha2, Ha1; reflexivity).
    destruct r2 as [[jwt|m]|]; [| destruct Hr2 |].
    + split; [split; [exact Hatt | exact Hr2] | exact Hextra].
    + destruct (truthy_text (sessionCookie st2)) eqn:Ek2.
      * split; [|exact Hextra]. split; [exact Hatt|]. right. auto.
      * split; [|exact Hextra]. split; [exact Hatt|]. auto.
Qed.

(** A later call, on a session that remembers the outcome. *)
Lemma obtainJWT_again (st : session) (n : net World) (o : outcome) :
  truthy_text presetBearer = false ->
  remembers st o ->
  exists o',
    obtainJWT fetch token secret presetBearer base st n = (o', st, n)
    /\ match o with
       | Returned jwt => o' = Returned jwt
       | Threw _ => exists m, o' = Threw m
       end.
Proof.
  intros Hb [Ha Ho]. unfold obtainJWT. rewrite Hb, Ha. cbn [andb].
  destruct o as [jwt|m].
  - destruct Ho as [[Ht <-]|(-> & Hc & Hk)].
    + rewrite Ht. eexists. split; reflexivity.
    + rewrite Hc, Hk. eexists. split; reflexivity.
  - destruct Ho as [Hc Hk]. rewrite Hc, Hk.
    eexists. split; [reflexivity | eexists; reflexivity].
Qed.

End Session.

(** X17. One credential exchange costs at most three requests, all of
    them to the authentication address, and none at all when a bearer
    token is preset or when the exchange has been attempted before. *)
Theorem exchange_costs_at_most_three_requests :
  forall (World : Type) (fetch : request -> World -> option response * World)
         (token secret : string) (presetBearer : option string)
         (base : string) (st : session) (n : net World),
    (attemptedAuth st = false ->
     truthy (cachedJWT st) = false /\ truthy_text (sessionCookie st) = false) ->
    let '(_, _, n') :=
      obtainJWT fetch token secret presetBearer base st n in
    exists extra,
      sent n' = sent n ++ extra
      /\ (List.length extra <= 3)%nat
      /\ Forall (fun req => url req = authUrl base) extra
      /\ (truthy_text presetBearer = true \/ attemptedAuth st = true ->
          extra = []).
Proof.
  intros World fetch token secret presetBearer base st n Hfresh.
  assert (Hnone :
             exists extra : list request,
               sent n = sent n ++ extra /\ (List.length extra <= 3)%nat
               /\ Forall (fun req => url req = authUrl base) extra
               /\ (truthy_text presetBearer = true
                   \/ attemptedAuth st = true -> extra = [])).
  { exists []. rewrite app_nil_r.
    repeat split; [simpl; lia | constructor]. }
  destruct (truthy_text presetBearer) eqn:Hb.
  - unfold obtainJWT. rewrite Hb. exact Hnone.
  - destruct (attemptedAuth st) eqn:Ha.
    + unfold obtainJWT. rewrite Hb, Ha. cbn [andb].
      destruct (truthy (cachedJWT st)); [exact Hnone|].
      destruct (truthy_text (sessionCookie st)); exact Hnone.
    + destruct (Hfresh eq_refl) as [Hc Hk].
      pose proof (obtainJWT_first fetch token secret presetBearer base st n
                    Hb Ha Hc Hk) as H.
      destruct (obtainJWT fetch token secret presetBearer base st n)
        as [[o st'] n'].
      destruct H as (_ & extra & He & Hl & Hu).
      exists extra. repeat split; try assumption.
      intros [H|H]; discriminate.
Qed.

Lemma exchange_costs_at_most_three_requests_witness :
  exists extra,
    sent (snd (obtainJWT picky "tok" "sec" None "https://api.app.preset.io/"
                         fresh_session
                         {| server := unauthorized_then_bearer;
                            sent := [] |}))
    = [] ++ extra
    /\ (List.length extra <= 3)%nat.
Proof.
  pose proof (exchange_costs_at_most_three_requests (list response) picky
                "tok" "sec" None "https://api.app.preset.io/" fresh_session
                {| server := unauthorized_then_bearer; sent := [] |}
                (fun _ => conj eq_refl eq_refl)) as H.
  destruct (obtainJWT picky "tok" "sec" None "https://api.app.preset.io/"
              fresh_session
              {| server := unauthorized_then_bearer; sent := [] |})
    as [[o st] n'].
  destruct H as (extra & He & Hl & _). exists extra. split; assumption.
Defined.

(** X18. The exchange is memoised: after a first call on the fresh
    session, a second call leaves the session and the network as they
    are, asks the server nothing, and ends as the first one did: with the
    same token, with [null] again for a cookie session, or again with an
    error when the exchange had failed. *)
Theorem exchange_is_memoised :
  forall (World : Type) (fetch : request -> World -> option response * World)
         (token secret : string) (presetBearer : option string)
         (base : string) (n : net World),
    let '(o1, st1, n1) :=
      obtainJWT fetch token secret presetBearer base fresh_session n in
    exists o2,
      obtainJWT fetch token secret presetBearer base st1 n1 = (o2, st1, n1)
      /\ match o1 with
         | Returned jwt => o2 = Returned jwt
         | Threw _ => exists m, o2 = Threw m
         end.
Proof.
  intros World fetch token secret presetBearer base n.
  destruct (truthy_text presetBearer) eqn:Hb.
  - unfold obtainJWT. rewrite Hb. eexists. split; reflexivity.
  - pose proof (obtainJWT_first fetch token secret presetBearer base
                  fresh_session n Hb eq_refl eq_refl eq_refl) as H.
    destruct (obtainJWT fetch token secret presetBearer base fresh_session n)
      as [[o1 st1] n1].
    destruct H as [Hrem _].
    apply (obtainJWT_again fetch token secret presetBearer base st1 n1 o1 Hb
                           Hrem).
Qed.

End SessionMore.

(** ** Requests after the exchange *)

Module ApiMore.
Import Fetcher JSFacts AuthFacts SessionMore.

(** X19. Once the session remembers how the exchange ended, a call of
    [api] leaves the session as it is.  After a failed exchange it sends
    nothing and answers with nothing; otherwise it sends exactly one GET
    to the base address followed by the path, whose only credential is the
    bearer token when there is one and the session cookie when there is
    none, and it answers what [fetch] answers. *)
Theorem api_after_the_exchange :
  forall (World : Type) (fetch : request -> World -> option response * World)
         (token secret : string) (presetBearer : option string)
         (base relative : string) (st : session) (n : net World)
         (o : outcome),
    truthy_text presetBearer = false ->
    remembers st o ->
    let '(res, (st', n')) :=
      api fetch token secret presetBearer base relative (st, n) in
    st' = st
    /\ match o with
       | Threw _ => res = None /\ n' = n
       | Returned jwt =>
           exists req,
             sent n' = sent n ++ [req]
             /\ (res, server n') = fetch req (server n)
             /\ url req = (strip_slash base ++ relative)%string
             /\ verb req = GET
             /\ credentials req
                = if truthy jwt
                  then [Authorization_Bearer (ToPropertyKey jwt)]
                  else [Cookie (text_of (sessionCookie st))]
       end.
Proof.
  intros World fetch token secret presetBearer base relative st n o Hb Hrem.
  destruct (obtainJWT_again fetch token secret presetBearer base st n o
                            Hb Hrem) as (o' & E & Ho).
  unfold api. rewrite E. destruct o as [jwt|m].
  - subst o'.
    set (req := {| url := _; verb := GET; sent_headers := _;
                   payload := None |}).
    pose proof (send_sent fetch req n) as (Hs & Hw & Hr).
    destruct (send fetch req n) as [res n1]. cbn [fst snd] in *.
    split; [reflexivity|]. exists req.
    split; [exact Hs|].
    split; [rewrite Hw, Hr; destruct (fetch req (server n)); reflexivity|].
    split; [reflexivity|]. split; [reflexivity|].
    subst req. unfold credentials. cbn [sent_headers app filter].
    destruct Hrem as [_ [[Ht _]|(-> & _ & Hk)]].
    + rewrite Ht. reflexivity.
    + cbn [truthy truthy_json].
      destruct (sessionCookie st) as [c|]; [|discriminate Hk].
      cbn [truthy_text] in Hk.
      destruct (c =? "")%string; [discriminate Hk | reflexivity].
  - destruct Ho as [m' ->]. repeat split.
Qed.

Lemma api_after_the_exchange_witness :
  fst (api picky "tok" "sec" None "https://api.app.preset.io" "/v1/teams/"
           ({| cachedJWT := Some JNull; attemptedAuth := true;
               debugAuthPayload := Some JNull; sessionCookie := None |},
            {| server := unauthorized_then_bearer; sent := [] |}))
  = None.
Proof.
  pose proof (api_after_the_exchange (list response) picky "tok" "sec" None
                "https://api.app.preset.io" "/v1/teams/"
                {| cachedJWT := Some JNull; attemptedAuth := true;
                   debugAuthPayload := Some JNull; sessionCookie := None |}
                {| server := unauthorized_then_bearer; sent := [] |}
                (Threw "Auth previously failed") eq_refl
                (conj eq_refl (conj eq_refl eq_refl))) as H.
  destruct (api picky "tok" "sec" None "https://api.app.preset.io"
                "/v1/teams/" _) as [res [st' n']].
  destruct H as (_ & Hres & _). exact Hres.
Defined.

End ApiMore.

(** ** Endpoint probing *)

Module ProbingMore.
Import Fetcher JSFacts PaginationFacts.

Section Probe.

Context {World : Type}.
Variable api : string -> World -> option response * World.
Variable paginated : bool.
Variable pageSize : Z.

Lemma ok_not_404 (res : response) :
  ok res = true -> (status res =? 404)%Z = false.
Proof.
  unfold ok. intros H. apply andb_true_iff in H as [_ H].
  apply Z.leb_le in H. apply Z.eqb_neq. lia.
Qed.

(** A candidate whose first answer is unusable costs one request and
    yields nothing. *)
Lemma skip_candidate (fuel : nat) (endpoint : string)
  (rest : list string) (s : run World) :
  unusable (fst (api (first_url paginated pageSize endpoint) (world s)))
  = true ->
  tryEndpoints api (S fuel) (endpoint :: rest) paginated pageSize s
  = tryEndpoints api (S fuel) rest paginated pageSize
      {| world := snd (api (first_url paginated pageSize endpoint) (world s));
         requests := requests s
                     ++ [first_url paginated pageSize endpoint] |}.
Proof.
  unfold first_url. intros H. destruct paginated.
  - cbn [tryEndpoints paginate]. unfold call. change (0 + 1)%Z with 1%Z.
    destruct (api (paged_url endpoint 1 pageSize) (world s)) as [a w].
    cbn [fst snd] in *. destruct a as [res|]; [|reflexivity].
    cbn [unusable] in H. destruct (status res =? 404)%Z; [reflexivity|].
    rewrite H. reflexivity.
  - cbn [tryEndpoints]. unfold fetch_plain, call.
    destruct (api endpoint (world s)) as [a w].
    cbn [fst snd] in *. destruct a as [res|]; [|reflexivity].
    cbn [unusable] in H. destruct (status res =? 404)%Z; [reflexivity|].
    rewrite H. reflexivity.
Qed.

(** A candidate whose first answer carries records, on a page that ends
    the pagination, is accepted with that one request. *)
Lemma accept_candidate (fuel : nat) (endpoint : string)
  (rest : list string) (s : run World) (res : response) (body0 : json)
  (w : World) :
  api (first_url paginated pageSize endpoint) (world s) = (Some res, w) ->
  ok res = true -> body res = Some body0 ->
  items_of paginated body0 <> [] ->
  (paginated = true -> last_page pageSize body0 = true) ->
  tryEndpoints api (S fuel) (endpoint :: rest) paginated pageSize s
  = Some (items_of paginated body0,
          {| world := w;
             requests := requests s
                         ++ [first_url paginated pageSize endpoint] |}).
Proof.
  unfold first_url, items_of, last_page. intros Ha Hok Hb Hitems Hlast.
  destruct paginated.
  - cbn [tryEndpoints paginate]. unfold call. change (0 + 1)%Z with 1%Z.
    rewrite Ha, (ok_not_404 _ Hok), Hok, Hb. cbn [negb].
    destruct (page_items body0) as [|x xs] eqn:E; [contradiction|].
    rewrite <- E in *. rewrite (Hlast eq_refl). rewrite E. reflexivity.
  - cbn [tryEndpoints]. unfold fetch_plain, call.
    rewrite Ha, (ok_not_404 _ Hok), Hok, Hb. cbn [negb].
    destruct (plain_items body0) as [|x xs] eqn:E; [contradiction|].
    reflexivity.
Qed.

End Probe.

(** X20. Probing accepts the first candidate that answers: when every
    candidate before it gives no usable response (none, a 404 or another
    status outside 200..299) and it answers with records on a page that
    ends the pagination, probing returns exactly these records, having
    asked each earlier candidate once, in order, and no later candidate.
    When no candidate gives a usable response, probing returns the empty
    list after one request to each.  This holds with and without
    pagination. *)
Theorem probing_accepts_the_first_answer :
  forall (World : Type) (api : string -> World -> option response * World)
         (paginated : bool) (pageSize : Z) (fuel : nat)
         (skipped : list string),
    (forall e w, In e skipped ->
                 unusable (fst (api (first_url paginated pageSize e) w))
                 = true) ->
    (forall (good : string) (rest : list string) (res : response)
            (body0 : json) (s : run World),
        (forall w, exists w',
              api (first_url paginated pageSize good) w = (Some res, w')) ->
        ok res = true -> body res = Some body0 ->
        items_of paginated body0 <> [] ->
        (paginated = true -> last_page pageSize body0 = true) ->
        exists s',
          tryEndpoints api (S fuel) (skipped ++ good :: rest)
                       paginated pageSize s
          = Some (items_of paginated body0, s')
          /\ requests s'
             = requests s
               ++ map (first_url paginated pageSize) (skipped ++ [good]))
    /\ (forall s : run World,
           exists s',
             tryEndpoints api (S fuel) skipped paginated pageSize s
             = Some ([], s')
             /\ requests s'
                = requests s ++ map (first_url paginated pageSize) skipped).
Proof.
  intros World api paginated pageSize fuel skipped.
  induction skipped as [|e skipped IH]; intros Hskip.
  - split.
    + intros good rest res body0 s Hgood Hok Hb Hitems Hlast.
      destruct (Hgood (world s)) as [w' Ha].
      eexists. split.
      * apply (accept_candidate api paginated pageSize fuel good rest s
                                res body0 w' Ha Hok Hb Hitems Hlast).
      * reflexivity.
    + intros s. exists s. split; [reflexivity|].
      simpl. rewrite app_nil_r. reflexivity.
  - assert (Hrest : forall e' w, In e' skipped ->
                                 unusable (fst (api (first_url paginated
                                                       pageSize e') w))
                                 = true).
    { intros e' w Hin. apply Hskip. right. exact Hin. }
    destruct (IH Hrest) as [IHgood IHnone]. split.
    + intros good rest res body0 s Hgood Hok Hb Hitems Hlast.
      cbn [app]. rewrite skip_candidate by (apply Hskip; left; reflexivity).
      destruct (IHgood good rest res body0
                  {| world := snd (api (first_url paginated pageSize e)
                                       (world s));
                     requests := requests s
                                 ++ [first_url paginated pageSize e] |}
                  Hgood Hok Hb Hitems Hlast)
        as (s' & E & Hr).
      exists s'. split; [exact E|]. rewrite Hr. cbn [requests map app].
      rewrite <- app_assoc. reflexivity.
    + intros s. rewrite skip_candidate by (apply Hskip; left; reflexivity).
      destruct (IHnone {| world := snd (api (first_url paginated pageSize e)
                                            (world s));
                          requests := requests s
                                      ++ [first_url paginated pageSize e] |})
        as (s' & E & Hr).
      exists s'. split; [exact E|]. rewrite Hr. cbn [requests map].
      rewrite <- app_assoc. reflexivity.
Qed.

Lemma probing_accepts_the_first_answer_witness :
  exists s',
    tryEndpoints legacy_host 1
                 (["/api/v1/user/"%string]
                  ++ "/api/v1/users"%string :: ["/v1/users"%string])
                 true 100 {| world := tt; requests := [] |}
    = Some (items_of true (JObj [("result"%string, JArr [JNum 1])]), s')
    /\ requests s'
       = [] ++ map (first_url true 100)
                   (["/api/v1/user/"%string] ++ ["/api/v1/users"%string]).
Proof.
  assert (Hskip : forall e w,
             In e ["/api/v1/user/"%string] ->
             unusable (fst (legacy_host (first_url true 100 e) w)) = true).
  { intros e w [<-|[]]. reflexivity. }
  destruct (probing_accepts_the_first_answer unit legacy_host true 100 0
              ["/api/v1/user/"%string] Hskip) as [Hgood _].
  apply (Hgood "/api/v1/users"%string ["/v1/users"%string]
               (result_page [JNum 1])
               (JObj [("result"%string, JArr [JNum 1])])
               {| world := tt; requests := [] |}).
  - intros w. exists w. reflexivity.
  - reflexivity.
  - reflexivity.
  - discriminate.
  - intros _. reflexivity.
Defined.

End ProbingMore.

(** ** The request volume of the fan-out *)

Module FanOutMore.
Import Fetcher JSFacts PaginationFacts WorkspacesMore DownloadMore
       FetchDataMore.

Lemma identifiers_length (t : json) : (List.length (identifiers t) <= 3)%nat.
Proof.
  unfold identifiers. cbn [flat_map]. rewrite !length_app.
  destruct (nameId t) as [[| | | | |]|], (numericId t) as [[| | | | |]|],
           (uuidId t) as [[| | | | |]|]; simpl; lia.
Qed.

(** The candidate identifiers of a team: at most three, none twice. *)
Lemma uniqueIds_spec (t : json) :
  (List.length (uniqueIds t) <= 3)%nat /\ NoDup (uniqueIds t).
Proof.
  unfold uniqueIds. split.
  - pose proof (set_adds_length (identifiers t) []).
    pose proof (identifiers_length t). simpl in *. lia.
  - apply (all_keys_spec (identifiers t) [] (NoDup_nil _)).
Qed.

Section Volume.

Context {World : Type}.
Variable api : string -> World -> option response * World.
Variable teamMembersPattern : string.

Lemma try_patterns_volume (t : json) (candidate : string) :
  forall patterns teamMembers s,
    let '(_, _, s') :=
      try_patterns api t candidate patterns teamMembers s in
    (List.length (requests s')
     <= List.length (requests s) + List.length patterns)%nat.
Proof.
  induction patterns as [|pattern rest IH]; intros tm s; cbn [try_patterns].
  - lia.
  - destruct (call api (member_endpoint pattern candidate) s)
      as [res s1] eqn:Ecall.
    apply call_length in Ecall.
    assert (Hskip : forall tm',
               let '(_, _, s') := try_patterns api t candidate rest tm' s1 in
               (List.length (requests s')
                <= List.length (requests s)
                   + List.length (pattern :: rest))%nat).
    { intros tm'. specialize (IH tm' s1).
      destruct (try_patterns api t candidate rest tm' s1) as [[g x] s'].
      simpl. lia. }
    destruct res as [res|]; [|apply Hskip].
    destruct (status res =? 404)%Z; [apply Hskip|].
    destruct (negb (ok res)); [apply Hskip|].
    destruct (body res) as [payload|]; [|apply Hskip].
    destruct (push_members t candidate (member_items payload) tm)
      as [[u|msg] tm1]; [simpl; lia | apply Hskip].
Qed.

Lemma try_candidates_volume (t : json) :
  forall candidates teamMembers s,
    let '(_, s') :=
      try_candidates api teamMembersPattern t candidates teamMembers s in
    (List.length (requests s')
     <= List.length (requests s) + 6 * List.length candidates)%nat.
Proof.
  induction candidates as [|candidate rest IH]; intros tm s;
    cbn [try_candidates].
  - lia.
  - pose proof (try_patterns_volume t candidate
                  (teamMembersFallbacks teamMembersPattern) tm s) as Hp.
    destruct (try_patterns api t candidate
                (teamMembersFallbacks teamMembersPattern) tm s)
      as [[got tm1] s1].
    cbn [teamMembersFallbacks List.length] in Hp.
    destruct got; [cbn [List.length]; lia|].
    specialize (IH tm1 s1).
    destruct (try_candidates api teamMembersPattern t rest tm1 s1)
      as [tm' s'].
    cbn [List.length]. lia.
Qed.

Lemma audit_candidates_volume (t : json) :
  forall candidates auditTried auditLogsAll s,
    let '(_, s') :=
      audit_candidates api t candidates auditTried auditLogsAll s in
    (List.length (requests s')
     <= List.length (requests s) + List.length candidates)%nat.
Proof.
  induction candidates as [|candidate rest IH]; intros tried logs s;
    cbn [audit_candidates].
  - lia.
  - assert (Hsame : forall tried' (s0 : run World),
               (List.length (requests s0)
                <= S (List.length (requests s)))%nat ->
               let '(_, s') := audit_candidates api t rest tried' logs s0 in
               (List.length (requests s')
                <= List.length (requests s)
                   + List.length (candidate :: rest))%nat).
    { intros tried' s0 H0. specialize (IH tried' logs s0).
      destruct (audit_candidates api t rest tried' logs s0) as [x s'].
      simpl. lia. }
    destruct (set_has candidate tried); [apply Hsame; lia|].
    destruct (call api (audit_endpoint candidate) s) as [res s1] eqn:Ecall.
    apply call_length in Ecall.
    destruct res as [res|]; [|apply Hsame; lia].
    destruct (status res =? 404)%Z; [apply Hsame; lia|].
    destruct (negb (ok res)); [apply Hsame; lia|].
    destruct (body res) as [payload|]; [|apply Hsame; lia].
    destruct (audit_items payload); [apply Hsame; lia | simpl; lia].
Qed.

Lemma fan_out_volume :
  forall teams teamMembers auditLogsAll s,
    let '(_, _, s') :=
      fan_out api teamMembersPattern teams teamMembers auditLogsAll s in
    (List.length (requests s')
     <= List.length (requests s)
        + 7 * list_sum (map (fun t => List.length (uniqueIds t)) teams))%nat.
Proof.
  induction teams as [|t rest IH]; intros tm logs s; cbn [fan_out].
  - lia.
  - cbn [map list_sum fold_right].
    fold (list_sum (map (fun t => List.length (uniqueIds t)) rest)).
    destruct (uniqueIds t) as [|c ids] eqn:Eids.
    + specialize (IH tm logs s).
      destruct (fan_out api teamMembersPattern rest tm logs s)
        as [[x y] s'].
      simpl. lia.
    + pose proof (try_candidates_volume t (c :: ids) tm s) as Hm.
      destruct (try_candidates api teamMembersPattern t (c :: ids) tm s)
        as [tm1 s1].
      pose proof (audit_candidates_volume t (c :: ids) [] logs s1) as Ha.
      destruct (audit_candidates api t (c :: ids) [] logs s1)
        as [logs2 s2].
      specialize (IH tm1 logs2 s2).
      destruct (fan_out api teamMembersPattern rest tm1 logs2 s2)
        as [[x y] s'].
      lia.
Qed.

End Volume.

(** X21. The fan-out is bounded: a team has at most three candidate
    identifiers, none twice, and costs at most seven requests for each
    (six membership patterns and one audit address), so a run over the
    teams sends at most 21 requests per team; a team without any
    identifier costs none. *)
Theorem fan_out_request_volume :
  forall (World : Type) (api : string -> World -> option response * World)
         (teamMembersPattern : string) (teams : list json) (s : run World),
    Forall (fun t => (List.length (uniqueIds t) <= 3)%nat
                     /\ NoDup (uniqueIds t)) teams
    /\ let '(_, _, s') := fan_out api teamMembersPattern teams [] [] s in
       (List.length (requests s')
        <= List.length (requests s)
           + 7 * list_sum (map (fun t => List.length (uniqueIds t)) teams))%nat
       /\ (List.length (requests s')
           <= List.length (requests s) + 21 * List.length teams)%nat.
Proof.
  intros World api teamMembersPattern teams s. split.
  - apply Forall_forall. intros t _. apply uniqueIds_spec.
  - pose proof (fan_out_volume api teamMembersPattern teams [] [] s) as H.
    destruct (fan_out api teamMembersPattern teams [] [] s) as [[x y] s'].
    split; [exact H|].
    assert (Hsum : (list_sum (map (fun t => List.length (uniqueIds t)) teams)
                    <= 3 * List.length teams)%nat).
    { clear. induction teams as [|t teams IH]; [simpl; lia|].
      cbn [map list_sum fold_right List.length].
      fold (list_sum (map (fun t => List.length (uniqueIds t)) teams)).
      pose proof (proj1 (uniqueIds_spec t)). lia. }
    lia.
Qed.

End FanOutMore.

(** ** Addresses *)

Module AddressMore.
Import Fetcher JSFacts DownloadMore FetchDataMore.

Lemma hex_value_hex_digit (d : nat) :
  (d < 16)%nat -> hex_value (hex_digit d) = Some d.
Proof.
  intros H. do 16 (destruct d as [|d]; [reflexivity|]). lia.
Qed.

Lemma unreserved_not_percent (c : ascii) :
  unreserved c = true -> Ascii.eqb c "%" = false.
Proof.
  intros H. destruct (Ascii.eqb_spec c "%") as [->|_]; [|reflexivity].
  discriminate H.
Qed.

Lemma decode_encode (s : string) :
  decode_component (encodeURIComponent s) = s.
Proof.
  induction s as [|c s IH]; [reflexivity|].
  cbn [encodeURIComponent]. destruct (unreserved c) eqn:E.
  - cbn [decode_component]. rewrite (unreserved_not_percent c E), IH.
    reflexivity.
  - cbn [decode_component]. change (Ascii.eqb "%" "%") with true. cbn iota.
    pose proof (nat_ascii_bounded c) as Hc.
    rewrite !hex_value_hex_digit.
    + rewrite IH, <- Nat.div_mod_eq, ascii_nat_embedding. reflexivity.
    + apply Nat.mod_upper_bound. lia.
    + apply Nat.Div0.div_lt_upper_bound. lia.
Qed.

Lemma hex_digit_unreserved (d : nat) :
  (d < 16)%nat -> unreserved (hex_digit d) = true.
Proof.
  intros H. do 16 (destruct d as [|d]; [reflexivity|]). lia.
Qed.

Lemma encode_chars (s : string) :
  Forall (fun c => component_char c = true)
         (list_ascii_of_string (encodeURIComponent s)).
Proof.
  induction s as [|c s IH]; [constructor|].
  cbn [encodeURIComponent]. destruct (unreserved c) eqn:E.
  - constructor; [unfold component_char; rewrite E; reflexivity | exact IH].
  - pose proof (nat_ascii_bounded c) as Hc.
    cbn [list_ascii_of_string]. repeat constructor; try exact IH;
      unfold component_char.
    + rewrite hex_digit_unreserved; [reflexivity|].
      apply Nat.Div0.div_lt_upper_bound. lia.
    + rewrite hex_digit_unreserved; [reflexivity|].
      apply Nat.mod_upper_bound. lia.
Qed.

(** X22. The encoding of an identifier loses nothing: different
    identifiers have different encoded components, so they are never
    asked at the same address, under each of the built-in membership
    patterns and under the audit address.  The encoded component holds
    only letters, digits, the marks [-_.!~*'()] and [%], so an identifier
    cannot add a path segment or a query. *)
Theorem identifiers_are_encoded_faithfully :
  (forall a b, encodeURIComponent a = encodeURIComponent b -> a = b)
  /\ (forall s, Forall (fun c => component_char c = true)
                       (list_ascii_of_string (encodeURIComponent s)))
  /\ (forall a b, audit_endpoint a = audit_endpoint b -> a = b)
  /\ (forall pattern a b,
         In pattern (teamMembersFallbacks "/v1/teams/{team_id}/memberships") ->
         member_endpoint pattern a = member_endpoint pattern b -> a = b).
Proof.
  assert (Hinj : forall a b,
             encodeURIComponent a = encodeURIComponent b -> a = b).
  { intros a b H. rewrite <- (decode_encode a), <- (decode_encode b), H.
    reflexivity. }
  split; [exact Hinj|]. split; [exact encode_chars|]. split.
  - intros a b H. unfold audit_endpoint in H. simpl in H.
    apply Hinj. eapply append_cancel_r.
    injection H as H. exact H.
  - intros pattern a b Hp H. apply Hinj.
    cbn [teamMembersFallbacks In] in Hp.
    unfold member_endpoint in H.
    destruct Hp as [<-|[<-|[<-|[<-|[<-|[<-|[]]]]]]];
      cbn in H; injection H as H; eapply append_cancel_r; exact H.
Qed.

Lemma identifiers_are_encoded_faithfully_witness :
  "eng/1"%string = "eng/1"%string
  /\ Forall (fun c => component_char c = true)
            (list_ascii_of_string (encodeURIComponent "eng/1")).
Proof.
  destruct identifiers_are_encoded_faithfully as (_ & Hchars & Haudit & _).
  split; [apply Haudit; reflexivity | apply Hchars].
Defined.

Lemma replace_first_absent (pat rep s : string) :
  includes s pat = false -> replace_first pat rep s = s.
Proof.
  induction s as [|c s IH]; cbn [includes replace_first]; intros H;
    apply orb_false_iff in H as [H1 H2]; rewrite H1.
  - reflexivity.
  - rewrite (IH H2). reflexivity.
Qed.

(** X23. A configured membership pattern that lacks the [{team_id}]
    placeholder is asked as it stands: the same address for every team
    and every candidate identifier. *)
Theorem pattern_without_placeholder :
  forall pattern candidate : string,
    includes pattern "{team_id}" = false ->
    member_endpoint pattern candidate = pattern.
Proof.
  intros pattern candidate H. unfold member_endpoint.
  apply replace_first_absent. exact H.
Qed.

Lemma pattern_without_placeholder_witness :
  member_endpoint "/v1/memberships" "eng" = "/v1/memberships"%string.
Proof.
  apply pattern_without_placeholder. reflexivity.
Defined.

End AddressMore.

(** ** Tokens and cookies *)

Module TokenMore.
Import Fetcher JSFacts.

Lemma split_set_cookie_nonempty (s : string) : split_set_cookie s <> [].
Proof.
  destruct s as [|c s]; cbn [split_set_cookie]; [discriminate|].
  destruct (Ascii.eqb c "," && cookie_follows s); [discriminate|].
  destruct (split_set_cookie s); discriminate.
Qed.

Lemma join_cons (sep p : string) (ps : list string) :
  ps <> [] -> join sep (p :: ps) = (p ++ sep ++ join sep ps)%string.
Proof. destruct ps; [contradiction | reflexivity]. Qed.

Lemma join_push (sep : string) (c : ascii) (p : string) (ps : list string) :
  join sep (String c p :: ps) = String c (join sep (p :: ps)).
Proof. destruct ps; reflexivity. Qed.

Lemma split_set_cookie_joins (s : string) :
  join "," (split_set_cookie s) = s.
Proof.
  induction s as [|c s IH]; [reflexivity|].
  cbn [split_set_cookie].
  destruct (Ascii.eqb c "," && cookie_follows s) eqn:E.
  - apply andb_true_iff in E as [E _]. apply Ascii.eqb_eq in E. subst c.
    rewrite join_cons by apply split_set_cookie_nonempty.
    rewrite IH. reflexivity.
  - pose proof (split_set_cookie_nonempty s) as Hne.
    destruct (split_set_cookie s) as [|p ps]; [contradiction|].
    rewrite join_push, IH. reflexivity.
Qed.

Lemma split_without_comma (s : string) :
  includes s "," = false -> split_set_cookie s = [s].
Proof.
  induction s as [|c s IH]; [reflexivity|].
  cbn [includes startsWith]. intros H.
  apply orb_false_iff in H as [H1 H2].
  rewrite andb_true_r in H1. cbn [split_set_cookie].
  rewrite Ascii.eqb_sym in H1. rewrite H1. cbn [andb].
  rewrite (IH H2). reflexivity.
Qed.

Lemma before_semicolon_clean (s : string) :
  includes (before_semicolon s) ";" = false.
Proof.
  induction s as [|c s IH]; [reflexivity|].
  cbn [before_semicolon]. destruct (Ascii.eqb c ";") eqn:E; [reflexivity|].
  cbn [includes startsWith]. rewrite Ascii.eqb_sym, E, IH. reflexivity.
Qed.

(** X24. Splitting a [Set-Cookie] header loses nothing but the commas at
    which it splits: the pieces joined by commas are the header again.
    From a header without a comma the session keeps the text before the
    first semicolon, the name and value without the attributes, and what
    it keeps holds no semicolon. *)
Theorem set_cookie_capture :
  (forall setCookie, join "," (split_set_cookie setCookie) = setCookie)
  /\ (forall (res : response) (st : session) (setCookie : string),
         headers_get (headers res) "set-cookie" = Some setCookie ->
         setCookie <> ""%string ->
         includes setCookie "," = false ->
         sessionCookie (capture_cookie res st)
         = Some (before_semicolon setCookie)
         /\ includes (before_semicolon setCookie) ";" = false).
Proof.
  split; [exact split_set_cookie_joins|].
  intros res st setCookie Hh Hne Hc. split; [|apply before_semicolon_clean].
  unfold capture_cookie. rewrite Hh.
  destruct (String.eqb_spec setCookie "") as [E|_]; [contradiction|].
  cbn [sessionCookie]. rewrite (split_without_comma _ Hc). reflexivity.
Qed.

Lemma set_cookie_capture_witness :
  sessionCookie
    (capture_cookie {| status := 200;
                       headers := [("set-cookie", "sid=9; Path=/")]%string;
                       body := None |} fresh_session)
  = Some (before_semicolon "sid=9; Path=/").
Proof.
  apply (proj2 set_cookie_capture
           {| status := 200; headers := [("set-cookie", "sid=9; Path=/")]%string;
              body := None |} fresh_session "sid=9; Path=/"%string).
  - reflexivity.
  - discriminate.
  - reflexivity.
Defined.

(** X25. A token in the body wins over the headers: when one of the four
    top-level fields [jwt], [access_token], [token], [id_token] of the
    body is truthy, the headers do not matter.  A body that is [null],
    [false], [0] or the empty string gives [null] even when the headers
    carry a token.  The result is never [undefined]. *)
Theorem body_token_wins :
  (forall (body0 : json) (hs hs' : list (string * string)) (k : string),
      In k ["jwt"; "access_token"; "token"; "id_token"]%string ->
      truthy_json body0 = true ->
      truthy (prop body0 k) = true ->
      extractJWT body0 hs = extractJWT body0 hs'
      /\ truthy (extractJWT body0 hs) = true)
  /\ (forall (body0 : json) (hs : list (string * string)),
         truthy_json body0 = false -> extractJWT body0 hs = Some JNull)
  /\ (forall (body0 : json) (hs : list (string * string)),
         extractJWT body0 hs <> None).
Proof.
  split; [|split].
  - intros body0 hs hs' k Hk Hb Ht. unfold extractJWT. rewrite Hb.
    cbn [negb].
    set (cands := filter truthy _).
    assert (Hin : In (prop body0 k) cands).
    { subst cands. apply filter_In. split; [|exact Ht].
      cbn [In]. cbn [In] in Hk.
      destruct Hk as [<-|[<-|[<-|[<-|[]]]]]; tauto. }
    assert (Hall : Forall (fun c => truthy c = true) cands).
    { subst cands. apply Forall_forall. intros c Hc.
      apply filter_In in Hc. tauto. }
    destruct cands as [|c cs]; [destruct Hin|].
    split; [reflexivity|]. inversion Hall; assumption.
  - intros body0 hs Hb. unfold extractJWT. rewrite Hb. reflexivity.
  - intros body0 hs. unfold extractJWT.
    destruct (negb (truthy_json body0)); [discriminate|].
    set (cands := filter truthy _).
    assert (Hall : Forall (fun c => truthy c = true) cands).
    { subst cands. apply Forall_forall. intros c Hc.
      apply filter_In in Hc. tauto. }
    destruct cands as [|c cs].
    + unfold token_of_headers.
      destruct (truthy_text _ && includes _ _); [discriminate|].
      destruct (truthy_text _); discriminate.
    + inversion Hall as [|? ? Hc _]; subst. destruct c; [discriminate|].
      discriminate Hc.
Qed.

Lemma body_token_wins_witness :
  extractJWT (JObj [("token"%string, JStr "t")])
             [("authorization", "Bearer other")]%string
  = extractJWT (JObj [("token"%string, JStr "t")]) []
  /\ truthy (extractJWT (JObj [("token"%string, JStr "t")])
                        [("authorization", "Bearer other")]%string) = true.
Proof.
  apply (proj1 body_token_wins (JObj [("token"%string, JStr "t")])
               [("authorization", "Bearer other")]%string []
               "token"%string).
  - right. right. left. reflexivity.
  - reflexivity.
  - reflexivity.
Defined.

End TokenMore.
